(** * AlgART native array primitives: CPU probe, kernel dispatch and kernels

    A shallow embedding of the native part of [net.algart.array.ArraysNative]
    (ArraysMacro.h, ArraysFunctions.h, ArraysNative.cpp, Arrays_fill.h,
    Arrays_minmax_int.h, Arrays_minmax_float.h, Arrays_minmax_double.h).

    Conventions.
    - A 32-bit register or [jint] is a [Z]; wrap-around is written with
      [wrap32] (unsigned view) and [sint32] (signed view).
    - The capability descriptor ([__int64 cpuInfoLast], [jlong CpuInfo]) is
      the [Z] whose binary digits are the 64 bits of the value.
    - Memory is a flat byte store [Z -> byte]; a pointer is the byte address.
      Arrays are assumed to live inside the address space, so pointer
      increments are written without wrap-around. *)

From Stdlib Require Import ZArith List Bool Lia.
From Stdlib Require Import Floats.SpecFloat.
From coqutil Require Import Byte.
Import ListNotations.
Local Open Scope Z_scope.

(** ** Machine integers *)

Definition wrap32 (x : Z) : Z := x mod 2 ^ 32.
Definition sint32 (x : Z) : Z :=
  let u := wrap32 x in if u <? 2 ^ 31 then u else u - 2 ^ 32.
Definition wrap64 (x : Z) : Z := x mod 2 ^ 64.
Definition not32 (x : Z) : Z := wrap32 (Z.lnot x).

(** ** ArraysMacro.h: capability flags and descriptor fields *)

Definition CPU_FPU : Z := 1.
Definition CPU_TSC : Z := Z.shiftl 1 4.
Definition CPU_CMOV : Z := Z.shiftl 1 15.
Definition CPU_MMX : Z := Z.shiftl 1 23.
Definition CPU_SSE : Z := Z.shiftl 1 25.
Definition CPU_SSE2 : Z := Z.shiftl 1 26.
Definition CPU_AMD : Z := Z.shiftl 1 59.
Definition CPU_MMXEX : Z := Z.shiftl 1 60.
Definition CPU_3DNOWEX : Z := Z.shiftl 1 62.
Definition CPU_3DNOW : Z := Z.shiftl 1 63.

Definition CPU_AMD_L : Z := Z.shiftl 1 (59 - 32).
Definition CPU_3DNOWEX_L : Z := Z.shiftl 1 (62 - 32).
Definition CPU_3DNOW_L : Z := Z.shiftl 1 (63 - 32).

Definition CPU_L2SIZE_SHIFT : Z := 32.
Definition CPU_L2SIZE_UNIT : Z := 32 * 1024.
Definition CPU_L2SIZE : Z := 1023.
Definition CPU_L1DATASIZE_SHIFT : Z := 42.
Definition CPU_L1DATASIZE_UNIT : Z := 8 * 1024.
Definition CPU_L1DATASIZE : Z := 255.
Definition CPU_FAMILY_SHIFT : Z := 50.
Definition CPU_FAMILY : Z := 15.

(** [CpuInfo & FLAG] used as a C condition. *)
Definition has_flag (CpuInfo flag : Z) : bool :=
  negb (Z.land CpuInfo flag =? 0).

(** ** ArraysFunctions.h: the capability probe [_cpuInfo] *)

(** The four registers the [cpuid] instruction leaves. *)
Record cpuid_regs : Type := mk_regs
  { r_eax : Z; r_ebx : Z; r_ecx : Z; r_edx : Z }.

(** The processor as the probe sees it: [cpuid_insn leaf] is what executing
    [cpuid] with [eax = leaf] leaves in the registers, or [None] when the
    instruction traps.  [uninit_eax] is the indeterminate initial content of
    the local [cpuid1regEAX], which the assembly block leaves unwritten when
    it exits before leaf 1. *)
Record Host : Type := mk_host
  { cpuid_insn : Z -> option cpuid_regs;
    uninit_eax : Z }.

(** Registers hold 32 bits. *)
Definition cpuid (h : Host) (leaf : Z) : option cpuid_regs :=
  match cpuid_insn h leaf with
  | None => None
  | Some r =>
      Some (mk_regs (wrap32 (r_eax r)) (wrap32 (r_ebx r))
                    (wrap32 (r_ecx r)) (wrap32 (r_edx r)))
  end.

(** The variables the [__asm] block of [_cpuInfo] writes. [a_info_lo] is the
    low dword of [cpuInfoLast] ([mov dword ptr cpuInfoLast,edx]). *)
Record AsmVars : Type := mk_asm
  { a_info_lo : Z;
    a_maxArgForCpuId : Z;
    a_cpuid1regEAX : Z;
    a_amdFeatures : Z;
    a_l1d : Z;
    a_l2 : Z;
    a_cpuid2regs : list Z }.

(** State on entry of the block on a first call: the statics are zero, the
    initialised locals are zero, [cpuid1regEAX] and [cpuid2regs] are
    indeterminate ([cpuid2regs] is only read after it was written). *)
Definition asm_entry (h : Host) : AsmVars :=
  mk_asm 0 0 (wrap32 (uninit_eax h)) 0 0 0 [0; 0; 0; 0].

(** [test edx,F; jnz ok; and edx,~G; ok:] *)
Definition downgrade (edx F G : Z) : Z :=
  if Z.land edx F =? 0 then Z.land edx (not32 G) else edx.

(** The [__asm] block, lines 41-113. [None] is a trap (the C++ [catch]). *)
Definition cpuInfo_asm (h : Host) : option AsmVars :=
  let v := asm_entry h in
  match cpuid h 0 with
  | None => None
  | Some r0 =>
    if r_eax r0 =? 0 then Some v                       (* jz _Exit *)
    else
      let maxArg := r_eax r0 in
      match cpuid h 1 with
      | None => None
      | Some r1 =>
        let eax1 := r_eax r1 in
        let edx := r_edx r1 in
        let edx := downgrade edx CPU_FPU CPU_CMOV in
        let edx := downgrade edx CPU_MMX (Z.lor CPU_SSE CPU_SSE2) in
        let edx := downgrade edx CPU_SSE CPU_SSE2 in
        let v := mk_asm edx maxArg eax1 0 0 0 (a_cpuid2regs v) in
        match cpuid h 0x80000000 with
        | None => None
        | Some re =>
          if r_eax re <? 0x80000005 then               (* jb _NoAMD_K6IIIPLUS *)
            if maxArg <? 2 then Some v                 (* jb _Exit *)
            else
              match cpuid h 2 with
              | None => None
              | Some r2 =>
                Some (mk_asm edx maxArg eax1 0 0 0
                        [r_eax r2; r_ebx r2; r_ecx r2; r_edx r2])
              end
          else
            match cpuid h 0x80000001 with
            | None => None
            | Some ra =>
              let edxa := Z.lor (r_edx ra) CPU_AMD_L in
              let edxa := downgrade edxa CPU_3DNOW_L CPU_3DNOWEX_L in
              match cpuid h 0x80000005 with
              | None => None
              | Some r5 =>
                let l1d := Z.shiftr (r_ecx r5) 24 in
                if r_eax re <? 0x80000006 then         (* jb _Exit *)
                  Some (mk_asm edx maxArg eax1 edxa l1d 0 (a_cpuid2regs v))
                else
                  match cpuid h 0x80000006 with
                  | None => None
                  | Some r6 =>
                    let l2 := Z.shiftr (r_ecx r6) 16 in
                    Some (mk_asm edx maxArg eax1 edxa l1d l2 (a_cpuid2regs v))
                  end
              end
            end
        end
      end
  end.

(** [cpuid2info[k]]: byte [k] of the four little-endian dwords. *)
Definition cpuid2info (regs : list Z) (k : Z) : Z :=
  Z.land (Z.shiftr (nth (Z.to_nat (k / 4)) regs 0) (8 * (k mod 4))) 255.

(** One turn of the [for k] loop, lines 126-146: the [switch] on the
    descriptor byte [v], with its fall-through from case 4 into case 8. *)
Definition cache_entry (cpuFamily v : Z) (acc : Z * Z) : Z * Z :=
  let '(l1d, l2) := acc in
  let vl := Z.land v 0xF in
  let hi := Z.shiftr v 4 in
  if hi =? 0 then
    if vl =? 10 then (wrap32 (l1d + 8), l2)
    else if vl =? 12 then (wrap32 (l1d + 16), l2)
    else acc
  else if hi =? 4 then
    if cpuFamily >? 6 then acc
    else if vl =? 0 then acc else (l1d, wrap32 (l2 + Z.shiftl 128 (vl - 1)))
  else if hi =? 8 then
    if vl =? 0 then acc else (l1d, wrap32 (l2 + Z.shiftl 128 (vl - 1)))
  else if hi =? 6 then
    if vl >=? 6 then (wrap32 (l1d + Z.shiftl 8 (vl - 6)), l2) else acc
  else if hi =? 7 then
    if vl >=? 8 then (l1d, wrap32 (l2 + Z.shiftl 64 (vl - 8))) else acc
  else acc.

(** Lines 124-147: registers with the top bit set are dropped, then bytes
    1..15 are summed up. *)
Definition cache_scan (cpuFamily : Z) (regs : list Z) (acc : Z * Z) : Z * Z :=
  let regs := map (fun r => if sint32 r <? 0 then 0 else r) regs in
  fold_left (fun acc k => cache_entry cpuFamily (cpuid2info regs k) acc)
            (map Z.of_nat (seq 1 15)) acc.

(** Lines 117-153: the C++ code after the block. *)
Definition cpuInfo_pack (v : AsmVars) : Z :=
  let info := a_info_lo v in
  let info := if has_flag info CPU_SSE then Z.lor info CPU_MMXEX else info in
  let cpuFamily := Z.land (Z.shiftr (a_cpuid1regEAX v) 8) 15 in
  let cpuFamily :=
    if cpuFamily =? 15 then Z.land (Z.shiftr (a_cpuid1regEAX v) 20) 15
    else cpuFamily in
  let info := Z.lor info (Z.shiftl (Z.land cpuFamily CPU_FAMILY) CPU_FAMILY_SHIFT) in
  let info :=
    Z.lor info
      (Z.shiftl (Z.land (a_amdFeatures v)
                   (Z.lor CPU_AMD_L (Z.lor CPU_3DNOW_L CPU_3DNOWEX_L))) 32) in
  let '(l1d, l2) :=
    if (a_amdFeatures v =? 0) && (sint32 (a_maxArgForCpuId v) >=? 2)
    then cache_scan cpuFamily (a_cpuid2regs v) (a_l1d v, a_l2 v)
    else (a_l1d v, a_l2 v) in
  let l1d := l1d / (CPU_L1DATASIZE_UNIT / 1024) in
  let l2 := l2 / (CPU_L2SIZE_UNIT / 1024) in
  let info := Z.lor info (Z.shiftl (Z.land l1d CPU_L1DATASIZE) CPU_L1DATASIZE_SHIFT) in
  let info := Z.lor info (Z.shiftl (Z.land l2 CPU_L2SIZE) CPU_L2SIZE_SHIFT) in
  info.

(** The function-level statics of [_cpuInfo]. *)
Record ProbeStatics : Type := mk_statics
  { cpuInfoCalculated : bool;
    cpuInfoLast : Z }.

Definition statics_init : ProbeStatics := mk_statics false 0.

(** What a call of [_cpuInfo] did. *)
Inductive ProbePath : Type :=
| ProbeCached
| ProbeTrapped
| ProbeDetected.

(** [_cpuInfo]: the descriptor returned, the statics after the call, and
    the path taken.  No path raises: the [catch (...)] returns 0. *)
Definition _cpuInfo (h : Host) (st : ProbeStatics) : Z * ProbeStatics * ProbePath :=
  if cpuInfoCalculated st then (cpuInfoLast st, st, ProbeCached)
  else
    match cpuInfo_asm h with
    | None => (0, mk_statics true 0, ProbeTrapped)
    | Some v =>
      let info := cpuInfo_pack v in
      (info, mk_statics true info, ProbeDetected)
    end.

(** States of the statics a process can be in: any number of calls after
    program start. *)
Inductive probe_reachable (h : Host) : ProbeStatics -> Prop :=
| reach_init : probe_reachable h statics_init
| reach_call : forall st,
    probe_reachable h st ->
    probe_reachable h (snd (fst (_cpuInfo h st))).

(** ** Memory *)

Definition mem : Type := Z -> byte.

(** Byte store and the little-endian typed accesses of [n] bytes. *)
Definition storeb (m : mem) (p : Z) (v : byte) : mem :=
  fun x => if x =? p then v else m x.

Fixpoint rd (n : nat) (m : mem) (p : Z) : Z :=
  match n with
  | O => 0
  | S k => byte.unsigned (m p) + 256 * rd k m (p + 1)
  end.

Fixpoint wr (n : nat) (m : mem) (p v : Z) : mem :=
  match n with
  | O => m
  | S k => wr k (storeb m p (byte.of_Z v)) (p + 1) (v / 256)
  end.

(** ** Element types of the entry points *)

Inductive CType : Type :=
| jbyte | jshort | jint | jlong | jchar | jfloat | jdouble | jobject
| uint8 | uint16.

(** [sizeof(TYPE)] on the 32-bit target. *)
Definition sizeof_nat (T : CType) : nat :=
  match T with
  | jbyte | uint8 => 1
  | jshort | jchar | uint16 => 2
  | jint | jfloat | jobject => 4
  | jlong | jdouble => 8
  end%nat.

Definition sizeof (T : CType) : Z := Z.of_nat (sizeof_nat T).

(** ** Execution paths *)

Inductive Tier : Type := SSE | CMOV | MMXEX | MMX.

Inductive StoreKind : Type :=
| NonTemporal        (* movntps *)
| Aligned            (* movaps *)
| Unaligned.         (* movups, movq, fstp *)

Inductive ScalarPrim : Type := Memmove | Memset | CLoop.

(** The branch a call took: the vector tier and the instruction of its
    body loop ([None] when the body loop ran zero times), or the scalar
    fallback, or the early exit with [OutOfMemoryError]. *)
Inductive Path : Type :=
| OutOfMemory
| Vector (t : Tier) (body : option StoreKind)
| Scalar (p : ScalarPrim).

(** ** ArraysMacro.h: loop splitting *)

(** [LOOP_PREFIX(UNLOOPING)]: [(len, lenEnd)].  [n] is
    [UNLOOPING/sizeof( *pa)]; it has type [size_t], so both operations are
    done on the unsigned view of [len]. *)
Definition LOOP_PREFIX (n Len : Z) : Z * Z :=
  let len := Len in
  let lenEnd := sint32 (Z.land (wrap32 len) (n - 1)) in
  let len := sint32 (wrap32 len / n) in
  (len, lenEnd).

(** [LOOP_PREFIX_ALIGNED(UNLOOPING)]: [(lenStart, len, lenEnd)] for the
    pointer [pa] to elements of [size] bytes. *)
Definition LOOP_PREFIX_ALIGNED (UNLOOPING size pa Len : Z) : Z * Z * Z :=
  let len := Len in
  let disp := Z.land pa 31 in
  let lenStart := 0 in
  let '(lenStart, len) :=
    if negb (disp =? 0) && (Z.land disp (size - 1) =? 0) then
      let lenStart := (32 - disp) / size in
      if len <? lenStart then (0, len) else (lenStart, sint32 (len - lenStart))
    else (lenStart, len) in
  let lenEnd := sint32 (Z.land (wrap32 len) (UNLOOPING / size - 1)) in
  let len := sint32 (wrap32 len / (UNLOOPING / size)) in
  if len >? 0 then (lenStart, len - 1, sint32 (lenEnd + UNLOOPING / size))
  else (lenStart, len, lenEnd).

(** The L2 field of the descriptor in bytes, with the 64KB floor
    (Arrays_fill.h lines 27-28, ArraysNative.cpp lines 97-98). *)
Definition cacheSize (CpuInfo : Z) : Z :=
  let cacheSize :=
    sint32 (Z.land (Z.shiftr CpuInfo CPU_L2SIZE_SHIFT) CPU_L2SIZE) * CPU_L2SIZE_UNIT in
  if cacheSize <? 65536 then 65536 else cacheSize.

(** ** String instructions and block moves *)

(** [rep movsb] with the direction flag clear: [ecx] single-byte moves from
    [src] at [esi] into [m] at [edi], lowest address first. *)
Fixpoint rep_movsb_from (src : mem) (ecx : nat) (esi edi : Z) (m : mem) : mem :=
  match ecx with
  | O => m
  | S k => rep_movsb_from src k (esi + 1) (edi + 1) (storeb m edi (src esi))
  end.

(** The same inside one memory: every move reads what earlier moves left. *)
Fixpoint rep_movsb (ecx : nat) (esi edi : Z) (m : mem) : mem :=
  match ecx with
  | O => m
  | S k => rep_movsb k (esi + 1) (edi + 1) (storeb m edi (m esi))
  end.

(** [memmove(dst, src, n)] of the C library: the [n] bytes at [src] as they
    were before the call end up at [dst]. *)
Definition memmove (m : mem) (dst src n : Z) : mem :=
  fun x => if (dst <=? x) && (x <? dst + n) then m (src + (x - dst)) else m x.

(** [memset(p, c, n)] of the C library. *)
Definition memset (m : mem) (p c n : Z) : mem :=
  fun x => if (p <=? x) && (x <? p + n) then byte.of_Z c else m x.

(** A 16-byte store; [movntps], [movaps] and [movups] differ in cache use
    and alignment demands, not in what they leave in memory. *)
Definition store16 (k : StoreKind) (m : mem) (p v : Z) : mem := wr 16 m p v.

(** A counted loop of [n] turns: the assembly [L: body; dec ecx; jnz L]
    entered with [ecx = n > 0], or the C [for (; n>0; n--, ...) body].
    [body] maps the state before a turn to the state after. *)
Fixpoint loop_n {S : Type} (n : nat) (body : S -> S) (s : S) : S :=
  match n with
  | O => s
  | S k => loop_n k body (body s)
  end.

(** ** Arrays_fill.h *)

(** Lines 33-34: the 32-byte pattern buffer, a local of its own. *)
Definition filler_init (size : nat) (V : Z) : mem :=
  fold_left (fun f j => wr size f (Z.of_nat size * Z.of_nat j) V)
            (seq 0 (32 / size)) (fun _ => Byte.x00).

(** Lines 65-76 and 78-89: one turn stores [xmm0] eight times. *)
Definition fill_block128 (k : StoreKind) (xmm0 : Z) (s : Z * mem) : Z * mem :=
  let '(edi, m) := s in
  let m := store16 k m edi xmm0 in
  let m := store16 k m (edi + 16) xmm0 in
  let m := store16 k m (edi + 32) xmm0 in
  let m := store16 k m (edi + 48) xmm0 in
  let m := store16 k m (edi + 64) xmm0 in
  let m := store16 k m (edi + 80) xmm0 in
  let m := store16 k m (edi + 96) xmm0 in
  let m := store16 k m (edi + 112) xmm0 in
  (edi + 128, m).

(** Lines 94-98. *)
Definition fill_block16 (xmm0 : Z) (s : Z * mem) : Z * mem :=
  let '(edi, m) := s in (edi + 16, store16 Aligned m edi xmm0).

(** Lines 48-106: the [__asm] block.  [esi] addresses the local [filler]
    (offset 0 is its first byte), [edi] the array. *)
Definition fill_asm (filler : mem) (cacheSizeIn128ByteBlocks : Z)
    (pa lenStart fillerDisp len lenEnd : Z) (m : mem) : option StoreKind * mem :=
  let edi := pa in
  let ecx := wrap32 lenStart in
  let m := rep_movsb_from filler (Z.to_nat ecx) 0 edi m in
  let edi := edi + ecx in
  let esi := fillerDisp in
  let xmm0 := rd 16 filler esi in
  let ecx := Z.shiftr (wrap32 len) 3 in
  let '(body, (edi, m)) :=
    if ecx =? 0 then (None, (edi, m))
    else if ecx <? cacheSizeIn128ByteBlocks
    then (Some Aligned, loop_n (Z.to_nat ecx) (fill_block128 Aligned xmm0) (edi, m))
    else (Some NonTemporal, loop_n (Z.to_nat ecx) (fill_block128 NonTemporal xmm0) (edi, m)) in
  let ecx := Z.land (wrap32 len) 7 in
  let '(edi, m) :=
    if ecx =? 0 then (edi, m)
    else loop_n (Z.to_nat ecx) (fill_block16 xmm0) (edi, m) in
  let ecx := wrap32 lenEnd in
  let m := rep_movsb_from filler (Z.to_nat ecx) esi edi m in
  (body, m).

(** Lines 26-106: the SSE branch. *)
Definition fill_sse (T : CType) (CpuInfo : Z) (m : mem) (a BeginIndex Len V : Z)
  : Path * mem :=
  let cacheSizeIn128ByteBlocks := cacheSize CpuInfo / 128 in
  let pa := a + sizeof T * BeginIndex in
  let filler := filler_init (sizeof_nat T) V in
  let fillerDisp := 0 in
  let len := sint32 (Len * sizeof T) in
  let disp := Z.land pa 31 in
  let lenStart := 0 in
  let '(lenStart, fillerDisp, len) :=
    if negb (disp =? 0) then
      let lenStart := 32 - disp in
      (lenStart, Z.land lenStart 15, sint32 (len - lenStart))
    else (lenStart, fillerDisp, len) in
  let lenEnd := Z.land len 15 in
  let len := Z.quot len 16 in
  let '(body, m) :=
    fill_asm filler cacheSizeIn128ByteBlocks pa lenStart fillerDisp len lenEnd m in
  (Vector SSE body, m).

(** Lines 115-118: one turn of the unrolled C loop. *)
Definition fill_block8 (size : nat) (V : Z) (s : Z * mem) : Z * mem :=
  let '(pa, m) := s in
  let sz := Z.of_nat size in
  let m := wr size m pa V in
  let m := wr size m (pa + sz) V in
  let m := wr size m (pa + 2 * sz) V in
  let m := wr size m (pa + 3 * sz) V in
  let m := wr size m (pa + 4 * sz) V in
  let m := wr size m (pa + 5 * sz) V in
  let m := wr size m (pa + 6 * sz) V in
  let m := wr size m (pa + 7 * sz) V in
  (pa + 8 * sz, m).

Definition fill_tail1 (size : nat) (V : Z) (s : Z * mem) : Z * mem :=
  let '(pa, m) := s in (pa + Z.of_nat size, wr size m pa V).

(** Lines 109-121: the fallback. *)
Definition fill_scalar (T : CType) (m : mem) (a BeginIndex Len V : Z) : Path * mem :=
  let pa := a + sizeof T * BeginIndex in
  if sizeof T =? 1 then (Scalar Memset, memset m pa V (wrap32 Len))
  else
    let '(len, lenEnd) := LOOP_PREFIX 8 Len in
    let s := loop_n (Z.to_nat len) (fill_block8 (sizeof_nat T) V) (pa, m) in
    let s := loop_n (Z.to_nat lenEnd) (fill_tail1 (sizeof_nat T) V) s in
    (Scalar CLoop, snd s).

(** [Java_net_algart_array_ArraysNative_fill] for element type [T]:
    [SINGLE_PREFIX], Arrays_fill.h, [SINGLE_POSTFIX].  [a] is the address
    [GetPrimitiveArrayCritical] returned for the array. *)
Definition fill (T : CType) (CpuInfo : Z) (m : mem) (a BeginIndex EndIndex V : Z)
  : Path * mem :=
  let Len := sint32 (EndIndex - BeginIndex) in
  if a =? 0 then (OutOfMemory, m)
  else if has_flag CpuInfo CPU_SSE && (wrap32 (Len * sizeof T) >? 32)
  then fill_sse T CpuInfo m a BeginIndex Len V
  else fill_scalar T m a BeginIndex Len V.

(** ** ArraysNative.cpp: [copyBytes] *)

(** Lines 119-133, 136-150, 152-166: one turn moves 64 bytes through
    [xmm0]..[xmm3]; the three loops differ in the move instructions. *)
Definition copy_block64 (k : StoreKind) (s : Z * Z * mem) : Z * Z * mem :=
  let '(esi, edi, m) := s in
  let xmm0 := rd 16 m esi in
  let xmm1 := rd 16 m (esi + 16) in
  let xmm2 := rd 16 m (esi + 32) in
  let xmm3 := rd 16 m (esi + 48) in
  let m := store16 k m edi xmm0 in
  let m := store16 k m (edi + 16) xmm1 in
  let m := store16 k m (edi + 32) xmm2 in
  let m := store16 k m (edi + 48) xmm3 in
  (esi + 64, edi + 64, m).

(** Lines 103-173: the [__asm] block. *)
Definition copy_asm (nonCachedCopyMinLen pb pa lenStart len lenEnd : Z) (m : mem)
  : option StoreKind * mem :=
  let esi := pb in
  let edi := pa in
  let ecx := wrap32 lenStart in
  let m := rep_movsb (Z.to_nat ecx) esi edi m in
  let esi := esi + ecx in
  let edi := edi + ecx in
  let ecx := wrap32 len in
  let '(body, (esi, edi, m)) :=
    if ecx =? 0 then (None, (esi, edi, m))
    else if negb (Z.land esi 0xF =? 0) || negb (Z.land edi 0xF =? 0)
    then (Some Unaligned, loop_n (Z.to_nat ecx) (copy_block64 Unaligned) (esi, edi, m))
    else if ecx <? nonCachedCopyMinLen
    then (Some Aligned, loop_n (Z.to_nat ecx) (copy_block64 Aligned) (esi, edi, m))
    else (Some NonTemporal, loop_n (Z.to_nat ecx) (copy_block64 NonTemporal) (esi, edi, m)) in
  let ecx := wrap32 lenEnd in
  let m := rep_movsb (Z.to_nat ecx) esi edi m in
  (body, m).

(** Lines 96-173: the SSE branch.  [pb] is the source, [pa] the
    destination. *)
Definition copyBytes_sse (CpuInfo : Z) (m : mem) (a Aofs b Bofs Len : Z) : Path * mem :=
  let cacheSizeIn64ByteBlocks := cacheSize CpuInfo / 64 in
  let nonCachedCopyMinLen := cacheSizeIn64ByteBlocks / 2 in
  let pb := a + Aofs in
  let pa := b + Bofs in
  let '(lenStart, len, lenEnd) := LOOP_PREFIX_ALIGNED 64 1 pa Len in
  let '(body, m) := copy_asm nonCachedCopyMinLen pb pa lenStart len lenEnd m in
  (Vector SSE body, m).

(** [Java_net_algart_array_ArraysNative_copyBytes]: [PAIR_PREFIX], lines
    95-178, [PAIR_POSTFIX].  [a], [b] are the addresses of the arrays [A]
    (source) and [B] (destination); they are equal when the caller passes
    one array twice. *)
Definition copyBytes (CpuInfo : Z) (m : mem) (a Aofs b Bofs Len : Z) : Path * mem :=
  if (a =? 0) || (b =? 0) then (OutOfMemory, m)
  else if has_flag CpuInfo CPU_SSE
  then copyBytes_sse CpuInfo m a Aofs b Bofs Len
  else (Scalar Memmove, memmove m (b + Bofs) (a + Aofs) (wrap32 Len)).

(** ** Element comparison *)

(** Two's-complement reading of an [n]-byte pattern. *)
Definition signed (n : nat) (v : Z) : Z :=
  if v <? 2 ^ (8 * Z.of_nat n - 1) then v else v - 2 ^ (8 * Z.of_nat n).

(** IEEE 754 reading of a bit pattern with [mbits] fraction bits and
    [ebits] exponent bits. *)
Definition sf_of_bits (mbits ebits : Z) (x : Z) : spec_float :=
  let mant := x mod 2 ^ mbits in
  let expo := (x / 2 ^ mbits) mod 2 ^ ebits in
  let sign := Z.testbit x (mbits + ebits) in
  let bias := 2 ^ (ebits - 1) - 1 in
  if expo =? 2 ^ ebits - 1 then
    if mant =? 0 then S754_infinity sign else S754_nan
  else if expo =? 0 then
    if mant =? 0 then S754_zero sign
    else S754_finite sign (Z.to_pos mant) (1 - bias - mbits)
  else S754_finite sign (Z.to_pos (mant + 2 ^ mbits)) (expo - bias - mbits).

Definition sf32 : Z -> spec_float := sf_of_bits 23 8.
Definition sf64 : Z -> spec_float := sf_of_bits 52 11.

(** The C expression [x < y] on two values of type [T], each given by its
    bit pattern. *)
Definition c_lt (T : CType) (x y : Z) : bool :=
  match T with
  | jbyte | jshort | jint | jlong =>
      signed (sizeof_nat T) x <? signed (sizeof_nat T) y
  | jchar | uint8 | uint16 | jobject => x <? y
  | jfloat => SFltb (sf32 x) (sf32 y)
  | jdouble => SFltb (sf64 x) (sf64 y)
  end.

(** The macro [CMP]: [>] in the min entry points, [<] in the max ones. *)
Inductive Cmp : Type := CmpGt | CmpLt.

Definition c_cmp (T : CType) (c : Cmp) (x y : Z) : bool :=
  match c with
  | CmpGt => c_lt T y x
  | CmpLt => c_lt T x y
  end.

(** [if (pa[k] CMP pb[k]) pa[k]= pb[k];] *)
Definition cmp_store (T : CType) (c : Cmp) (pa pb : Z) (m : mem) (k : Z) : mem :=
  let n := sizeof_nat T in
  let qa := pa + sizeof T * k in
  let qb := pb + sizeof T * k in
  if c_cmp T c (rd n m qa) (rd n m qb) then wr n m qa (rd n m qb) else m.

(** [for (; n>0; n--,pa++,pb++) if ( *pa CMP *pb) *pa= *pb;] *)
Definition cmp_step (T : CType) (c : Cmp) (s : Z * Z * mem) : Z * Z * mem :=
  let '(pa, pb, m) := s in
  (pa + sizeof T, pb + sizeof T, cmp_store T c pa pb m 0).

(** ArraysMacro.h lines 113-130 and 136-153: the 32 statements of one
    turn of [MINBODY_LOOP] / [MAXBODY_LOOP], in order. *)
Definition body32 (T : CType) (c : Cmp) (s : Z * Z * mem) : Z * Z * mem :=
  let '(pa, pb, m) := s in
  (pa + 32 * sizeof T, pb + 32 * sizeof T,
   fold_left (cmp_store T c pa pb) (map Z.of_nat (seq 0 32)) m).

(** [MINBODY_LOOP(TYPE)] ([c = CmpGt]) and [MAXBODY_LOOP(TYPE)]
    ([c = CmpLt]). *)
Definition BODY_LOOP (T : CType) (c : Cmp) (m : mem) (a Aofs b Bofs Len : Z) : mem :=
  let pa := a + sizeof T * Aofs in
  let pb := b + sizeof T * Bofs in
  let '(len, lenEnd) := LOOP_PREFIX 32 Len in
  let s := loop_n (Z.to_nat len) (body32 T c) (pa, pb, m) in
  let s := loop_n (Z.to_nat lenEnd) (cmp_step T c) s in
  snd s.

(** ** Packed-integer and packed-float instructions *)

(** Lane [i] of [w] bytes of a register. *)
Definition lane (w : nat) (x : Z) (i : nat) : Z :=
  (x / 2 ^ (8 * Z.of_nat w * Z.of_nat i)) mod 2 ^ (8 * Z.of_nat w).

Fixpoint pack (w : nat) (l : list Z) : Z :=
  match l with
  | [] => 0
  | v :: t => v mod 2 ^ (8 * Z.of_nat w) + 2 ^ (8 * Z.of_nat w) * pack w t
  end.

(** A lane-wise instruction on registers of [n] lanes of [w] bytes. *)
Definition lanewise (w n : nat) (f : Z -> Z -> Z) (dst src : Z) : Z :=
  pack w (map (fun i => f (lane w dst i) (lane w src i)) (seq 0 n)).

Definition pxor (dst src : Z) : Z := Z.lxor dst src.
Definition pand (dst src : Z) : Z := Z.land dst src.
Definition pandn (dst src : Z) : Z := Z.land (Z.lnot dst) src.
Definition por (dst src : Z) : Z := Z.lor dst src.

Inductive PcmpgtInsn : Type := pcmpgtb | pcmpgtw | pcmpgtd.

Definition pcmpgt_width (i : PcmpgtInsn) : nat :=
  match i with pcmpgtb => 1 | pcmpgtw => 2 | pcmpgtd => 4 end%nat.

(** [pcmpgtb/w/d mm,mm]: all ones in the lanes where [dst > src], signed. *)
Definition pcmpgt (i : PcmpgtInsn) (dst src : Z) : Z :=
  let w := pcmpgt_width i in
  lanewise w (8 / w)
    (fun d s => if signed w d >? signed w s then 2 ^ (8 * Z.of_nat w) - 1 else 0)
    dst src.

Inductive MmxexInsn : Type := pminub | pmaxub | pminsw | pmaxsw.

(** [pminub], [pmaxub] (unsigned bytes), [pminsw], [pmaxsw] (signed words)
    on 64-bit registers. *)
Definition mmxex (i : MmxexInsn) (dst src : Z) : Z :=
  match i with
  | pminub => lanewise 1 8 (fun d s => if d <? s then d else s) dst src
  | pmaxub => lanewise 1 8 (fun d s => if d >? s then d else s) dst src
  | pminsw => lanewise 2 4 (fun d s => if signed 2 d <? signed 2 s then d else s) dst src
  | pmaxsw => lanewise 2 4 (fun d s => if signed 2 d >? signed 2 s then d else s) dst src
  end.

Inductive SseInsn : Type := minps | maxps.

(** One lane of [minps] / [maxps]: the second operand is returned unless
    the first is strictly less (greater); so it is returned when an operand
    is a NaN or both are zeros. *)
Definition ps_lane (i : SseInsn) (d s : Z) : Z :=
  match i with
  | minps => if SFltb (sf32 d) (sf32 s) then d else s
  | maxps => if SFltb (sf32 s) (sf32 d) then d else s
  end.

(** [minps], [maxps] on four single-precision lanes. *)
Definition sse_ps (i : SseInsn) (dst src : Z) : Z := lanewise 4 4 (ps_lane i) dst src.

Inductive FcmovInsn : Type := fcmovnb | fcmovb.

(** [fucomi st(0),st(1)]: the carry flag is set when [st(0) < st(1)] and
    when the operands are unordered. *)
Definition fucomi_CF (st0 st1 : Z) : bool :=
  match SFcompare (sf64 st0) (sf64 st1) with
  | Some Lt | None => true
  | _ => false
  end.

(** [fld qword ptr]: the double that arrives on the x87 stack, as the 64
    bits [fstp qword ptr] stores for it.  A signalling NaN is loaded as its
    quiet form, with the top fraction bit set; a quiet NaN has that bit
    already, and every other double is loaded and stored exactly. *)
Definition fld_qword (x : Z) : Z :=
  match sf64 x with
  | S754_nan => Z.lor x (2 ^ 51)
  | _ => x
  end.

(** [FCMOV st(0),st(1)]: the new [st(0)]. *)
Definition fcmov (i : FcmovInsn) (CF : bool) (st0 st1 : Z) : Z :=
  match i with
  | fcmovnb => if CF then st0 else st1
  | fcmovb => if CF then st1 else st0
  end.

(** ** Arrays_minmax_int.h *)

Inductive MmxReg : Type := mm0 | mm1.

(** The macros an entry point defines before it includes
    Arrays_minmax_int.h.  ([MINMAX_SSE2] is defined by no entry point, so
    the branch under [#ifdef MINMAX_SSE2] is never compiled.) *)
Record IntKernel : Type := mk_int_kernel
  { TYPE : CType;
    CMP : Cmp;
    BIT_MASK_SSE : option Z;
    MINMAX_MMXEX : option MmxexInsn;
    BIT_MASK_MMX : option Z;
    PCMPGT : PcmpgtInsn;
    MM0_FOR_MIN : MmxReg;
    MM1_FOR_MIN : MmxReg }.

Definition mmreg (r : MmxReg) (v0 v1 : Z) : Z :=
  match r with mm0 => v0 | mm1 => v1 end.

(** Lines 146-159 (and 161-174 with [o = 16]): two quadwords with the
    bias mask in [mm7]. *)
Definition mmxex_masked_pair (op : MmxexInsn) (mm7 eax edx o : Z) (m : mem) : mem :=
  let v0 := rd 8 m (eax + o) in
  let v0 := pxor v0 mm7 in
  let v1 := rd 8 m (eax + o + 8) in
  let v1 := pxor v1 mm7 in
  let v2 := rd 8 m (edx + o) in
  let v2 := pxor v2 mm7 in
  let v3 := rd 8 m (edx + o + 8) in
  let v3 := pxor v3 mm7 in
  let v0 := mmxex op v0 v2 in
  let v1 := mmxex op v1 v3 in
  let v0 := pxor v0 mm7 in
  let v1 := pxor v1 mm7 in
  let m := wr 8 m (eax + o) v0 in
  let m := wr 8 m (eax + o + 8) v1 in
  m.

(** Lines 144-178: one turn of [_LoopSSE] under [BIT_MASK_SSE]. *)
Definition mmxex_masked_block (op : MmxexInsn) (mm7 : Z) (s : Z * Z * mem) : Z * Z * mem :=
  let '(eax, edx, m) := s in
  let m := mmxex_masked_pair op mm7 eax edx 0 m in
  let m := mmxex_masked_pair op mm7 eax edx 16 m in
  (eax + 32, edx + 32, m).

(** Lines 192-224: one turn of [_LoopSSE] without a mask: eight loads,
    eight operations with a memory operand, eight stores. *)
Definition mmxex_plain_block (op : MmxexInsn) (s : Z * Z * mem) : Z * Z * mem :=
  let '(eax, edx, m) := s in
  let v0 := rd 8 m eax in
  let v1 := rd 8 m (eax + 8) in
  let v2 := rd 8 m (eax + 16) in
  let v3 := rd 8 m (eax + 24) in
  let v4 := rd 8 m (eax + 32) in
  let v5 := rd 8 m (eax + 40) in
  let v6 := rd 8 m (eax + 48) in
  let v7 := rd 8 m (eax + 56) in
  let v0 := mmxex op v0 (rd 8 m edx) in
  let v1 := mmxex op v1 (rd 8 m (edx + 8)) in
  let v2 := mmxex op v2 (rd 8 m (edx + 16)) in
  let v3 := mmxex op v3 (rd 8 m (edx + 24)) in
  let v4 := mmxex op v4 (rd 8 m (edx + 32)) in
  let v5 := mmxex op v5 (rd 8 m (edx + 40)) in
  let v6 := mmxex op v6 (rd 8 m (edx + 48)) in
  let v7 := mmxex op v7 (rd 8 m (edx + 56)) in
  let m := wr 8 m eax v0 in
  let m := wr 8 m (eax + 8) v1 in
  let m := wr 8 m (eax + 16) v2 in
  let m := wr 8 m (eax + 24) v3 in
  let m := wr 8 m (eax + 32) v4 in
  let m := wr 8 m (eax + 40) v5 in
  let m := wr 8 m (eax + 48) v6 in
  let m := wr 8 m (eax + 56) v7 in
  (eax + 64, edx + 64, m).

(** Lines 257-264 and 303-307: the compare-and-select idiom on the
    quadwords [mm0] (from [eax]) and [mm1] (from [edx]); the result is
    left in [mm1].  Under [BIT_MASK_MMX] both compared operands are biased
    first. *)
Definition mmx_select (K : IntKernel) (v0 v1 : Z) : Z :=
  let v2 := mmreg (MM0_FOR_MIN K) v0 v1 in
  let v2 :=
    match BIT_MASK_MMX K with
    | Some mm7 =>
        let v2 := pxor v2 mm7 in
        let v3 := mmreg (MM1_FOR_MIN K) v0 v1 in
        let v3 := pxor v3 mm7 in
        pcmpgt (PCMPGT K) v2 v3
    | None => pcmpgt (PCMPGT K) v2 (mmreg (MM1_FOR_MIN K) v0 v1)
    end in
  let v1 := pand v1 v2 in
  let v2 := pandn v2 v0 in
  let v1 := por v1 v2 in
  v1.

(** Lines 255-265 and 301-308: one quadword of [_LoopMMX]. *)
Definition mmx_quad (K : IntKernel) (eax edx o : Z) (m : mem) : mem :=
  let v0 := rd 8 m (eax + o) in
  let v1 := rd 8 m (edx + o) in
  let v1 := mmx_select K v0 v1 in
  wr 8 m (eax + o) v1.

(** Lines 254-337: one turn of [_LoopMMX]. *)
Definition mmx_block (K : IntKernel) (s : Z * Z * mem) : Z * Z * mem :=
  let '(eax, edx, m) := s in
  let m := mmx_quad K eax edx 0 m in
  let m := mmx_quad K eax edx 8 m in
  let m := mmx_quad K eax edx 16 m in
  let m := mmx_quad K eax edx 24 m in
  (eax + 32, edx + 32, m).

(** The shape shared by the vector branches: [LOOP_PREFIX_ALIGNED], the
    scalar head, the assembly body, the scalar tail. *)
Definition vector_branch (T : CType) (c : Cmp) (UNLOOPING : Z)
    (block : Z * Z * mem -> Z * Z * mem)
    (m : mem) (a Aofs b Bofs Len : Z) : option StoreKind * mem :=
  let pa := a + sizeof T * Aofs in
  let pb := b + sizeof T * Bofs in
  let '(lenStart, len, lenEnd) := LOOP_PREFIX_ALIGNED UNLOOPING (sizeof T) pa Len in
  let s := loop_n (Z.to_nat lenStart) (cmp_step T c) (pa, pb, m) in
  let ecx := wrap32 len in
  let s := loop_n (Z.to_nat ecx) block s in
  let s := loop_n (Z.to_nat lenEnd) (cmp_step T c) s in
  (if ecx =? 0 then None else Some Unaligned, snd s).

Definition CLOOP (K : IntKernel) := BODY_LOOP (TYPE K) (CMP K).

(** Arrays_minmax_int.h as included with the macros [K]. *)
Definition minmax_int (K : IntKernel) (CpuInfo : Z) (m : mem) (a Aofs b Bofs Len : Z)
  : Path * mem :=
  match MINMAX_MMXEX K with
  | Some op =>
    if has_flag CpuInfo CPU_MMXEX then
      let '(body, m) :=
        match BIT_MASK_SSE K with
        | Some bitMask =>
            vector_branch (TYPE K) (CMP K) 32 (mmxex_masked_block op bitMask)
              m a Aofs b Bofs Len
        | None =>
            vector_branch (TYPE K) (CMP K) 64 (mmxex_plain_block op)
              m a Aofs b Bofs Len
        end in
      (Vector MMXEX body, m)
    else if has_flag CpuInfo CPU_MMX then
      let '(body, m) :=
        vector_branch (TYPE K) (CMP K) 32 (mmx_block K) m a Aofs b Bofs Len in
      (Vector MMX body, m)
    else (Scalar CLoop, CLOOP K m a Aofs b Bofs Len)
  | None =>
    if has_flag CpuInfo CPU_MMX then
      let '(body, m) :=
        vector_branch (TYPE K) (CMP K) 32 (mmx_block K) m a Aofs b Bofs Len in
      (Vector MMX body, m)
    else (Scalar CLoop, CLOOP K m a Aofs b Bofs Len)
  end.

(** ** Arrays_minmax_float.h *)

(** Lines 39-59: one turn of [_LoopAligned]. *)
Definition sse_block_aligned (op : SseInsn) (s : Z * Z * mem) : Z * Z * mem :=
  let '(eax, edx, m) := s in
  let xmm0 := rd 16 m eax in
  let xmm1 := rd 16 m (eax + 16) in
  let xmm2 := rd 16 m (eax + 32) in
  let xmm3 := rd 16 m (eax + 48) in
  let xmm0 := sse_ps op xmm0 (rd 16 m edx) in
  let xmm1 := sse_ps op xmm1 (rd 16 m (edx + 16)) in
  let xmm2 := sse_ps op xmm2 (rd 16 m (edx + 32)) in
  let xmm3 := sse_ps op xmm3 (rd 16 m (edx + 48)) in
  let m := store16 Aligned m eax xmm0 in
  let m := store16 Aligned m (eax + 16) xmm1 in
  let m := store16 Aligned m (eax + 32) xmm2 in
  let m := store16 Aligned m (eax + 48) xmm3 in
  (eax + 64, edx + 64, m).

(** Lines 62-86: one turn of [_Loop]. *)
Definition sse_block_unaligned (op : SseInsn) (s : Z * Z * mem) : Z * Z * mem :=
  let '(eax, edx, m) := s in
  let xmm0 := rd 16 m eax in
  let xmm1 := rd 16 m (eax + 16) in
  let xmm2 := rd 16 m (eax + 32) in
  let xmm3 := rd 16 m (eax + 48) in
  let xmm4 := rd 16 m edx in
  let xmm5 := rd 16 m (edx + 16) in
  let xmm6 := rd 16 m (edx + 32) in
  let xmm7 := rd 16 m (edx + 48) in
  let xmm0 := sse_ps op xmm0 xmm4 in
  let xmm1 := sse_ps op xmm1 xmm5 in
  let xmm2 := sse_ps op xmm2 xmm6 in
  let xmm3 := sse_ps op xmm3 xmm7 in
  let m := store16 Unaligned m eax xmm0 in
  let m := store16 Unaligned m (eax + 16) xmm1 in
  let m := store16 Unaligned m (eax + 32) xmm2 in
  let m := store16 Unaligned m (eax + 48) xmm3 in
  (eax + 64, edx + 64, m).

(** Arrays_minmax_float.h as included with [TYPE = jfloat], [CMP = c],
    [MINMAX_SSE = op]. *)
Definition minmax_float (c : Cmp) (op : SseInsn) (CpuInfo : Z) (m : mem)
    (a Aofs b Bofs Len : Z) : Path * mem :=
  if has_flag CpuInfo CPU_SSE then
    let pa := a + sizeof jfloat * Aofs in
    let pb := b + sizeof jfloat * Bofs in
    let '(lenStart, len, lenEnd) := LOOP_PREFIX_ALIGNED 64 (sizeof jfloat) pa Len in
    let s := loop_n (Z.to_nat lenStart) (cmp_step jfloat c) (pa, pb, m) in
    let '(eax, edx, _) := s in
    let ecx := wrap32 len in
    let '(body, s) :=
      if ecx =? 0 then (None, s)
      else if negb (Z.land eax 0xF =? 0) || negb (Z.land edx 0xF =? 0)
      then (Some Unaligned, loop_n (Z.to_nat ecx) (sse_block_unaligned op) s)
      else (Some Aligned, loop_n (Z.to_nat ecx) (sse_block_aligned op) s) in
    let s := loop_n (Z.to_nat lenEnd) (cmp_step jfloat c) s in
    (Vector SSE body, snd s)
  else (Scalar CLoop, BODY_LOOP jfloat c m a Aofs b Bofs Len).

(** ** Arrays_minmax_double.h *)

(** Lines 36-41: [fld [eax+o]; fld [edx+o]; fucomi; FCMOV; fstp [eax+o];
    fstp st(0)].  The element is stored back in every turn, from the
    stack: a signalling NaN of either operand that is kept ends as its
    quiet form. *)
Definition fcmov_elem (op : FcmovInsn) (eax edx o : Z) (m : mem) : mem :=
  let st0 := fld_qword (rd 8 m (eax + o)) in
  let st1 := st0 in
  let st0 := fld_qword (rd 8 m (edx + o)) in
  let CF := fucomi_CF st0 st1 in
  let st0 := fcmov op CF st0 st1 in
  wr 8 m (eax + o) st0.

(** Lines 35-87: one turn of [_Loop]. *)
Definition fcmov_block (op : FcmovInsn) (s : Z * Z * mem) : Z * Z * mem :=
  let '(eax, edx, m) := s in
  let m := fcmov_elem op eax edx 0 m in
  let m := fcmov_elem op eax edx 8 m in
  let m := fcmov_elem op eax edx 16 m in
  let m := fcmov_elem op eax edx 24 m in
  let m := fcmov_elem op eax edx 32 m in
  let m := fcmov_elem op eax edx 40 m in
  let m := fcmov_elem op eax edx 48 m in
  let m := fcmov_elem op eax edx 56 m in
  (eax + 64, edx + 64, m).

(** Arrays_minmax_double.h as included with [TYPE = jdouble], [CMP = c],
    [FCMOV = op]. *)
Definition minmax_double (c : Cmp) (op : FcmovInsn) (CpuInfo : Z) (m : mem)
    (a Aofs b Bofs Len : Z) : Path * mem :=
  if has_flag CpuInfo CPU_CMOV then
    let '(body, m) :=
      vector_branch jdouble c 64 (fcmov_block op) m a Aofs b Bofs Len in
    (Vector CMOV body, m)
  else (Scalar CLoop, BODY_LOOP jdouble c m a Aofs b Bofs Len).

(** ** ArraysNative.cpp: the min/max entry points *)

(** The macro sets of the entry points that include Arrays_minmax_int.h. *)
Definition K_min_jbyte : IntKernel :=
  mk_int_kernel jbyte CmpGt (Some 0x8080808080808080) (Some pminub) None pcmpgtb mm0 mm1.
Definition K_max_jbyte : IntKernel :=
  mk_int_kernel jbyte CmpLt (Some 0x8080808080808080) (Some pmaxub) None pcmpgtb mm1 mm0.
Definition K_min_jshort : IntKernel :=
  mk_int_kernel jshort CmpGt None (Some pminsw) None pcmpgtw mm0 mm1.
Definition K_max_jshort : IntKernel :=
  mk_int_kernel jshort CmpLt None (Some pmaxsw) None pcmpgtw mm1 mm0.
Definition K_min_jint : IntKernel :=
  mk_int_kernel jint CmpGt None None None pcmpgtd mm0 mm1.
Definition K_max_jint : IntKernel :=
  mk_int_kernel jint CmpLt None None None pcmpgtd mm1 mm0.
Definition K_minu_jshort : IntKernel :=
  mk_int_kernel uint16 CmpGt (Some 0x8000800080008000) (Some pminsw)
    (Some 0x8000800080008000) pcmpgtw mm0 mm1.
Definition K_maxu_jshort : IntKernel :=
  mk_int_kernel uint16 CmpLt (Some 0x8000800080008000) (Some pmaxsw)
    (Some 0x8000800080008000) pcmpgtw mm1 mm0.

(** Modelled from the spec: Arrays_pminub.h and Arrays_pmaxub.h, which the
    unsigned-byte [minu] / [maxu] entry points include, are not among the
    sources.  Following the spec, the kernel takes the first variant whose
    required flag is set in the descriptor, the scalar one otherwise, and
    leaves [choose(destination[i], source[i])] at every position.  The spec
    names no flag for this pair; the gate of the instructions [pminub] /
    [pmaxub] in Arrays_minmax_int.h ([CPU_MMXEX]) is taken, and the body
    loop of the vector variant is not told apart. *)
Definition minmax_ub (c : Cmp) (CpuInfo : Z) (m : mem) (a Aofs b Bofs Len : Z)
  : Path * mem :=
  let s := loop_n (Z.to_nat Len) (cmp_step uint8 c) (a + Aofs, b + Bofs, m) in
  (if has_flag CpuInfo CPU_MMXEX then Vector MMXEX None else Scalar CLoop, snd s).

(** The [min] / [max] / [minu] / [maxu] natives, by Java signature. *)
Inductive PairEntry : Type :=
| min_jbyte | max_jbyte                (* min__J_3BI_3BII, max__J_3BI_3BII *)
| min_ByteBuffer | max_ByteBuffer      (* min/max__JLjava_nio_ByteBuffer_2I..II *)
| min_jshort | max_jshort              (* min__J_3SI_3SII, max__J_3SI_3SII *)
| min_jint | max_jint                  (* min__J_3II_3III, max__J_3II_3III *)
| min_jlong | max_jlong                (* min__J_3JI_3JII, max__J_3JI_3JII *)
| min_jfloat | max_jfloat              (* min__J_3FI_3FII, max__J_3FI_3FII *)
| min_jdouble | max_jdouble            (* min__J_3DI_3DII, max__J_3DI_3DII *)
| minu_jbyte | maxu_jbyte              (* minu__J_3BI_3BII, maxu__J_3BI_3BII *)
| minu_ByteBuffer | maxu_ByteBuffer    (* minu/maxu__JLjava_nio_ByteBuffer_2I..II *)
| minu_jshort | maxu_jshort.           (* minu__J_3SI_3SII, maxu__J_3SI_3SII *)

(** The element type the entry point declares in its prefix macro. *)
Definition entry_type (e : PairEntry) : CType :=
  match e with
  | min_jbyte | max_jbyte | min_ByteBuffer | max_ByteBuffer => jbyte
  | min_jshort | max_jshort => jshort
  | min_jint | max_jint => jint
  | min_jlong | max_jlong => jlong
  | min_jfloat | max_jfloat => jfloat
  | min_jdouble | max_jdouble => jdouble
  | minu_jbyte | maxu_jbyte | minu_ByteBuffer | maxu_ByteBuffer => uint8
  | minu_jshort | maxu_jshort => uint16
  end.

(** [CMP] of the entry point: [>] for min, [<] for max. *)
Definition entry_cmp (e : PairEntry) : Cmp :=
  match e with
  | min_jbyte | min_ByteBuffer | min_jshort | min_jint | min_jlong
  | min_jfloat | min_jdouble | minu_jbyte | minu_ByteBuffer | minu_jshort => CmpGt
  | _ => CmpLt
  end.

(** The text between the prefix and the postfix macro. *)
Definition entry_body (e : PairEntry) (CpuInfo : Z) (m : mem) (a Aofs b Bofs Len : Z)
  : Path * mem :=
  match e with
  | min_jbyte | min_ByteBuffer => minmax_int K_min_jbyte CpuInfo m a Aofs b Bofs Len
  | max_jbyte | max_ByteBuffer => minmax_int K_max_jbyte CpuInfo m a Aofs b Bofs Len
  | min_jshort => minmax_int K_min_jshort CpuInfo m a Aofs b Bofs Len
  | max_jshort => minmax_int K_max_jshort CpuInfo m a Aofs b Bofs Len
  | min_jint => minmax_int K_min_jint CpuInfo m a Aofs b Bofs Len
  | max_jint => minmax_int K_max_jint CpuInfo m a Aofs b Bofs Len
  | min_jlong => (Scalar CLoop, BODY_LOOP jlong CmpGt m a Aofs b Bofs Len)
  | max_jlong => (Scalar CLoop, BODY_LOOP jlong CmpLt m a Aofs b Bofs Len)
  | min_jfloat => minmax_float CmpGt minps CpuInfo m a Aofs b Bofs Len
  | max_jfloat => minmax_float CmpLt maxps CpuInfo m a Aofs b Bofs Len
  | min_jdouble => minmax_double CmpGt fcmovnb CpuInfo m a Aofs b Bofs Len
  | max_jdouble => minmax_double CmpLt fcmovb CpuInfo m a Aofs b Bofs Len
  | minu_jbyte | minu_ByteBuffer => minmax_ub CmpGt CpuInfo m a Aofs b Bofs Len
  | maxu_jbyte | maxu_ByteBuffer => minmax_ub CmpLt CpuInfo m a Aofs b Bofs Len
  | minu_jshort => minmax_int K_minu_jshort CpuInfo m a Aofs b Bofs Len
  | maxu_jshort => minmax_int K_maxu_jshort CpuInfo m a Aofs b Bofs Len
  end.

(** An entry point: [PAIR_PREFIX] / [PAIRBUFFER_PREFIX] (both addresses
    must be non-null), the body, the postfix.  [a] and [b] are the
    addresses of [A] (first operand and destination) and [B]. *)
Definition minmax (e : PairEntry) (CpuInfo : Z) (m : mem) (a Aofs b Bofs Len : Z)
  : Path * mem :=
  if (a =? 0) || (b =? 0) then (OutOfMemory, m)
  else entry_body e CpuInfo m a Aofs b Bofs Len.

(** What Java reads from the array at address [a]: element [i] of type
    [T]. *)
Definition elem (T : CType) (m : mem) (a i : Z) : Z :=
  rd (sizeof_nat T) m (a + sizeof T * i).

(** ** Vocabulary of the statements *)

(** The feature dword the assembly block leaves. *)
Definition lo_ok (x : Z) : Prop :=
  0 <= x < 2 ^ 32 /\
  (Z.testbit x 15 = true -> Z.testbit x 0 = true) /\
  (Z.testbit x 25 = true -> Z.testbit x 23 = true) /\
  (Z.testbit x 26 = true -> Z.testbit x 23 = true) /\
  (Z.testbit x 26 = true -> Z.testbit x 25 = true).

Definition amd_ok (y : Z) : Prop :=
  0 <= y < 2 ^ 32 /\ (Z.testbit y 30 = true -> Z.testbit y 31 = true).

(** The flag implications of a descriptor. *)
Definition downgrade_invariant (d : Z) : Prop :=
  (has_flag d CPU_CMOV = true -> has_flag d CPU_FPU = true) /\
  (has_flag d CPU_SSE = true -> has_flag d CPU_MMX = true) /\
  (has_flag d CPU_SSE2 = true -> has_flag d CPU_MMX = true) /\
  (has_flag d CPU_SSE2 = true -> has_flag d CPU_SSE = true) /\
  (has_flag d CPU_3DNOWEX = true -> has_flag d CPU_3DNOW = true).

(** Reachable statics hold a descriptor with the invariant. *)
Definition statics_ok (st : ProbeStatics) : Prop :=
  downgrade_invariant (cpuInfoLast st) /\
  (has_flag (cpuInfoLast st) CPU_SSE = true -> has_flag (cpuInfoLast st) CPU_MMXEX = true).

(** [m'] is [m] with the bytes of [lo, hi) replaced by those of [g]. *)
Definition filled (g : mem) (lo hi : Z) (m m' : mem) : Prop :=
  forall x, m' x = if (lo <=? x) && (x <? hi) then g x else m x.

(** The bytes an array filled with [V] from address [pa] on holds. *)
Definition fill_image (T : CType) (V pa : Z) : mem :=
  fun x => byte.of_Z (V / 2 ^ (8 * ((x - pa) mod sizeof T))).

(** What [memmove] leaves: the image of the source range as it was in
    [m0], laid over the destination. *)
Definition move_image (m0 : mem) (src dst : Z) : mem :=
  fun x => m0 (src + (x - dst)).

(** A forward copy of [L] bytes never reads a byte it has written when the
    destination starts at or below the source, or beyond its end. *)
Definition forward_safe (src dst L : Z) : Prop := dst <= src \/ src + L <= dst.

(** What [if (x CMP y) x= y;] leaves in [x]. *)
Definition pick (T : CType) (c : Cmp) (x y : Z) : Z :=
  if c_cmp T c x y then y else x.

(** [m'] is [m] with element [i] of the [n] elements of [w] bytes at [pa]
    replaced by [F i] of the elements [i] at [pa] and [pb]. *)
Definition pointwise (w : nat) (F : Z -> Z -> Z -> Z) (pa pb n : Z) (m m' : mem) : Prop :=
  (forall i, 0 <= i < n ->
     rd w m' (pa + Z.of_nat w * i) =
     F i (rd w m (pa + Z.of_nat w * i)) (rd w m (pb + Z.of_nat w * i))) /\
  (forall x, x < pa \/ pa + Z.of_nat w * n <= x -> m' x = m x).

(** Two byte ranges of length [L] that do not meet. *)
Definition apart (pa pb L : Z) : Prop := pa + L <= pb \/ pb + L <= pa.

(** The value the MMXEX body of kernel [K] stores for the quadwords [a]
    (from the destination) and [b]: biased, combined and unbiased under
    [BIT_MASK_SSE], combined otherwise. *)
Definition mmxex_val (K : IntKernel) (op : MmxexInsn) (a b : Z) : Z :=
  match BIT_MASK_SSE K with
  | Some M => pxor (mmxex op (pxor a M) (pxor b M)) M
  | None => mmxex op a b
  end.

(** What a body loop has to do in one turn: [k] elements, each [Fv] of
    the two operands. *)
Definition block_ok (w : nat) (k : Z) (Fv : Z -> Z -> Z)
    (block : Z * Z * mem -> Z * Z * mem) : Prop :=
  forall pa pb m base, apart pa pb (Z.of_nat w * k) ->
    exists m', block (pa, pb, m) = (pa + Z.of_nat w * k, pb + Z.of_nat w * k, m') /\
               pointwise w (fun i => (fun _ => Fv) (base + i)) pa pb k m m'.

(** Element [i] is handled by the body when it lies in the body's range,
    by the scalar statement otherwise. *)
Definition phase_fun (T : CType) (c : Cmp) (Fv : Z -> Z -> Z) (lo hi : Z)
  : Z -> Z -> Z -> Z :=
  fun i => if (lo <=? i) && (i <? hi) then Fv else pick T c.

(** The elements the body loop of a vector branch handles: from
    [body_lo] up to [body_hi], by [LOOP_PREFIX_ALIGNED]. *)
Definition body_lo (U : Z) (T : CType) (pa Len : Z) : Z :=
  fst (fst (LOOP_PREFIX_ALIGNED U (sizeof T) pa Len)).

Definition body_hi (U : Z) (T : CType) (pa Len : Z) : Z :=
  body_lo U T pa Len + snd (fst (LOOP_PREFIX_ALIGNED U (sizeof T) pa Len)) * (U / sizeof T).

(** The macro sets that include Arrays_minmax_int.h. *)
Definition int_kernels : list IntKernel :=
  [K_min_jbyte; K_max_jbyte; K_min_jshort; K_max_jshort; K_min_jint; K_max_jint;
   K_minu_jshort; K_maxu_jshort].

(** What the x87 sequence of Arrays_minmax_double.h stores for the
    doubles [x] (from the destination) and [y]. *)
Definition fcmov_val (op : FcmovInsn) (x y : Z) : Z :=
  fcmov op (fucomi_CF (fld_qword y) (fld_qword x)) (fld_qword y) (fld_qword x).

(** The value of type [T] (float or double) behind a bit pattern. *)
Definition sf (T : CType) (x : Z) : spec_float :=
  match T with jfloat => sf32 x | _ => sf64 x end.

Definition is_nan (T : CType) (x : Z) : bool :=
  match sf T x with S754_nan => true | _ => false end.

(** [r] is a minimum (maximum) of [x] and [y]: it is one of them, up to
    the sign of zero, and no operand is below (above) it. *)
Definition sf_is_min (r x y : spec_float) : bool :=
  (SFeqb r x || SFeqb r y) && SFleb r x && SFleb r y.

Definition sf_is_max (r x y : spec_float) : bool :=
  (SFeqb r x || SFeqb r y) && SFleb x r && SFleb y r.

(** The function an entry point applies to elements [i] of its operands,
    by the descriptor, the destination address and the length: the lane
    operation of the vector body where the body loop runs, the scalar
    statement elsewhere. *)
Definition elem_fun (e : PairEntry) (CpuInfo pa Len : Z) : Z -> Z -> Z -> Z :=
  match e with
  | min_jfloat =>
      if has_flag CpuInfo CPU_SSE
      then phase_fun jfloat CmpGt (ps_lane minps)
             (body_lo 64 jfloat pa Len) (body_hi 64 jfloat pa Len)
      else fun _ => pick jfloat CmpGt
  | max_jfloat =>
      if has_flag CpuInfo CPU_SSE
      then phase_fun jfloat CmpLt (ps_lane maxps)
             (body_lo 64 jfloat pa Len) (body_hi 64 jfloat pa Len)
      else fun _ => pick jfloat CmpLt
  | min_jdouble =>
      if has_flag CpuInfo CPU_CMOV
      then phase_fun jdouble CmpGt (fcmov_val fcmovnb)
             (body_lo 64 jdouble pa Len) (body_hi 64 jdouble pa Len)
      else fun _ => pick jdouble CmpGt
  | max_jdouble =>
      if has_flag CpuInfo CPU_CMOV
      then phase_fun jdouble CmpLt (fcmov_val fcmovb)
             (body_lo 64 jdouble pa Len) (body_hi 64 jdouble pa Len)
      else fun _ => pick jdouble CmpLt
  | _ => fun _ => pick (entry_type e) (entry_cmp e)
  end.

(** The entry points on integer elements. *)
Definition is_integer (e : PairEntry) : bool :=
  match e with
  | min_jfloat | max_jfloat | min_jdouble | max_jdouble => false
  | _ => true
  end.

(** The integer an element of type [T] stands for: two's complement for
    the Java integer types, the plain binary number otherwise. *)
Definition int_value (T : CType) (x : Z) : Z :=
  match T with
  | jbyte | jshort | jint | jlong => signed (sizeof_nat T) x
  | _ => x
  end.

(** Minimum for the min entry points ([CMP] is [>]), maximum for the max
    ones. *)
Definition choose (c : Cmp) (x y : Z) : Z :=
  match c with CmpGt => Z.min x y | CmpLt => Z.max x y end.

Definition sf_is_choice (c : Cmp) (r x y : spec_float) : bool :=
  match c with CmpGt => sf_is_min r x y | CmpLt => sf_is_max r x y end.

(** ** Bulk stores *)

(** The bytes the SSE fill writes one by one before its first aligned
    store: up to the next 32-byte boundary. *)
Definition fill_head (pa : Z) : Z :=
  if pa mod 32 =? 0 then 0 else 32 - pa mod 32.

(** The 128-byte turns of the body loop of the SSE fill of [n] bytes at
    [pa]. *)
Definition fill_blocks (pa n : Z) : Z := (n - fill_head pa) / 128.

(** The 64-byte turns of the body loop of the SSE copy of [Len] bytes to
    [pa]. *)
Definition copy_blocks (pa Len : Z) : Z :=
  snd (fst (LOOP_PREFIX_ALIGNED 64 1 pa Len)).

(** The store of a body loop that moves [bytes] bytes with aligned
    stores: non-temporal from [limit] bytes on. *)
Definition bulk_store (bytes limit : Z) : option StoreKind :=
  if bytes =? 0 then None
  else if bytes <? limit then Some Aligned
  else Some NonTemporal.

(** ** Sample processors and memories *)

(** A processor on which [cpuid] traps. *)
Definition trapping_host : Host := mk_host (fun _ => None) 0.

(** A processor of the Pentium III kind: leaves 0 to 2, no extended
    leaves, FPU, CMOV, MMX and SSE among the features of leaf 1. *)
Definition sse_host : Host :=
  mk_host
    (fun leaf =>
       if leaf =? 0 then Some (mk_regs 2 0x756E6547 0x6C65746E 0x49656E69)
       else if leaf =? 1 then Some (mk_regs 0x673 0 0 0x0383FBFF)
       else if leaf =? 2 then Some (mk_regs 0x03020101 0 0 0x0C040843)
       else Some (mk_regs 0 0 0 0))
    0.

(** A processor that reports CMOV, SSE and SSE2 without FPU and MMX, and
    the extended 3DNow! level without 3DNow! itself. *)
Definition odd_host : Host :=
  mk_host
    (fun leaf =>
       if leaf =? 0 then Some (mk_regs 1 0 0 0)
       else if leaf =? 1 then Some (mk_regs 0x580 0 0 (Z.lor CPU_CMOV (Z.lor CPU_SSE CPU_SSE2)))
       else if leaf =? 0x80000000 then Some (mk_regs 0x80000006 0 0 0)
       else if leaf =? 0x80000001 then Some (mk_regs 0 0 0 CPU_3DNOWEX_L)
       else if leaf =? 0x80000005 then Some (mk_regs 0 0 0x40020140 0)
       else if leaf =? 0x80000006 then Some (mk_regs 0 0 0x02004140 0)
       else Some (mk_regs 0 0 0 0))
    0.

(** The byte at address [x] is [x mod 256]. *)
Definition ramp : mem := fun x => byte.of_Z x.

Definition zeros : mem := fun _ => Byte.x00.

(** 32-bit words of value 5; the word at address 4128 is 0. *)
Definition fives : mem :=
  fun x => byte.of_Z (if x =? 4128 then 0 else if x mod 4 =? 0 then 5 else 0).

(** Bit patterns of a quiet NaN and of 1.0, single and double. *)
Definition f32_nan : Z := 0x7FC00000.
Definition f32_one : Z := 0x3F800000.

(** Zeros but for one element at 4096 and one at 8192. *)
Definition two_floats (x y : Z) : mem := wr 4 (wr 4 zeros 4096 x) 8192 y.

(** ** ArraysNative.cpp: [getCpuInfoInternal] *)

(** The signed reading of 64 bits: a [jlong] as Java holds it. *)
Definition sint64 (x : Z) : Z :=
  let u := wrap64 x in if u <? 2 ^ 63 then u else u - 2 ^ 64.

(** [Java_net_algart_array_ArraysNative_getCpuInfoInternal]: the
    descriptor of [_cpuInfo] as a [jlong], and the statics after the
    call. *)
Definition getCpuInfoInternal (h : Host) (st : ProbeStatics) : Z * ProbeStatics :=
  let '(d, st', _) := _cpuInfo h st in (sint64 d, st').

(** ** ArraysFunctions.h: the parts of the descriptor *)

(** Lines 119-120: the family of the processor. *)
Definition probe_family (v : AsmVars) : Z :=
  let cpuFamily := Z.land (Z.shiftr (a_cpuid1regEAX v) 8) 15 in
  if cpuFamily =? 15 then Z.land (Z.shiftr (a_cpuid1regEAX v) 20) 15 else cpuFamily.

(** Lines 123-150: the sizes of the L1 data cache and of the L2 cache in
    the units of the descriptor. *)
Definition probe_caches (v : AsmVars) : Z * Z :=
  let '(l1d, l2) :=
    if (a_amdFeatures v =? 0) && (sint32 (a_maxArgForCpuId v) >=? 2)
    then cache_scan (probe_family v) (a_cpuid2regs v) (a_l1d v, a_l2 v)
    else (a_l1d v, a_l2 v) in
  (l1d / (CPU_L1DATASIZE_UNIT / 1024), l2 / (CPU_L2SIZE_UNIT / 1024)).

(** The fields as a reader of the descriptor extracts them. *)
Definition info_family (d : Z) : Z := Z.land (Z.shiftr d CPU_FAMILY_SHIFT) CPU_FAMILY.
Definition info_l1d (d : Z) : Z := Z.land (Z.shiftr d CPU_L1DATASIZE_SHIFT) CPU_L1DATASIZE.
Definition info_l2 (d : Z) : Z := Z.land (Z.shiftr d CPU_L2SIZE_SHIFT) CPU_L2SIZE.

(** ** TimingNative.cpp: [getTimecpuSupportedInternal] *)

(** The processor as the timing probe sees it: [cpuid] as before, and
    what [rdtsc] leaves in [eax] and [edx] when the probe executes it,
    [None] when it traps. *)
Record TimingHost : Type := mk_timing_host
  { t_host : Host;
    rdtsc_insn : option (Z * Z) }.

(** The static [_timecpuSupported] at program start. *)
Definition timecpu_init : Z := -1.

(** [Java_net_algart_lib_TimingNative_getTimecpuSupportedInternal]: the
    result and the static after the call.  A trap inside the block leaves
    the 0 stored before it. *)
Definition getTimecpuSupportedInternal (h : TimingHost) (_timecpuSupported : Z) : Z * Z :=
  if _timecpuSupported >=? 0 then (_timecpuSupported, _timecpuSupported)
  else
    match cpuid (t_host h) 1 with
    | None => (0, 0)
    | Some r =>
      if Z.land (r_edx r) (Z.shiftl 1 4) =? 0 then (0, 0)         (* jz _TSC_No *)
      else
        match rdtsc_insn h with
        | None => (0, 0)
        | Some (eax, edx) =>
          if Z.lor (wrap32 eax) (wrap32 edx) =? 0 then (0, 0)     (* jz _TSC_No *)
          else (1, 1)
        end
    end.

(** The values the static takes: any number of calls after program
    start. *)
Inductive timecpu_reachable (h : TimingHost) : Z -> Prop :=
| timecpu_start : timecpu_reachable h timecpu_init
| timecpu_call : forall st,
    timecpu_reachable h st ->
    timecpu_reachable h (snd (getTimecpuSupportedInternal h st)).

(** A processor with a running time-stamp counter, on the Pentium III
    sample. *)
Definition tsc_host : TimingHost := mk_timing_host sse_host (Some (123456, 7)).

(** A processor whose leaf 0 reports no further leaf; the local
    [cpuid1regEAX] happens to hold 0x500. *)
Definition bare_host : Host := mk_host (fun _ => Some (mk_regs 0 0 0 0)) 0x500.

(** ** Signalling NaNs *)

(** A double NaN whose top fraction bit is clear. *)
Definition signalling64 (x : Z) : bool :=
  match sf64 x with
  | S754_nan => negb (Z.testbit x 51)
  | _ => false
  end.

(** Bit patterns of a signalling double NaN and of its quiet form. *)
Definition f64_snan : Z := 0x7FF0000000000001.
Definition f64_snan_quiet : Z := 0x7FF8000000000001.

(** Every double, at any address, is the signalling NaN [f64_snan]. *)
Definition snans : mem := fun x => byte.of_Z (f64_snan / 2 ^ (8 * (x mod 8))).

(** * Bit-level facts *)

Lemma has_flag_testbit d k : 0 <= k -> has_flag d (Z.shiftl 1 k) = Z.testbit d k.
Proof.
  intros Hk. unfold has_flag. rewrite Z.shiftl_1_l.
  destruct (Z.testbit d k) eqn:E.
  - destruct (Z.eqb_spec (Z.land d (2 ^ k)) 0) as [H0|]; [|reflexivity].
    apply (f_equal (fun z => Z.testbit z k)) in H0.
    rewrite Z.land_spec, E, Z.pow2_bits_true, Z.bits_0 in H0 by lia. discriminate.
  - replace (Z.land d (2 ^ k)) with 0; [reflexivity|].
    symmetry. apply Z.bits_inj'. intros n Hn.
    rewrite Z.land_spec, Z.bits_0, Z.pow2_bits_eqb by lia.
    destruct (Z.eqb_spec k n); subst; rewrite ?E; auto using andb_false_r.
Qed.

Lemma wrap32_range x : 0 <= wrap32 x < 2 ^ 32.
Proof. unfold wrap32. apply Z.mod_pos_bound. lia. Qed.

Lemma testbit_high x n k : 0 <= x < 2 ^ n -> n <= k -> Z.testbit x k = false.
Proof.
  intros Hx Hk. destruct (Z.eq_dec x 0) as [->|Hne]; [apply Z.bits_0|].
  apply Z.bits_above_log2; [lia|].
  assert (Z.log2 x < n) by (apply Z.log2_lt_pow2; lia). lia.
Qed.

Lemma testbit_not32 G k : 0 <= k < 32 -> Z.testbit (not32 G) k = negb (Z.testbit G k).
Proof.
  intros Hk. unfold not32, wrap32.
  rewrite Z.mod_pow2_bits_low by lia. apply Z.lnot_spec. lia.
Qed.

Lemma land_range x y : 0 <= x < 2 ^ 32 -> 0 <= Z.land x y < 2 ^ 32.
Proof.
  intros Hx.
  assert (E : Z.land x y = (Z.land x y) mod 2 ^ 32).
  { apply Z.bits_inj'. intros n Hn. destruct (Z.ltb_spec n 32).
    - rewrite Z.mod_pow2_bits_low by lia. reflexivity.
    - rewrite Z.mod_pow2_bits_high, Z.land_spec, (testbit_high x 32 n) by lia.
      reflexivity. }
  rewrite E. apply Z.mod_pos_bound. lia.
Qed.

Lemma testbit_downgrade edx F f G k :
  F = Z.shiftl 1 f -> 0 <= k < 32 -> 0 <= f ->
  Z.testbit (downgrade edx F G) k =
  if Z.testbit edx f then Z.testbit edx k
  else Z.testbit edx k && negb (Z.testbit G k).
Proof.
  intros -> Hk Hf. unfold downgrade.
  pose proof (has_flag_testbit edx f Hf) as H. unfold has_flag in H.
  destruct (Z.testbit edx f); destruct (Z.land edx (Z.shiftl 1 f) =? 0);
    try discriminate; [reflexivity|].
  rewrite Z.land_spec, testbit_not32 by lia. reflexivity.
Qed.

Lemma downgrade_range edx F G : 0 <= edx < 2 ^ 32 -> 0 <= downgrade edx F G < 2 ^ 32.
Proof.
  intros H. unfold downgrade. destruct (_ =? 0); [apply land_range|]; assumption.
Qed.



(** * The capability probe *)

(** The downgrade tests of the assembly block establish the implications
    on the feature dwords. *)
Lemma lo_ok_0 : lo_ok 0.
Proof. repeat split; try lia; rewrite Z.bits_0; discriminate. Qed.

Lemma amd_ok_0 : amd_ok 0.
Proof. repeat split; try lia; rewrite Z.bits_0; discriminate. Qed.

Lemma lo_ok_downgrade edx :
  0 <= edx < 2 ^ 32 ->
  lo_ok (downgrade (downgrade (downgrade edx CPU_FPU CPU_CMOV)
                      CPU_MMX (Z.lor CPU_SSE CPU_SSE2)) CPU_SSE CPU_SSE2).
Proof.
  intros H. split; [auto using downgrade_range|].
  set (G2 := Z.lor CPU_SSE CPU_SSE2).
  rewrite !(testbit_downgrade _ CPU_SSE 25 CPU_SSE2) by (reflexivity || lia).
  rewrite !(testbit_downgrade _ CPU_MMX 23 G2) by (reflexivity || lia).
  rewrite !(testbit_downgrade _ CPU_FPU 0 CPU_CMOV) by (reflexivity || lia).
  replace (Z.testbit CPU_SSE2 0) with false by reflexivity.
  replace (Z.testbit CPU_SSE2 15) with false by reflexivity.
  replace (Z.testbit CPU_SSE2 23) with false by reflexivity.
  replace (Z.testbit CPU_SSE2 25) with false by reflexivity.
  replace (Z.testbit CPU_SSE2 26) with true by reflexivity.
  replace (Z.testbit G2 0) with false by reflexivity.
  replace (Z.testbit G2 15) with false by reflexivity.
  replace (Z.testbit G2 23) with false by reflexivity.
  replace (Z.testbit G2 25) with true by reflexivity.
  replace (Z.testbit G2 26) with true by reflexivity.
  replace (Z.testbit CPU_CMOV 0) with false by reflexivity.
  replace (Z.testbit CPU_CMOV 15) with true by reflexivity.
  replace (Z.testbit CPU_CMOV 23) with false by reflexivity.
  replace (Z.testbit CPU_CMOV 25) with false by reflexivity.
  replace (Z.testbit CPU_CMOV 26) with false by reflexivity.
  generalize (Z.testbit edx 0), (Z.testbit edx 15), (Z.testbit edx 23),
    (Z.testbit edx 25), (Z.testbit edx 26).
  intros [] [] [] [] []; cbn; auto.
Qed.

Lemma amd_ok_downgrade edx :
  0 <= edx < 2 ^ 32 ->
  amd_ok (downgrade (Z.lor edx CPU_AMD_L) CPU_3DNOW_L CPU_3DNOWEX_L).
Proof.
  intros H.
  assert (R : 0 <= Z.lor edx CPU_AMD_L < 2 ^ 32).
  { assert (E : Z.lor edx CPU_AMD_L = (Z.lor edx CPU_AMD_L) mod 2 ^ 32).
    { apply Z.bits_inj'. intros n Hn. destruct (Z.ltb_spec n 32).
      - rewrite Z.mod_pow2_bits_low by lia. reflexivity.
      - rewrite Z.mod_pow2_bits_high, Z.lor_spec, (testbit_high edx 32 n) by lia.
        apply (testbit_high CPU_AMD_L 32 n); [cbv; split; [discriminate|reflexivity] | lia]. }
    rewrite E. apply Z.mod_pos_bound. lia. }
  split; [auto using downgrade_range|].
  rewrite !(testbit_downgrade _ CPU_3DNOW_L 31 CPU_3DNOWEX_L) by (reflexivity || lia).
  replace (Z.testbit CPU_3DNOWEX_L 30) with true by reflexivity.
  replace (Z.testbit CPU_3DNOWEX_L 31) with false by reflexivity.
  generalize (Z.testbit (Z.lor edx CPU_AMD_L) 31), (Z.testbit (Z.lor edx CPU_AMD_L) 30).
  intros [] []; cbn; auto.
Qed.

Lemma cpuid_range h leaf r :
  cpuid h leaf = Some r ->
  0 <= r_eax r < 2 ^ 32 /\ 0 <= r_ebx r < 2 ^ 32 /\
  0 <= r_ecx r < 2 ^ 32 /\ 0 <= r_edx r < 2 ^ 32.
Proof.
  unfold cpuid. destruct (cpuid_insn h leaf); [|discriminate].
  intros [= <-]. cbn. auto using wrap32_range.
Qed.

Lemma cpuInfo_asm_ok h v :
  cpuInfo_asm h = Some v -> lo_ok (a_info_lo v) /\ amd_ok (a_amdFeatures v).
Proof.
  unfold cpuInfo_asm.
  destruct (cpuid h 0) as [r0|]; [|discriminate].
  destruct (r_eax r0 =? 0).
  { intros [= <-]. cbn. auto using lo_ok_0, amd_ok_0. }
  destruct (cpuid h 1) as [r1|] eqn:E1; [|discriminate].
  apply cpuid_range in E1. destruct E1 as (_ & _ & _ & Hd).
  pose proof (lo_ok_downgrade _ Hd) as Hlo.
  destruct (cpuid h 2147483648) as [re|]; [|discriminate].
  destruct (r_eax re <? 2147483653).
  { destruct (r_eax r0 <? 2).
    - intros [= <-]. cbn. auto using amd_ok_0.
    - destruct (cpuid h 2); [|discriminate]. intros [= <-]. cbn. auto using amd_ok_0. }
  destruct (cpuid h 2147483649) as [ra|] eqn:Ea; [|discriminate].
  apply cpuid_range in Ea. destruct Ea as (_ & _ & _ & Hda).
  pose proof (amd_ok_downgrade _ Hda) as Hamd.
  destruct (cpuid h 2147483653); [|discriminate].
  destruct (r_eax re <? 2147483654).
  { intros [= <-]. cbn. auto. }
  destruct (cpuid h 2147483654); [|discriminate].
  intros [= <-]. cbn. auto.
Qed.

Lemma land_range_r x y w : 0 <= w -> 0 <= y < 2 ^ w -> 0 <= Z.land x y < 2 ^ w.
Proof.
  intros Hw Hy.
  assert (E : Z.land x y = (Z.land x y) mod 2 ^ w).
  { apply Z.bits_inj'. intros n Hn. destruct (Z.ltb_spec n w).
    - rewrite Z.mod_pow2_bits_low by lia. reflexivity.
    - rewrite Z.mod_pow2_bits_high, Z.land_spec, (testbit_high y w n) by lia.
      apply andb_false_r. }
  rewrite E. apply Z.mod_pos_bound. lia.
Qed.

Lemma testbit_field x mask s w k :
  0 <= w -> 0 <= mask < 2 ^ w -> k < s \/ s + w <= k ->
  Z.testbit (Z.shiftl (Z.land x mask) s) k = false.
Proof.
  intros Hw Hm [Hk|Hk].
  - destruct (Z.ltb_spec k 0); [apply Z.testbit_neg_r; lia|].
    apply Z.shiftl_spec_low. lia.
  - destruct (Z.ltb_spec k 0); [apply Z.testbit_neg_r; lia|].
    rewrite Z.shiftl_spec by lia.
    apply (testbit_high _ w); [apply land_range_r; lia | lia].
Qed.

(** The shape of the packed descriptor. *)
Lemma cpuInfo_pack_shape v :
  exists fam l1d l2,
    cpuInfo_pack v =
    Z.lor (Z.lor (Z.lor (Z.lor
      (if has_flag (a_info_lo v) CPU_SSE then Z.lor (a_info_lo v) CPU_MMXEX
       else a_info_lo v)
      (Z.shiftl (Z.land fam CPU_FAMILY) CPU_FAMILY_SHIFT))
      (Z.shiftl (Z.land (a_amdFeatures v)
                   (Z.lor CPU_AMD_L (Z.lor CPU_3DNOW_L CPU_3DNOWEX_L))) 32))
      (Z.shiftl (Z.land l1d CPU_L1DATASIZE) CPU_L1DATASIZE_SHIFT))
      (Z.shiftl (Z.land l2 CPU_L2SIZE) CPU_L2SIZE_SHIFT).
Proof.
  unfold cpuInfo_pack. cbv zeta.
  match goal with |- context [if ?c then cache_scan ?f ?r ?a else ?b] =>
    destruct (if c then cache_scan f r a else b) as [l1d l2] end.
  eexists _, _, _. reflexivity.
Qed.

Ltac field_side :=
  unfold CPU_L2SIZE, CPU_L2SIZE_SHIFT, CPU_L1DATASIZE, CPU_L1DATASIZE_SHIFT,
    CPU_FAMILY, CPU_FAMILY_SHIFT in *;
  first [ lia | vm_compute; split; [discriminate | reflexivity] ].

Lemma pack_testbit_low v k :
  0 <= k < 32 -> Z.testbit (cpuInfo_pack v) k = Z.testbit (a_info_lo v) k.
Proof.
  intros Hk. destruct (cpuInfo_pack_shape v) as (fam & l1d & l2 & ->).
  rewrite !Z.lor_spec.
  rewrite (testbit_field l2 CPU_L2SIZE CPU_L2SIZE_SHIFT 10) by field_side.
  rewrite (testbit_field l1d CPU_L1DATASIZE CPU_L1DATASIZE_SHIFT 8) by field_side.
  rewrite (testbit_field fam CPU_FAMILY CPU_FAMILY_SHIFT 4) by field_side.
  rewrite (testbit_field (a_amdFeatures v) _ 32 32) by field_side.
  rewrite !orb_false_r.
  destruct (has_flag (a_info_lo v) CPU_SSE); [|reflexivity].
  rewrite Z.lor_spec. unfold CPU_MMXEX. rewrite Z.shiftl_1_l, Z.pow2_bits_false by lia.
  apply orb_false_r.
Qed.

Lemma pack_testbit_60 v :
  0 <= a_info_lo v < 2 ^ 32 ->
  Z.testbit (cpuInfo_pack v) 60 = Z.testbit (a_info_lo v) 25.
Proof.
  intros Hlo. destruct (cpuInfo_pack_shape v) as (fam & l1d & l2 & ->).
  rewrite !Z.lor_spec.
  rewrite (testbit_field l2 CPU_L2SIZE CPU_L2SIZE_SHIFT 10) by field_side.
  rewrite (testbit_field l1d CPU_L1DATASIZE CPU_L1DATASIZE_SHIFT 8) by field_side.
  rewrite (testbit_field fam CPU_FAMILY CPU_FAMILY_SHIFT 4) by field_side.
  rewrite !orb_false_r.
  rewrite Z.shiftl_spec, Z.land_spec by lia.
  replace (Z.testbit (Z.lor CPU_AMD_L (Z.lor CPU_3DNOW_L CPU_3DNOWEX_L)) (60 - 32))
    with false by reflexivity.
  rewrite andb_false_r, orb_false_r.
  change CPU_SSE with (Z.shiftl 1 25). rewrite has_flag_testbit by lia.
  destruct (Z.testbit (a_info_lo v) 25).
  - rewrite Z.lor_spec. replace (Z.testbit CPU_MMXEX 60) with true by reflexivity.
    apply orb_true_r.
  - apply (testbit_high _ 32); lia.
Qed.

Lemma pack_testbit_amd v k :
  0 <= a_info_lo v < 2 ^ 32 -> k = 62 \/ k = 63 ->
  Z.testbit (cpuInfo_pack v) k = Z.testbit (a_amdFeatures v) (k - 32).
Proof.
  intros Hlo Hk. destruct (cpuInfo_pack_shape v) as (fam & l1d & l2 & ->).
  rewrite !Z.lor_spec.
  rewrite (testbit_field l2 CPU_L2SIZE CPU_L2SIZE_SHIFT 10) by field_side.
  rewrite (testbit_field l1d CPU_L1DATASIZE CPU_L1DATASIZE_SHIFT 8) by field_side.
  rewrite (testbit_field fam CPU_FAMILY CPU_FAMILY_SHIFT 4) by field_side.
  rewrite !orb_false_r.
  rewrite Z.shiftl_spec, Z.land_spec by lia.
  assert (Z.testbit (Z.lor CPU_AMD_L (Z.lor CPU_3DNOW_L CPU_3DNOWEX_L)) (k - 32) = true) as ->
    by (destruct Hk; subst; reflexivity).
  rewrite andb_true_r.
  assert (Z.testbit (if has_flag (a_info_lo v) CPU_SSE
                     then Z.lor (a_info_lo v) CPU_MMXEX else a_info_lo v) k = false) as ->.
  { destruct (has_flag _ _).
    - rewrite Z.lor_spec, (testbit_high (a_info_lo v) 32) by lia.
      destruct Hk; subst; reflexivity.
    - apply (testbit_high _ 32); lia. }
  reflexivity.
Qed.



Lemma flag_bits d :
  has_flag d CPU_FPU = Z.testbit d 0 /\ has_flag d CPU_CMOV = Z.testbit d 15 /\
  has_flag d CPU_MMX = Z.testbit d 23 /\ has_flag d CPU_SSE = Z.testbit d 25 /\
  has_flag d CPU_SSE2 = Z.testbit d 26 /\ has_flag d CPU_MMXEX = Z.testbit d 60 /\
  has_flag d CPU_3DNOWEX = Z.testbit d 62 /\ has_flag d CPU_3DNOW = Z.testbit d 63.
Proof.
  repeat split.
  - apply (has_flag_testbit d 0); lia.
  - apply (has_flag_testbit d 15); lia.
  - apply (has_flag_testbit d 23); lia.
  - apply (has_flag_testbit d 25); lia.
  - apply (has_flag_testbit d 26); lia.
  - apply (has_flag_testbit d 60); lia.
  - apply (has_flag_testbit d 62); lia.
  - apply (has_flag_testbit d 63); lia.
Qed.

Lemma downgrade_invariant_0 : downgrade_invariant 0.
Proof. repeat split; intros H; discriminate H. Qed.

Lemma pack_invariant h v :
  cpuInfo_asm h = Some v ->
  downgrade_invariant (cpuInfo_pack v) /\
  (has_flag (cpuInfo_pack v) CPU_SSE = true -> has_flag (cpuInfo_pack v) CPU_MMXEX = true).
Proof.
  intros Hv. destruct (cpuInfo_asm_ok h v Hv) as [(Hr & H1 & H2 & H3 & H4) (Ha & H5)].
  unfold downgrade_invariant.
  destruct (flag_bits (cpuInfo_pack v)) as (-> & -> & -> & -> & -> & -> & -> & ->).
  rewrite !pack_testbit_low by lia.
  rewrite pack_testbit_60 by lia.
  rewrite !pack_testbit_amd by (lia || auto).
  repeat split; auto.
Qed.



(** One call keeps the statics well-formed and returns what they hold. *)
Lemma cpuInfo_step_ok h st :
  statics_ok st ->
  statics_ok (snd (fst (_cpuInfo h st))) /\
  cpuInfoLast (snd (fst (_cpuInfo h st))) = fst (fst (_cpuInfo h st)).
Proof.
  intros Hst. unfold _cpuInfo.
  destruct (cpuInfoCalculated st); [cbn; auto|].
  destruct (cpuInfo_asm h) as [v|] eqn:E; cbn.
  - split; [|reflexivity]. exact (pack_invariant h v E).
  - split; [|reflexivity]. split; [apply downgrade_invariant_0 | discriminate].
Qed.

Lemma reachable_ok h st : probe_reachable h st -> statics_ok st.
Proof.
  induction 1 as [|st _ IH].
  - split; [apply downgrade_invariant_0 | discriminate].
  - apply cpuInfo_step_ok, IH.
Qed.

(** Every descriptor the probe returns is well-formed. *)
Lemma probe_descriptor_ok h st :
  probe_reachable h st ->
  downgrade_invariant (fst (fst (_cpuInfo h st))) /\
  (has_flag (fst (fst (_cpuInfo h st))) CPU_SSE = true ->
   has_flag (fst (fst (_cpuInfo h st))) CPU_MMXEX = true).
Proof.
  intros H. destruct (cpuInfo_step_ok h st (reachable_ok h st H)) as [Hok <-].
  exact Hok.
Qed.

(** * Loop splitting *)

Lemma wrap32_small x : 0 <= x < 2 ^ 32 -> wrap32 x = x.
Proof. intros H. unfold wrap32. apply Z.mod_small. lia. Qed.

Lemma sint32_small x : - 2 ^ 31 <= x < 2 ^ 31 -> sint32 x = x.
Proof.
  intros H. unfold sint32, wrap32.
  destruct (Z.ltb_spec (x mod 2 ^ 32) (2 ^ 31)); 
    Z.div_mod_to_equations; lia.
Qed.

Lemma land_mask x k : 0 <= k -> Z.land x (2 ^ k - 1) = x mod 2 ^ k.
Proof.
  intros Hk. rewrite <- Z.land_ones by lia. f_equal.
  rewrite Z.ones_equiv. lia.
Qed.

Lemma sizeof_cases T : sizeof T = 1 \/ sizeof T = 2 \/ sizeof T = 4 \/ sizeof T = 8.
Proof. destruct T; cbv; auto. Qed.

(** [LOOP_PREFIX_ALIGNED] in closed form, for a length that is a
    non-negative [jint]. *)
Lemma LOOP_PREFIX_ALIGNED_eq U size pa Len :
  (U = 32 \/ U = 64) -> (size = 1 \/ size = 2 \/ size = 4 \/ size = 8) ->
  0 <= Len < 2 ^ 31 ->
  let n := U / size in
  let disp := pa mod 32 in
  let lenStart :=
    if negb (disp =? 0) && (disp mod size =? 0) && negb (Len <? (32 - disp) / size)
    then (32 - disp) / size else 0 in
  let q := (Len - lenStart) / n in
  let r := (Len - lenStart) mod n in
  LOOP_PREFIX_ALIGNED U size pa Len =
    if q >? 0 then (lenStart, q - 1, r + n) else (lenStart, q, r).
Proof.
  intros HU Hs HL. cbv zeta. unfold LOOP_PREFIX_ALIGNED.
  assert (Hd : Z.land pa 31 = pa mod 32) by (apply (land_mask pa 5); lia).
  rewrite Hd.
  assert (Hdr : 0 <= pa mod 32 < 32) by (apply Z.mod_pos_bound; lia).
  assert (Hm : Z.land (pa mod 32) (size - 1) = (pa mod 32) mod size).
  { destruct Hs as [-> | [-> | [-> | -> ]]].
    - apply (land_mask _ 0); lia.
    - apply (land_mask _ 1); lia.
    - apply (land_mask _ 2); lia.
    - apply (land_mask _ 3); lia. }
  rewrite Hm.
  set (disp := pa mod 32) in *.
  assert (Hn : exists k, 0 <= k <= 6 /\ U / size = 2 ^ k).
  { destruct HU as [-> | -> ]; destruct Hs as [-> | [-> | [-> | -> ]]];
      [exists 5|exists 4|exists 3|exists 2|exists 6|exists 5|exists 4|exists 3];
      split; try lia; reflexivity. }
  destruct Hn as (k & Hk & Hn). rewrite Hn.
  assert (Hp : 1 <= 2 ^ k <= 64).
  { split; [pose proof (Z.pow_pos_nonneg 2 k); lia|].
    change 64 with (2 ^ 6). apply Z.pow_le_mono_r; lia. }
  assert (Hls : 0 <= (32 - disp) / size <= 32).
  { destruct Hs as [-> | [-> | [-> | -> ]]]; Z.div_mod_to_equations; lia. }
  assert (tail : forall len, 0 <= len < 2 ^ 31 ->
    sint32 (Z.land (wrap32 len) (2 ^ k - 1)) = len mod 2 ^ k /\
    sint32 (wrap32 len / 2 ^ k) = len / 2 ^ k).
  { intros len Hlen. rewrite wrap32_small by lia.
    rewrite land_mask by lia.
    assert (0 <= len mod 2 ^ k < 2 ^ k) by (apply Z.mod_pos_bound; lia).
    assert (0 <= len / 2 ^ k <= len).
    { split; [apply Z.div_pos; lia|]. apply Z.div_le_upper_bound; nia. }
    rewrite !sint32_small by lia. auto. }
  assert (fin : forall len, 0 <= len < 2 ^ 31 ->
    sint32 (len mod 2 ^ k + 2 ^ k) = len mod 2 ^ k + 2 ^ k).
  { intros len Hlen.
    assert (0 <= len mod 2 ^ k < 2 ^ k) by (apply Z.mod_pos_bound; lia).
    apply sint32_small; lia. }
  destruct (disp =? 0) eqn:E0; cbv [negb andb].
  - rewrite Z.sub_0_r. destruct (tail Len HL) as [-> ->].
    rewrite fin by lia. reflexivity.
  - destruct (disp mod size =? 0) eqn:E1.
    + destruct (Len <? (32 - disp) / size) eqn:E2.
      * rewrite Z.sub_0_r. destruct (tail Len HL) as [-> ->].
        rewrite fin by lia. reflexivity.
      * apply Z.ltb_ge in E2.
        rewrite (sint32_small (Len - _)) by lia.
        assert (HL' : 0 <= Len - (32 - disp) / size < 2 ^ 31) by lia.
        destruct (tail _ HL') as [-> ->].
        rewrite fin by lia. reflexivity.
    + rewrite Z.sub_0_r. destruct (tail Len HL) as [-> ->].
      rewrite fin by lia. reflexivity.
Qed.

(** What the three lengths satisfy. *)
Lemma LOOP_PREFIX_ALIGNED_spec U size pa Len lenStart len lenEnd :
  (U = 32 \/ U = 64) -> (size = 1 \/ size = 2 \/ size = 4 \/ size = 8) ->
  0 <= Len < 2 ^ 31 ->
  LOOP_PREFIX_ALIGNED U size pa Len = (lenStart, len, lenEnd) ->
  0 <= lenStart < 32 /\ 0 <= len < 2 ^ 31 /\ 0 <= lenEnd < 2 ^ 31 /\
  lenStart + len * (U / size) + lenEnd = Len /\
  (lenStart <> 0 -> (pa + size * lenStart) mod 32 = 0) /\
  (lenStart = 0 <->
   (pa mod 32 = 0 \/ (pa mod 32) mod size <> 0 \/ Len < (32 - pa mod 32) / size)).
Proof.
  intros HU Hs HL. rewrite LOOP_PREFIX_ALIGNED_eq by assumption. cbv zeta.
  assert (Hdr : 0 <= pa mod 32 < 32) by (apply Z.mod_pos_bound; lia).
  set (disp := pa mod 32) in *.
  set (ls := if negb (disp =? 0) && (disp mod size =? 0) && negb (Len <? (32 - disp) / size)
             then (32 - disp) / size else 0).
  assert (Hn : 1 <= U / size <= 64).
  { destruct HU as [-> | -> ]; destruct Hs as [-> | [-> | [-> | -> ]]]; cbv; split; congruence. }
  assert (Hls : 0 <= ls <= Len /\ ls < 32 /\
                (ls <> 0 -> (pa + size * ls) mod 32 = 0) /\
                (ls = 0 <-> (disp = 0 \/ disp mod size <> 0 \/ Len < (32 - disp) / size))).
  { subst ls.
    destruct (Z.eqb_spec disp 0) as [E0|E0]; cbv [negb andb].
    { repeat split; try lia; auto. }
    destruct (Z.eqb_spec (disp mod size) 0) as [E1|E1].
    2:{ repeat split; try lia; auto. }
    destruct (Z.ltb_spec Len ((32 - disp) / size)) as [E2|E2].
    { repeat split; try lia; auto. }
    assert (Hex : size * ((32 - disp) / size) = 32 - disp).
    { destruct Hs as [-> | [-> | [-> | -> ]]]; Z.div_mod_to_equations; lia. }
    assert (0 < (32 - disp) / size < 32).
    { destruct Hs as [-> | [-> | [-> | -> ]]]; Z.div_mod_to_equations; lia. }
    repeat split; try lia.
    - intros _. rewrite Hex. subst disp. 
      replace (pa + (32 - pa mod 32)) with (32 * (pa / 32 + 1)).
      + rewrite Z.mul_comm. apply Z.mod_mul. lia.
      + pose proof (Z.div_mod pa 32). lia. }
  destruct Hls as (Hl1 & Hl2 & Hl3 & Hl4).
  assert (Hq : 0 <= (Len - ls) / (U / size) <= Len - ls).
  { split; [apply Z.div_pos; lia|]. apply Z.div_le_upper_bound; nia. }
  assert (Hr : 0 <= (Len - ls) mod (U / size) < U / size) by (apply Z.mod_pos_bound; lia).
  pose proof (Z.div_mod (Len - ls) (U / size)) as Hdm.
  destruct (Z.gtb_spec ((Len - ls) / (U / size)) 0); intros [= <- <- <-];
    repeat split; try lia; try tauto; try nia.
Qed.

(** * Memory *)

Lemma of_Z_mod z : byte.of_Z (z mod 256) = byte.of_Z z.
Proof.
  apply byte.unsigned_inj. rewrite !byte.unsigned_of_Z. unfold byte.wrap.
  change (2 ^ 8) with 256. apply Z.mod_mod. lia.
Qed.

Lemma unsigned_256 b : 0 <= byte.unsigned b < 256.
Proof. exact (byte.unsigned_range b). Qed.

Lemma pow8_S n : 2 ^ (8 * Z.of_nat (S n)) = 256 * 2 ^ (8 * Z.of_nat n).
Proof.
  replace (8 * Z.of_nat (S n)) with (8 + 8 * Z.of_nat n) by lia.
  rewrite Z.pow_add_r by lia. reflexivity.
Qed.

Lemma pow8_pos k : 0 <= k -> 0 < 2 ^ (8 * k).
Proof. intros. apply Z.pow_pos_nonneg; lia. Qed.

Ltac pow_side :=
  first [ lia | apply pow8_pos; lia | apply Z.pow_nonzero; lia
        | apply Z.pow_pos_nonneg; lia ].

Lemma storeb_same m p v : storeb m p v p = v.
Proof. unfold storeb. rewrite Z.eqb_refl. reflexivity. Qed.

Lemma storeb_other m p v x : x <> p -> storeb m p v x = m x.
Proof. intros H. unfold storeb. destruct (Z.eqb_spec x p); congruence. Qed.

Lemma wr_outside n : forall m p v x,
  x < p \/ p + Z.of_nat n <= x -> wr n m p v x = m x.
Proof.
  induction n as [|n IH]; intros m p v x Hx; [reflexivity|].
  cbn [wr]. rewrite IH by lia. apply storeb_other. lia.
Qed.

Lemma wr_inside n : forall m p v k,
  0 <= k < Z.of_nat n -> wr n m p v (p + k) = byte.of_Z (v / 2 ^ (8 * k)).
Proof.
  induction n as [|n IH]; intros m p v k Hk; [lia|].
  cbn [wr]. destruct (Z.eq_dec k 0) as [->|Hne].
  - rewrite wr_outside by lia. rewrite Z.add_0_r, storeb_same.
    rewrite Z.div_1_r. reflexivity.
  - replace (p + k) with (p + 1 + (k - 1)) by lia. rewrite IH by lia.
    f_equal. rewrite Z.div_div by pow_side.
    f_equal. replace (8 * k) with (8 + 8 * (k - 1)) by lia.
    rewrite Z.pow_add_r by lia. reflexivity.
Qed.

Lemma rd_ext n : forall m1 m2 p,
  (forall k, 0 <= k < Z.of_nat n -> m1 (p + k) = m2 (p + k)) ->
  rd n m1 p = rd n m2 p.
Proof.
  induction n as [|n IH]; intros m1 m2 p H; [reflexivity|].
  cbn [rd]. rewrite (IH m1 m2 (p + 1)).
  - specialize (H 0). rewrite Z.add_0_r in H. rewrite H by lia. reflexivity.
  - intros k Hk. replace (p + 1 + k) with (p + (k + 1)) by lia. apply H. lia.
Qed.

Lemma rd_range n m p : 0 <= rd n m p < 2 ^ (8 * Z.of_nat n).
Proof.
  revert p. induction n as [|n IH]; intros p.
  - cbn. lia.
  - cbn [rd]. rewrite pow8_S. pose proof (unsigned_256 (m p)).
    specialize (IH (p + 1)). lia.
Qed.

(** A read returns the value whose bytes are in memory. *)
Lemma rd_bytes n : forall m p v,
  (forall k, 0 <= k < Z.of_nat n -> m (p + k) = byte.of_Z (v / 2 ^ (8 * k))) ->
  rd n m p = v mod 2 ^ (8 * Z.of_nat n).
Proof.
  induction n as [|n IH]; intros m p v H.
  - cbn. rewrite Z.mod_1_r. reflexivity.
  - cbn [rd]. rewrite (IH m (p + 1) (v / 256)).
    + pose proof (H 0) as H0. rewrite Z.add_0_r, Z.div_1_r in H0.
      rewrite H0 by lia. rewrite byte.unsigned_of_Z. unfold byte.wrap.
      change (2 ^ 8) with 256.
      rewrite pow8_S. rewrite Z.rem_mul_r by (try apply Z.pow_nonzero; lia). 
      pose proof (pow8_pos (Z.of_nat n)). lia.
    + intros k Hk. replace (p + 1 + k) with (p + (k + 1)) by lia.
      rewrite H by lia. f_equal.
      rewrite Z.div_div by pow_side.
      f_equal. replace (8 * (k + 1)) with (8 + 8 * k) by lia.
      rewrite Z.pow_add_r by lia. reflexivity.
Qed.

(** Byte [k] of what a read returns. *)
Lemma rd_byte n : forall m p k,
  0 <= k < Z.of_nat n -> byte.of_Z (rd n m p / 2 ^ (8 * k)) = m (p + k).
Proof.
  induction n as [|n IH]; intros m p k Hk; [lia|].
  cbn [rd]. pose proof (unsigned_256 (m p)) as Hu.
  destruct (Z.eq_dec k 0) as [->|Hne].
  - rewrite Z.div_1_r, Z.add_0_r.
    rewrite <- of_Z_mod.
    replace ((byte.unsigned (m p) + 256 * rd n m (p + 1)) mod 256)
      with (byte.unsigned (m p)) by (Z.div_mod_to_equations; lia).
    apply byte.of_Z_unsigned.
  - replace (8 * k) with (8 + 8 * (k - 1)) by lia.
    rewrite Z.pow_add_r by lia. change (2 ^ 8) with 256.
    rewrite <- Z.div_div by pow_side.
    replace ((byte.unsigned (m p) + 256 * rd n m (p + 1)) / 256) with (rd n m (p + 1)).
    + rewrite IH by lia. f_equal. lia.
    + Z.div_mod_to_equations; lia.
Qed.

Lemma rd_wr_sub w n m p v off :
  0 <= off -> off + Z.of_nat w <= Z.of_nat n ->
  rd w (wr n m p v) (p + off) = (v / 2 ^ (8 * off)) mod 2 ^ (8 * Z.of_nat w).
Proof.
  intros Ho Hw. apply rd_bytes. intros k Hk.
  rewrite <- Z.add_assoc, wr_inside by lia. f_equal.
  rewrite Z.div_div by pow_side. f_equal.
  rewrite <- Z.pow_add_r by lia. f_equal. lia.
Qed.

Lemma rd_wr_same n m p v : rd n (wr n m p v) p = v mod 2 ^ (8 * Z.of_nat n).
Proof.
  pose proof (rd_wr_sub n n m p v 0) as H. rewrite Z.add_0_r, Z.div_1_r in H.
  apply H; lia.
Qed.

Lemma rd_wr_other w n m p v q :
  q + Z.of_nat w <= p \/ p + Z.of_nat n <= q ->
  rd w (wr n m p v) q = rd w m q.
Proof. intros H. apply rd_ext. intros k Hk. apply wr_outside. lia. Qed.

(** A lane of a wide read is the narrow read at the lane's address. *)
Lemma rd_sub w n m p off :
  0 <= off -> off + Z.of_nat w <= Z.of_nat n ->
  (rd n m p / 2 ^ (8 * off)) mod 2 ^ (8 * Z.of_nat w) = rd w m (p + off).
Proof.
  intros Ho Hw. symmetry. apply rd_bytes. intros k Hk.
  rewrite Z.div_div by pow_side.
  rewrite <- Z.pow_add_r by lia.
  replace (8 * off + 8 * k) with (8 * (off + k)) by lia.
  rewrite rd_byte by lia. f_equal. lia.
Qed.

(** Storing what was read changes nothing. *)
Lemma wr_rd_id n m p x : wr n m p (rd n m p) x = m x.
Proof.
  destruct (Z.ltb_spec x p); [apply wr_outside; lia|].
  destruct (Z.leb_spec (p + Z.of_nat n) x); [apply wr_outside; lia|].
  replace x with (p + (x - p)) by lia.
  rewrite wr_inside by lia. apply rd_byte. lia.
Qed.

(** Copying an element: the bytes at [q] get the bytes at [p]. *)
Lemma wr_rd_copy n m p q k :
  0 <= k < Z.of_nat n -> wr n m q (rd n m p) (q + k) = m (p + k).
Proof. intros Hk. rewrite wr_inside by lia. apply rd_byte. lia. Qed.

(** * Regions *)



Lemma filled_refl g lo m : filled g lo lo m m.
Proof.
  intros x. destruct (Z.leb_spec lo x), (Z.ltb_spec x lo); cbn; auto; lia.
Qed.

Lemma filled_trans g lo mid hi m m1 m2 :
  lo <= mid <= hi -> filled g lo mid m m1 -> filled g mid hi m1 m2 ->
  filled g lo hi m m2.
Proof.
  intros H H1 H2 x. rewrite H2, H1.
  destruct (Z.leb_spec mid x), (Z.ltb_spec x hi), (Z.leb_spec lo x), (Z.ltb_spec x mid);
    cbn; auto; lia.
Qed.

Lemma filled_ext g lo hi m m' :
  (forall x, lo <= x < hi -> m' x = g x) ->
  (forall x, x < lo \/ hi <= x -> m' x = m x) ->
  filled g lo hi m m'.
Proof.
  intros Hin Hout x.
  destruct (Z.leb_spec lo x), (Z.ltb_spec x hi); cbn; auto; apply Hout; lia.
Qed.

Lemma loop_n_S {S} n (f : S -> S) s : loop_n (Datatypes.S n) f s = loop_n n f (f s).
Proof. reflexivity. Qed.

Lemma loop_n_add {S} a b (f : S -> S) s :
  loop_n (a + b) f s = loop_n b f (loop_n a f s).
Proof. revert s. induction a; intros s; cbn; auto. Qed.

(** A loop that advances a pointer by [step] and fills what it passes. *)
Lemma loop_filled g step (body : Z * mem -> Z * mem) (ok : Z -> Prop) :
  0 <= step ->
  (forall p m, ok p -> ok (p + step) /\ fst (body (p, m)) = p + step /\
               filled g p (p + step) m (snd (body (p, m)))) ->
  forall n p m, ok p ->
    fst (loop_n n body (p, m)) = p + step * Z.of_nat n /\
    filled g p (p + step * Z.of_nat n) m (snd (loop_n n body (p, m))).
Proof.
  intros Hs Hb. induction n as [|n IH]; intros p m Hp.
  - cbn [loop_n fst snd]. rewrite Z.mul_0_r, Z.add_0_r. split; [reflexivity|apply filled_refl].
  - rewrite loop_n_S. destruct (Hb p m Hp) as (Hok & Hf & Hm).
    destruct (body (p, m)) as [p' m'] eqn:E. cbn [fst snd] in *. subst p'.
    destruct (IH (p + step) m' Hok) as [H1 H2]. split.
    + rewrite H1. lia.
    + replace (p + step * Z.of_nat (S n)) with (p + step + step * Z.of_nat n) by lia.
      eapply filled_trans; eauto. nia.
Qed.

Lemma rep_movsb_from_filled src g : forall n esi edi m,
  (forall k, 0 <= k < Z.of_nat n -> src (esi + k) = g (edi + k)) ->
  filled g edi (edi + Z.of_nat n) m (rep_movsb_from src n esi edi m).
Proof.
  induction n as [|n IH]; intros esi edi m H.
  - cbn. rewrite Z.add_0_r. apply filled_refl.
  - cbn [rep_movsb_from].
    replace (edi + Z.of_nat (S n)) with (edi + 1 + Z.of_nat n) by lia.
    apply (filled_trans g edi (edi + 1) _ m (storeb m edi (src esi))); [lia| |].
    + apply filled_ext.
      * intros x Hx. assert (x = edi) as -> by lia. rewrite storeb_same.
        specialize (H 0). rewrite !Z.add_0_r in H. apply H. lia.
      * intros x Hx. apply storeb_other. lia.
    + apply IH. intros k Hk.
      replace (esi + 1 + k) with (esi + (k + 1)) by lia.
      replace (edi + 1 + k) with (edi + (k + 1)) by lia. apply H. lia.
Qed.

Lemma wr_rd_filled n src g q p m :
  (forall k, 0 <= k < Z.of_nat n -> src (q + k) = g (p + k)) ->
  filled g p (p + Z.of_nat n) m (wr n m p (rd n src q)).
Proof.
  intros H. apply filled_ext.
  - intros x Hx. replace x with (p + (x - p)) by lia.
    rewrite wr_inside by lia. rewrite rd_byte by lia. apply H. lia.
  - intros x Hx. apply wr_outside. lia.
Qed.

Lemma wr_filled n g p v m :
  (forall k, 0 <= k < Z.of_nat n -> g (p + k) = byte.of_Z (v / 2 ^ (8 * k))) ->
  filled g p (p + Z.of_nat n) m (wr n m p v).
Proof.
  intros H. apply filled_ext.
  - intros x Hx. replace x with (p + (x - p)) by lia.
    rewrite wr_inside by lia. symmetry. apply H. lia.
  - intros x Hx. apply wr_outside. lia.
Qed.

(** * Arrays_fill.h *)



Lemma sizeof_of_nat T : Z.of_nat (sizeof_nat T) = sizeof T.
Proof. reflexivity. Qed.

Lemma wr_fill_image T V pa p m :
  (p - pa) mod sizeof T = 0 ->
  filled (fill_image T V pa) p (p + sizeof T) m (wr (sizeof_nat T) m p V).
Proof.
  intros Hp. rewrite <- sizeof_of_nat. apply wr_filled. intros k Hk.
  rewrite sizeof_of_nat in Hk. unfold fill_image. do 3 f_equal.
  destruct (sizeof_cases T) as [E|[E|[E|E]]]; rewrite E in *;
    Z.div_mod_to_equations; lia.
Qed.

Lemma filler_fold T V : forall n f0,
  filled (fill_image T V 0) 0 (sizeof T * Z.of_nat n) f0
    (fold_left (fun f j => wr (sizeof_nat T) f (Z.of_nat (sizeof_nat T) * Z.of_nat j) V)
       (seq 0 n) f0).
Proof.
  induction n as [|n IH]; intros f0.
  - cbn. rewrite Z.mul_0_r. apply filled_refl.
  - rewrite seq_S, fold_left_app. cbn [fold_left Nat.add].
    eapply filled_trans; [| apply IH |].
    + pose proof (sizeof_cases T). nia.
    + rewrite sizeof_of_nat.
      replace (sizeof T * Z.of_nat (S n)) with (sizeof T * Z.of_nat n + sizeof T) by lia.
      apply wr_fill_image. rewrite Z.sub_0_r, Z.mul_comm. apply Z.mod_mul.
      pose proof (sizeof_cases T). lia.
Qed.

Lemma filler_init_spec T V j :
  0 <= j < 32 -> filler_init (sizeof_nat T) V j = fill_image T V 0 j.
Proof.
  intros Hj. unfold filler_init. rewrite (filler_fold T V).
  replace (sizeof T * Z.of_nat (32 / sizeof_nat T)) with 32 by (destruct T; reflexivity).
  destruct (Z.leb_spec 0 j), (Z.ltb_spec j 32); cbn; auto; lia.
Qed.

(** The filler agrees with the image wherever the offsets agree modulo
    the element size. *)
Lemma filler_image T V pa j x :
  0 <= j < 32 -> (x - pa - j) mod sizeof T = 0 ->
  filler_init (sizeof_nat T) V j = fill_image T V pa x.
Proof.
  intros Hj Hx. rewrite filler_init_spec by assumption. unfold fill_image.
  do 3 f_equal.
  destruct (sizeof_cases T) as [E|[E|[E|E]]]; rewrite E in *;
    Z.div_mod_to_equations; lia.
Qed.

Lemma store16_filler T V pa k d p m :
  0 <= d <= 16 -> (p - pa - d) mod 16 = 0 ->
  filled (fill_image T V pa) p (p + 16) m
    (store16 k m p (rd 16 (filler_init (sizeof_nat T) V) d)).
Proof.
  intros Hd Hp. unfold store16. apply (wr_rd_filled 16). intros j Hj.
  apply filler_image; [lia|].
  destruct (sizeof_cases T) as [E|[E|[E|E]]]; rewrite E in *;
    Z.div_mod_to_equations; lia.
Qed.

Lemma fill_block128_filled T V pa k d p m :
  0 <= d <= 16 -> (p - pa - d) mod 16 = 0 ->
  fst (fill_block128 k (rd 16 (filler_init (sizeof_nat T) V) d) (p, m)) = p + 128 /\
  filled (fill_image T V pa) p (p + 128) m
    (snd (fill_block128 k (rd 16 (filler_init (sizeof_nat T) V) d) (p, m))).
Proof.
  intros Hd Hp. split; [reflexivity|]. cbn [fill_block128 snd].
  assert (S16 : forall q m0, (q - pa - d) mod 16 = 0 ->
                  filled (fill_image T V pa) q (q + 16) m0
                    (store16 k m0 q (rd 16 (filler_init (sizeof_nat T) V) d)))
    by (intros; apply store16_filler; assumption).
  assert (A : forall c, 0 <= c -> (p + 16 * c - pa - d) mod 16 = 0)
    by (intros c Hc; Z.div_mod_to_equations; lia).
  eapply filled_trans with (mid := p + 112); [lia| |].
  2:{ replace (p + 128) with (p + 112 + 16) by lia. apply S16. apply (A 7). lia. }
  eapply filled_trans with (mid := p + 96); [lia| |].
  2:{ replace (p + 112) with (p + 96 + 16) by lia. apply S16. apply (A 6). lia. }
  eapply filled_trans with (mid := p + 80); [lia| |].
  2:{ replace (p + 96) with (p + 80 + 16) by lia. apply S16. apply (A 5). lia. }
  eapply filled_trans with (mid := p + 64); [lia| |].
  2:{ replace (p + 80) with (p + 64 + 16) by lia. apply S16. apply (A 4). lia. }
  eapply filled_trans with (mid := p + 48); [lia| |].
  2:{ replace (p + 64) with (p + 48 + 16) by lia. apply S16. apply (A 3). lia. }
  eapply filled_trans with (mid := p + 32); [lia| |].
  2:{ replace (p + 48) with (p + 32 + 16) by lia. apply S16. apply (A 2). lia. }
  eapply filled_trans with (mid := p + 16); [lia| |].
  2:{ replace (p + 32) with (p + 16 + 16) by lia. apply S16. apply (A 1). lia. }
  apply S16. assumption.
Qed.

(** The [__asm] block fills [lenStart + 16*len + lenEnd] bytes. *)
Lemma fill_asm_filled T V cs pa lenStart len lenEnd m :
  0 <= lenStart < 32 -> 0 <= len < 2 ^ 31 -> 0 <= lenEnd < 16 ->
  filled (fill_image T V pa) pa (pa + lenStart + 16 * len + lenEnd) m
    (snd (fill_asm (filler_init (sizeof_nat T) V) cs pa lenStart
            (Z.land lenStart 15) len lenEnd m)).
Proof.
  intros Hs Hl He. unfold fill_asm.
  rewrite !wrap32_small by lia.
  assert (Hd : Z.land lenStart 15 = lenStart mod 16) by (apply (land_mask _ 4); lia).
  assert (H7 : Z.land len 7 = len mod 8) by (apply (land_mask _ 3); lia).
  assert (H3 : Z.shiftr len 3 = len / 8) by (apply Z.shiftr_div_pow2; lia).
  rewrite Hd, H7, H3.
  set (d := lenStart mod 16).
  assert (Hdr : 0 <= d < 16) by (apply Z.mod_pos_bound; lia).
  set (xmm0 := rd 16 (filler_init (sizeof_nat T) V) d).
  set (g := fill_image T V pa).
  set (m1 := rep_movsb_from _ (Z.to_nat lenStart) 0 pa m).
  assert (F1 : filled g pa (pa + lenStart) m m1).
  { replace (pa + lenStart) with (pa + Z.of_nat (Z.to_nat lenStart)) by lia.
    apply rep_movsb_from_filled. intros k Hk. apply filler_image; [lia|].
    replace (pa + k - pa - (0 + k)) with 0 by lia. apply Z.mod_0_l.
    pose proof (sizeof_cases T). lia. }
  set (ok := fun p => (p - pa - d) mod 16 = 0).
  assert (ok0 : ok (pa + lenStart))
    by (subst ok d; cbv beta; Z.div_mod_to_equations; lia).
  assert (L128 : forall k n p m0, ok p ->
    fst (loop_n n (fill_block128 k xmm0) (p, m0)) = p + 128 * Z.of_nat n /\
    filled g p (p + 128 * Z.of_nat n) m0 (snd (loop_n n (fill_block128 k xmm0) (p, m0)))).
  { intros k. apply (loop_filled g 128 _ ok); [lia|]. intros p m0 Hp. split.
    - subst ok. cbv beta in *. Z.div_mod_to_equations; lia.
    - apply fill_block128_filled; [lia | exact Hp]. }
  assert (L16 : forall n p m0, ok p ->
    fst (loop_n n (fill_block16 xmm0) (p, m0)) = p + 16 * Z.of_nat n /\
    filled g p (p + 16 * Z.of_nat n) m0 (snd (loop_n n (fill_block16 xmm0) (p, m0)))).
  { apply (loop_filled g 16 _ ok); [lia|]. intros p m0 Hp. split.
    - subst ok. cbv beta in *. Z.div_mod_to_equations; lia.
    - split; [reflexivity|]. cbn [fill_block16 snd]. apply store16_filler; [lia | exact Hp]. }
  assert (Hq : 0 <= len / 8) by (apply Z.div_pos; lia).
  assert (Hr : 0 <= len mod 8 < 8) by (apply Z.mod_pos_bound; lia).
  pose proof (Z.div_mod len 8) as Hdm.
  (* the 128-byte loop *)
  assert (B1 : exists body m2,
    (if len / 8 =? 0 then (None, (pa + lenStart, m1))
     else if len / 8 <? cs
          then (Some Aligned, loop_n (Z.to_nat (len / 8)) (fill_block128 Aligned xmm0) (pa + lenStart, m1))
          else (Some NonTemporal, loop_n (Z.to_nat (len / 8)) (fill_block128 NonTemporal xmm0) (pa + lenStart, m1)))
    = (body, (pa + lenStart + 128 * (len / 8), m2)) /\
    filled g (pa + lenStart) (pa + lenStart + 128 * (len / 8)) m1 m2).
  { destruct (Z.eqb_spec (len / 8) 0) as [E|E].
    - exists None, m1. rewrite E, Z.mul_0_r, Z.add_0_r. split; [reflexivity|apply filled_refl].
    - destruct (len / 8 <? cs).
      + destruct (L128 Aligned (Z.to_nat (len / 8)) _ m1 ok0) as [Hf Hm].
        rewrite Z2Nat.id in Hf, Hm by lia.
        destruct (loop_n _ _ _) as [e2 m2]. cbn [fst snd] in *. subst e2.
        exists (Some Aligned), m2. auto.
      + destruct (L128 NonTemporal (Z.to_nat (len / 8)) _ m1 ok0) as [Hf Hm].
        rewrite Z2Nat.id in Hf, Hm by lia.
        destruct (loop_n _ _ _) as [e2 m2]. cbn [fst snd] in *. subst e2.
        exists (Some NonTemporal), m2. auto. }
  destruct B1 as (body & m2 & -> & F2).
  assert (ok2 : ok (pa + lenStart + 128 * (len / 8)))
    by (subst ok d; cbv beta; Z.div_mod_to_equations; lia).
  assert (B2 : exists m3,
    (if len mod 8 =? 0 then (pa + lenStart + 128 * (len / 8), m2)
     else loop_n (Z.to_nat (len mod 8)) (fill_block16 xmm0) (pa + lenStart + 128 * (len / 8), m2))
    = (pa + lenStart + 16 * len, m3) /\
    filled g (pa + lenStart + 128 * (len / 8)) (pa + lenStart + 16 * len) m2 m3).
  { destruct (Z.eqb_spec (len mod 8) 0) as [E|E].
    - exists m2. replace (pa + lenStart + 16 * len) with (pa + lenStart + 128 * (len / 8)) by lia.
      split; [reflexivity|apply filled_refl].
    - destruct (L16 (Z.to_nat (len mod 8)) _ m2 ok2) as [Hf Hm].
      rewrite Z2Nat.id in Hf, Hm by lia.
      destruct (loop_n _ _ _) as [e3 m3]. cbn [fst snd] in *. subst e3.
      exists m3.
      replace (pa + lenStart + 16 * len)
        with (pa + lenStart + 128 * (len / 8) + 16 * (len mod 8)) by lia. auto. }
  destruct B2 as (m3 & -> & F3).
  cbn [snd].
  eapply filled_trans with (mid := pa + lenStart + 16 * len); [lia| |].
  - eapply filled_trans with (mid := pa + lenStart + 128 * (len / 8)); [lia| |exact F3].
    eapply filled_trans with (mid := pa + lenStart); [lia|exact F1|exact F2].
  - replace (pa + lenStart + 16 * len + lenEnd)
      with (pa + lenStart + 16 * len + Z.of_nat (Z.to_nat lenEnd)) by lia.
    apply rep_movsb_from_filled. intros k Hk. apply filler_image; [lia|].
    destruct (sizeof_cases T) as [E|[E|[E|E]]]; rewrite E in *;
      subst d; Z.div_mod_to_equations; lia.
Qed.

Lemma fill_sse_filled T CpuInfo m a BeginIndex Len V :
  0 <= Len -> 32 < sizeof T * Len < 2 ^ 31 ->
  let pa := a + sizeof T * BeginIndex in
  filled (fill_image T V pa) pa (pa + sizeof T * Len) m
    (snd (fill_sse T CpuInfo m a BeginIndex Len V)).
Proof.
  intros HL Hb pa. unfold fill_sse. fold pa.
  assert (Hd : Z.land pa 31 = pa mod 32) by (apply (land_mask _ 5); lia).
  rewrite Hd.
  assert (Hdr : 0 <= pa mod 32 < 32) by (apply Z.mod_pos_bound; lia).
  rewrite (Z.mul_comm Len).
  rewrite (sint32_small (sizeof T * Len)) by lia.
  assert (tail : forall ls len1, 0 <= ls < 32 -> 0 <= len1 < 2 ^ 31 ->
            ls + len1 = sizeof T * Len ->
            filled (fill_image T V pa) pa (pa + sizeof T * Len) m
              (snd (let '(body, m0) :=
                      fill_asm (filler_init (sizeof_nat T) V) (cacheSize CpuInfo / 128)
                        pa ls (Z.land ls 15) (Z.quot len1 16) (Z.land len1 15) m in
                    (Vector SSE body, m0)))).
  { intros ls len1 Hls Hl1 Hsum.
    assert (H15 : Z.land len1 15 = len1 mod 16) by (apply (land_mask _ 4); lia).
    rewrite H15, Z.quot_div_nonneg by lia.
    assert (0 <= len1 mod 16 < 16) by (apply Z.mod_pos_bound; lia).
    assert (0 <= len1 / 16 <= len1).
    { split; [apply Z.div_pos; lia|]. apply Z.div_le_upper_bound; lia. }
    pose proof (fill_asm_filled T V (cacheSize CpuInfo / 128) pa ls (len1 / 16)
                  (len1 mod 16) m) as F.
    destruct (fill_asm _ _ _ _ _ _ _ _) as [body m0]. cbn [snd] in *.
    replace (pa + sizeof T * Len) with (pa + ls + 16 * (len1 / 16) + len1 mod 16).
    - apply F; lia.
    - pose proof (Z.div_mod len1 16). lia. }
  destruct (Z.eqb_spec (pa mod 32) 0) as [E|E]; cbv [negb].
  - apply (tail 0 (sizeof T * Len)); lia.
  - rewrite (sint32_small (sizeof T * Len - _)) by lia.
    apply (tail (32 - pa mod 32) (sizeof T * Len - (32 - pa mod 32))); lia.
Qed.

Lemma LOOP_PREFIX_eq n k Len :
  0 <= k <= 6 -> n = 2 ^ k -> 0 <= Len < 2 ^ 31 ->
  LOOP_PREFIX n Len = (Len / n, Len mod n).
Proof.
  intros Hk -> HL. unfold LOOP_PREFIX.
  rewrite wrap32_small, land_mask by lia.
  assert (1 <= 2 ^ k) by (pose proof (Z.pow_pos_nonneg 2 k); lia).
  assert (2 ^ k <= 2 ^ 6) by (apply Z.pow_le_mono_r; lia).
  assert (0 <= Len mod 2 ^ k < 2 ^ k) by (apply Z.mod_pos_bound; lia).
  assert (0 <= Len / 2 ^ k <= Len).
  { split; [apply Z.div_pos; lia|]. apply Z.div_le_upper_bound; nia. }
  rewrite !sint32_small by lia. reflexivity.
Qed.

Lemma fill_block8_filled T V pa p m :
  (p - pa) mod sizeof T = 0 ->
  fst (fill_block8 (sizeof_nat T) V (p, m)) = p + 8 * sizeof T /\
  filled (fill_image T V pa) p (p + 8 * sizeof T) m
    (snd (fill_block8 (sizeof_nat T) V (p, m))).
Proof.
  intros Hp. split; [reflexivity|]. cbn [fill_block8 snd].
  rewrite sizeof_of_nat. set (sz := sizeof T) in *.
  assert (Hsz : 0 < sz) by (subst sz; pose proof (sizeof_cases T); lia).
  assert (A : forall c, (p + c * sz - pa) mod sz = 0).
  { intros c. replace (p + c * sz - pa) with (p - pa + c * sz) by lia.
    rewrite Z.mod_add by lia. assumption. }
  assert (W : forall c q m0, q = p + c * sz ->
             filled (fill_image T V pa) q (q + sz) m0 (wr (sizeof_nat T) m0 q V)).
  { intros c q m0 ->. apply wr_fill_image. apply A. }
  eapply filled_trans with (mid := p + 7 * sz); [lia| |].
  2:{ replace (p + 8 * sz) with (p + 7 * sz + sz) by lia. apply (W 7). lia. }
  eapply filled_trans with (mid := p + 6 * sz); [lia| |].
  2:{ replace (p + 7 * sz) with (p + 6 * sz + sz) by lia. apply (W 6). lia. }
  eapply filled_trans with (mid := p + 5 * sz); [lia| |].
  2:{ replace (p + 6 * sz) with (p + 5 * sz + sz) by lia. apply (W 5). lia. }
  eapply filled_trans with (mid := p + 4 * sz); [lia| |].
  2:{ replace (p + 5 * sz) with (p + 4 * sz + sz) by lia. apply (W 4). lia. }
  eapply filled_trans with (mid := p + 3 * sz); [lia| |].
  2:{ replace (p + 4 * sz) with (p + 3 * sz + sz) by lia. apply (W 3). lia. }
  eapply filled_trans with (mid := p + 2 * sz); [lia| |].
  2:{ replace (p + 3 * sz) with (p + 2 * sz + sz) by lia. apply (W 2). lia. }
  eapply filled_trans with (mid := p + sz); [lia| |].
  2:{ replace (p + 2 * sz) with (p + sz + sz) by lia. apply (W 1). lia. }
  apply (W 0). lia.
Qed.

Lemma fill_scalar_filled T m a BeginIndex Len V :
  0 <= Len < 2 ^ 31 ->
  let pa := a + sizeof T * BeginIndex in
  filled (fill_image T V pa) pa (pa + sizeof T * Len) m
    (snd (fill_scalar T m a BeginIndex Len V)).
Proof.
  intros HL pa. unfold fill_scalar. fold pa.
  destruct (Z.eqb_spec (sizeof T) 1) as [E|E].
  - cbn [snd]. rewrite E, Z.mul_1_l, wrap32_small by lia.
    intros x. unfold memset, fill_image. rewrite E.
    destruct ((pa <=? x) && (x <? pa + Len)); [|reflexivity].
    rewrite Z.mod_1_r, Z.div_1_r. reflexivity.
  - rewrite (LOOP_PREFIX_eq 8 3) by (lia || reflexivity).
    assert (Hsz : 0 < sizeof T) by (pose proof (sizeof_cases T); lia).
    set (ok := fun p => (p - pa) mod sizeof T = 0).
    assert (ok0 : ok pa) by (subst ok; cbv beta; rewrite Z.sub_diag; apply Z.mod_0_l; lia).
    assert (Hq : 0 <= Len / 8) by (apply Z.div_pos; lia).
    assert (Hr : 0 <= Len mod 8 < 8) by (apply Z.mod_pos_bound; lia).
    pose proof (Z.div_mod Len 8) as Hdm.
    destruct (loop_filled (fill_image T V pa) (8 * sizeof T)
                (fill_block8 (sizeof_nat T) V) ok) with (n := Z.to_nat (Len / 8))
                (p := pa) (m := m) as [Hf Hm]; [lia| |exact ok0|].
    { intros p m0 Hp. split.
      - subst ok. cbv beta in *.
        replace (p + 8 * sizeof T - pa) with (p - pa + 8 * sizeof T) by lia.
        rewrite Z.mod_add by lia. assumption.
      - apply fill_block8_filled. exact Hp. }
    destruct (loop_n (Z.to_nat (Len / 8)) _ _) as [p1 m1]. cbn [fst snd] in Hf, Hm.
    rewrite Z2Nat.id in Hf, Hm by lia. subst p1.
    assert (ok1 : ok (pa + 8 * sizeof T * (Len / 8))).
    { subst ok. cbv beta.
      replace (pa + 8 * sizeof T * (Len / 8) - pa) with (8 * (Len / 8) * sizeof T) by lia.
      apply Z.mod_mul. lia. }
    destruct (loop_filled (fill_image T V pa) (sizeof T)
                (fill_tail1 (sizeof_nat T) V) ok) with (n := Z.to_nat (Len mod 8))
                (p := pa + 8 * sizeof T * (Len / 8)) (m := m1) as [Hf2 Hm2];
      [lia| |exact ok1|].
    { intros p m0 Hp. split; [|split; [reflexivity|]].
      - subst ok. cbv beta in *.
        replace (p + sizeof T - pa) with (p - pa + 1 * sizeof T) by lia.
        rewrite Z.mod_add by lia. assumption.
      - cbn [fill_tail1 snd]. apply wr_fill_image. exact Hp. }
    rewrite Z2Nat.id in Hm2 by lia.
    eapply filled_trans; [|exact Hm|].
    + nia.
    + replace (pa + sizeof T * Len)
        with (pa + 8 * sizeof T * (Len / 8) + sizeof T * (Len mod 8)) by lia.
      exact Hm2.
Qed.

(** [fill], every descriptor: the range holds the image of [V], the rest
    of memory is as before. *)
Lemma fill_filled T CpuInfo m a BeginIndex EndIndex V :
  a <> 0 -> 0 <= BeginIndex <= EndIndex -> EndIndex < 2 ^ 31 ->
  sizeof T * (EndIndex - BeginIndex) < 2 ^ 31 ->
  let pa := a + sizeof T * BeginIndex in
  filled (fill_image T V pa) pa (pa + sizeof T * (EndIndex - BeginIndex)) m
    (snd (fill T CpuInfo m a BeginIndex EndIndex V)).
Proof.
  intros Ha HB HE Hsz pa. unfold fill.
  rewrite sint32_small by lia.
  destruct (Z.eqb_spec a 0); [contradiction|].
  set (Len := EndIndex - BeginIndex) in *.
  assert (Hs : 0 < sizeof T) by (pose proof (sizeof_cases T); lia).
  rewrite (wrap32_small (Len * sizeof T)) by nia.
  destruct (has_flag CpuInfo CPU_SSE); cbn [andb].
  - destruct (Z.gtb_spec (Len * sizeof T) 32).
    + apply fill_sse_filled; lia.
    + apply fill_scalar_filled; lia.
  - apply fill_scalar_filled; lia.
Qed.

Lemma fill_read T CpuInfo m a BeginIndex EndIndex V i :
  a <> 0 -> 0 <= BeginIndex <= EndIndex -> EndIndex < 2 ^ 31 ->
  sizeof T * (EndIndex - BeginIndex) < 2 ^ 31 ->
  BeginIndex <= i < EndIndex ->
  elem T (snd (fill T CpuInfo m a BeginIndex EndIndex V)) a i = V mod 2 ^ (8 * sizeof T).
Proof.
  intros Ha HB HE Hsz Hi. unfold elem. rewrite <- sizeof_of_nat at 2.
  apply rd_bytes. intros k Hk. rewrite sizeof_of_nat in Hk.
  rewrite (fill_filled T CpuInfo m a BeginIndex EndIndex V) by assumption.
  assert (Hs : 0 < sizeof T) by (pose proof (sizeof_cases T); lia).
  destruct (Z.leb_spec (a + sizeof T * BeginIndex) (a + sizeof T * i + k));
    [|nia].
  destruct (Z.ltb_spec (a + sizeof T * i + k)
              (a + sizeof T * BeginIndex + sizeof T * (EndIndex - BeginIndex)));
    [|nia].
  cbn [andb]. unfold fill_image. do 3 f_equal.
  replace (a + sizeof T * i + k - (a + sizeof T * BeginIndex))
    with (k + (i - BeginIndex) * sizeof T) by lia.
  rewrite Z.mod_add by lia. rewrite Z.mod_small by lia. reflexivity.
Qed.

(** * copyBytes *)



Lemma memmove_filled m dst src n :
  filled (move_image m src dst) dst (dst + n) m (memmove m dst src n).
Proof. intros x. reflexivity. Qed.



Section Forward.
Variables (m0 : mem) (src dst L : Z).
Hypothesis safe : forward_safe src dst L.
Abbreviation g := (move_image m0 src dst).

(** After [t] bytes the unread part of the source is intact. *)
Lemma unread_intact t m1 k :
  filled g dst (dst + t) m0 m1 -> 0 <= t -> t <= k < L ->
  m1 (src + k) = m0 (src + k).
Proof.
  intros F Ht Hk. rewrite F.
  destruct (Z.leb_spec dst (src + k)), (Z.ltb_spec (src + k) (dst + t)); cbn; auto.
  unfold forward_safe in safe. lia.
Qed.

Lemma rep_movsb_forward : forall n t m1,
  filled g dst (dst + t) m0 m1 -> 0 <= t -> t + Z.of_nat n <= L ->
  filled g dst (dst + (t + Z.of_nat n)) m0 (rep_movsb n (src + t) (dst + t) m1).
Proof.
  induction n as [|n IH]; intros t m1 F Ht Hn.
  - cbn [rep_movsb]. rewrite Z.add_0_r. exact F.
  - cbn [rep_movsb].
    replace (t + Z.of_nat (S n)) with (t + 1 + Z.of_nat n) by lia.
    replace (src + t + 1) with (src + (t + 1)) by lia.
    replace (dst + t + 1) with (dst + (t + 1)) by lia.
    apply IH; [|lia|lia].
    eapply filled_trans with (mid := dst + t); [lia|exact F|].
    apply filled_ext.
    + intros x Hx. assert (x = dst + t) as -> by lia. rewrite storeb_same.
      rewrite (unread_intact t m1 t F) by lia.
      unfold move_image. f_equal. lia.
    + intros x Hx. apply storeb_other. lia.
Qed.

Lemma copy_block64_forward k t m1 :
  filled g dst (dst + t) m0 m1 -> 0 <= t -> t + 64 <= L ->
  copy_block64 k (src + t, dst + t, m1) =
    (src + (t + 64), dst + (t + 64), snd (copy_block64 k (src + t, dst + t, m1))) /\
  filled g dst (dst + (t + 64)) m0 (snd (copy_block64 k (src + t, dst + t, m1))).
Proof.
  intros F Ht Hn. split.
  { cbn [copy_block64 snd]. rewrite <- !Z.add_assoc. reflexivity. }
  cbn [copy_block64 snd]. unfold store16.
  assert (W : forall j mc, 0 <= j -> j + 16 <= 64 ->
            filled g (dst + t + j) (dst + t + j + 16) mc
              (wr 16 mc (dst + t + j) (rd 16 m1 (src + t + j)))).
  { intros j mc Hj Hj'. apply (wr_rd_filled 16). intros i Hi.
    replace (src + t + j + i) with (src + (t + j + i)) by lia.
    rewrite (unread_intact t m1 (t + j + i) F) by lia.
    unfold move_image. f_equal. lia. }
  eapply filled_trans with (mid := dst + t); [lia|exact F|].
  eapply filled_trans with (mid := dst + t + 48); [lia| |].
  2:{ replace (dst + (t + 64)) with (dst + t + 48 + 16) by lia. apply W; lia. }
  eapply filled_trans with (mid := dst + t + 32); [lia| |].
  2:{ replace (dst + t + 48) with (dst + t + 32 + 16) by lia. apply W; lia. }
  eapply filled_trans with (mid := dst + t + 16); [lia| |].
  2:{ replace (dst + t + 32) with (dst + t + 16 + 16) by lia. apply W; lia. }
  pose proof (W 0 m1) as W0. rewrite !Z.add_0_r in W0. apply W0; lia.
Qed.

Lemma copy_loop_forward k : forall n t m1,
  filled g dst (dst + t) m0 m1 -> 0 <= t -> t + 64 * Z.of_nat n <= L ->
  exists m2,
    loop_n n (copy_block64 k) (src + t, dst + t, m1) =
      (src + (t + 64 * Z.of_nat n), dst + (t + 64 * Z.of_nat n), m2) /\
    filled g dst (dst + (t + 64 * Z.of_nat n)) m0 m2.
Proof.
  induction n as [|n IH]; intros t m1 F Ht Hn.
  - exists m1. cbn [loop_n]. rewrite Z.mul_0_r, Z.add_0_r. auto.
  - rewrite loop_n_S.
    destruct (copy_block64_forward k t m1 F Ht) as [E F']; [lia|].
    rewrite E. destruct (IH (t + 64) _ F') as (m2 & E2 & F2); [lia|lia|].
    exists m2. rewrite E2.
    replace (t + 64 * Z.of_nat (S n)) with (t + 64 + 64 * Z.of_nat n) by lia.
    auto.
Qed.

(** The [__asm] block of [copyBytes] moves [lenStart + 64*len + lenEnd]
    bytes when that is all of [L]. *)
Lemma copy_asm_forward nc lenStart len lenEnd :
  0 <= lenStart < 2 ^ 32 -> 0 <= len < 2 ^ 32 -> 0 <= lenEnd < 2 ^ 32 ->
  lenStart + 64 * len + lenEnd = L ->
  filled g dst (dst + L) m0 (snd (copy_asm nc src dst lenStart len lenEnd m0)).
Proof.
  intros Hs Hl He HL. unfold copy_asm. rewrite !wrap32_small by lia.
  pose proof (rep_movsb_forward (Z.to_nat lenStart) 0 m0) as F1.
  rewrite !Z.add_0_r, Z.add_0_l, Z2Nat.id in F1 by lia.
  specialize (F1 (filled_refl g dst m0)).
  set (m1 := rep_movsb (Z.to_nat lenStart) src dst m0) in *.
  assert (F1' : filled g dst (dst + lenStart) m0 m1) by (apply F1; lia).
  clear F1.
  assert (B : exists body m2,
    (if len =? 0 then (None, (src + lenStart, dst + lenStart, m1))
     else if negb (Z.land (src + lenStart) 15 =? 0) || negb (Z.land (dst + lenStart) 15 =? 0)
     then (Some Unaligned, loop_n (Z.to_nat len) (copy_block64 Unaligned) (src + lenStart, dst + lenStart, m1))
     else if len <? nc
     then (Some Aligned, loop_n (Z.to_nat len) (copy_block64 Aligned) (src + lenStart, dst + lenStart, m1))
     else (Some NonTemporal, loop_n (Z.to_nat len) (copy_block64 NonTemporal) (src + lenStart, dst + lenStart, m1)))
    = (body, (src + (lenStart + 64 * len), dst + (lenStart + 64 * len), m2)) /\
    filled g dst (dst + (lenStart + 64 * len)) m0 m2).
  { assert (LP : forall k, exists m2,
      loop_n (Z.to_nat len) (copy_block64 k) (src + lenStart, dst + lenStart, m1) =
        (src + (lenStart + 64 * len), dst + (lenStart + 64 * len), m2) /\
      filled g dst (dst + (lenStart + 64 * len)) m0 m2).
    { intros k. destruct (copy_loop_forward k (Z.to_nat len) lenStart m1 F1')
        as (m2 & E & F); [lia|rewrite Z2Nat.id by lia; lia|].
      rewrite Z2Nat.id in E, F by lia. eauto. }
    destruct (Z.eqb_spec len 0) as [E|E].
    - exists None, m1. subst len. rewrite Z.mul_0_r, Z.add_0_r. auto.
    - destruct (negb _ || negb _).
      + destruct (LP Unaligned) as (m2 & -> & F). eauto.
      + destruct (len <? nc).
        * destruct (LP Aligned) as (m2 & -> & F). eauto.
        * destruct (LP NonTemporal) as (m2 & -> & F). eauto. }
  destruct B as (body & m2 & -> & F2). cbn [snd].
  replace (dst + L) with (dst + (lenStart + 64 * len + Z.of_nat (Z.to_nat lenEnd))) by lia.
  apply rep_movsb_forward; [exact F2|lia|lia].
Qed.
End Forward.

Lemma copyBytes_sse_forward CpuInfo m a Aofs b Bofs Len :
  0 <= Len < 2 ^ 31 -> forward_safe (a + Aofs) (b + Bofs) Len ->
  filled (move_image m (a + Aofs) (b + Bofs)) (b + Bofs) (b + Bofs + Len) m
    (snd (copyBytes_sse CpuInfo m a Aofs b Bofs Len)).
Proof.
  intros HL Hsafe. unfold copyBytes_sse.
  destruct (LOOP_PREFIX_ALIGNED 64 1 (b + Bofs) Len) as [[lenStart len] lenEnd] eqn:E.
  apply LOOP_PREFIX_ALIGNED_spec in E; [|auto|auto|lia].
  destruct E as (Hs & Hl & He & Hsum & _).
  change (64 / 1) with 64 in Hsum.
  pose proof (copy_asm_forward m (a + Aofs) (b + Bofs) Len Hsafe
                (cacheSize CpuInfo / 64 / 2) lenStart len lenEnd) as F.
  destruct (copy_asm _ _ _ _ _ _ _) as [body m']. cbn [snd] in *.
  apply F; lia.
Qed.

(** [copyBytes] under any descriptor, for ranges a forward copy is safe
    on: the result is that of [memmove]. *)
Lemma copyBytes_forward CpuInfo m a Aofs b Bofs Len x :
  a <> 0 -> b <> 0 -> 0 <= Len < 2 ^ 31 ->
  forward_safe (a + Aofs) (b + Bofs) Len ->
  snd (copyBytes CpuInfo m a Aofs b Bofs Len) x = memmove m (b + Bofs) (a + Aofs) Len x.
Proof.
  intros Ha Hb HL Hsafe. unfold copyBytes.
  destruct (Z.eqb_spec a 0); [contradiction|].
  destruct (Z.eqb_spec b 0); [contradiction|]. cbn [orb].
  destruct (has_flag CpuInfo CPU_SSE).
  - rewrite (copyBytes_sse_forward CpuInfo m a Aofs b Bofs Len HL Hsafe).
    reflexivity.
  - cbn [snd]. rewrite wrap32_small by lia. reflexivity.
Qed.

(** * Element-wise kernels *)

Lemma sizeof_pos T : 0 < sizeof T.
Proof. pose proof (sizeof_cases T). lia. Qed.

Lemma pointwise_refl w F pa pb m : pointwise w F pa pb 0 m m.
Proof. split; [intros; lia | reflexivity]. Qed.

Lemma pointwise_ext w F G pa pb n m m' :
  (forall i x y, 0 <= i < n -> F i x y = G i x y) ->
  pointwise w F pa pb n m m' -> pointwise w G pa pb n m m'.
Proof.
  intros E [H1 H2]. split; [|exact H2]. intros i Hi. rewrite H1, E by lia. reflexivity.
Qed.

(** Sequencing: [n1] elements, then [n2] more. *)
Lemma pointwise_app w F pa pb n1 n2 m m1 m2 :
  0 <= n1 -> 0 <= n2 -> apart pa pb (Z.of_nat w * (n1 + n2)) ->
  pointwise w F pa pb n1 m m1 ->
  pointwise w (fun i => F (n1 + i)) (pa + Z.of_nat w * n1) (pb + Z.of_nat w * n1) n2 m1 m2 ->
  pointwise w F pa pb (n1 + n2) m m2.
Proof.
  intros Hn1 Hn2 Hap [A1 A2] [B1 B2]. split.
  - intros i Hi. destruct (Z.ltb_spec i n1).
    + rewrite <- A1 by lia. apply rd_ext. intros k Hk. apply B2. nia.
    + specialize (B1 (i - n1)).
      replace (pa + Z.of_nat w * n1 + Z.of_nat w * (i - n1)) with (pa + Z.of_nat w * i) in B1 by lia.
      replace (pb + Z.of_nat w * n1 + Z.of_nat w * (i - n1)) with (pb + Z.of_nat w * i) in B1 by lia.
      replace (n1 + (i - n1)) with i in B1 by lia.
      rewrite B1 by lia. f_equal.
      * apply rd_ext. intros k Hk. apply A2. nia.
      * apply rd_ext. intros k Hk. apply A2. unfold apart in Hap. nia.
  - intros x Hx. rewrite B2, A2 by nia. reflexivity.
Qed.

(** A loop whose turn handles [k] elements. *)
Lemma loop_pointwise w F k (body : Z * Z * mem -> Z * Z * mem) :
  0 <= k ->
  (forall pa pb m base, apart pa pb (Z.of_nat w * k) ->
     exists m', body (pa, pb, m) = (pa + Z.of_nat w * k, pb + Z.of_nat w * k, m') /\
                pointwise w (fun i => F (base + i)) pa pb k m m') ->
  forall n pa pb m base, apart pa pb (Z.of_nat w * (k * Z.of_nat n)) ->
    exists m', loop_n n body (pa, pb, m) =
                 (pa + Z.of_nat w * (k * Z.of_nat n), pb + Z.of_nat w * (k * Z.of_nat n), m') /\
               pointwise w (fun i => F (base + i)) pa pb (k * Z.of_nat n) m m'.
Proof.
  intros Hk Hb.
  induction n as [|n IH]; intros pa pb m base Hap.
  - exists m. cbn [loop_n]. rewrite !Z.mul_0_r, !Z.add_0_r.
    split; [reflexivity|apply pointwise_refl].
  - rewrite loop_n_S.
    destruct (Hb pa pb m base) as (m1 & E1 & P1).
    { unfold apart in *. nia. }
    rewrite E1.
    destruct (IH (pa + Z.of_nat w * k) (pb + Z.of_nat w * k) m1 (base + k)) as (m2 & E2 & P2).
    { unfold apart in *. nia. }
    exists m2. split.
    + rewrite E2.
      replace (pa + Z.of_nat w * (k * Z.of_nat (S n)))
        with (pa + Z.of_nat w * k + Z.of_nat w * (k * Z.of_nat n)) by lia.
      replace (pb + Z.of_nat w * (k * Z.of_nat (S n)))
        with (pb + Z.of_nat w * k + Z.of_nat w * (k * Z.of_nat n)) by lia.
      reflexivity.
    + replace (k * Z.of_nat (S n)) with (k + k * Z.of_nat n) by lia.
      eapply (pointwise_app w _ pa pb k (k * Z.of_nat n) m m1 m2);
        [lia | lia | | exact P1 | ].
      * replace (k + k * Z.of_nat n) with (k * Z.of_nat (S n)) by lia. exact Hap.
      * eapply pointwise_ext; [|exact P2]. intros i x y _. cbv beta.
        replace (base + k + i) with (base + (k + i)) by lia. reflexivity.
Qed.

(** ** The scalar statement *)

Lemma cmp_store_pointwise T c pa pb m k :
  pointwise (sizeof_nat T) (fun _ => pick T c) (pa + sizeof T * k) (pb + sizeof T * k) 1 m
    (cmp_store T c pa pb m k).
Proof.
  pose proof (sizeof_pos T) as Hs. unfold cmp_store, pick. split.
  - intros i Hi. assert (i = 0) as -> by lia. rewrite !Z.mul_0_r, !Z.add_0_r.
    destruct (c_cmp T c _ _); [|reflexivity].
    rewrite rd_wr_same. apply Z.mod_small. apply rd_range.
  - intros x Hx. destruct (c_cmp T c _ _); [|reflexivity].
    apply wr_outside. unfold sizeof in *. lia.
Qed.

Lemma cmp_step_pointwise T c pa pb m base :
  exists m', cmp_step T c (pa, pb, m) =
               (pa + Z.of_nat (sizeof_nat T) * 1, pb + Z.of_nat (sizeof_nat T) * 1, m') /\
             pointwise (sizeof_nat T) (fun i => (fun _ => pick T c) (base + i)) pa pb 1 m m'.
Proof.
  eexists. split.
  - unfold cmp_step. fold (sizeof T). rewrite !Z.mul_1_r. reflexivity.
  - pose proof (cmp_store_pointwise T c pa pb m 0) as P.
    rewrite !Z.mul_0_r, !Z.add_0_r in P. exact P.
Qed.

Lemma body32_fold T c pa pb : forall n m,
  apart pa pb (sizeof T * Z.of_nat n) ->
  pointwise (sizeof_nat T) (fun _ => pick T c) pa pb (Z.of_nat n) m
    (fold_left (cmp_store T c pa pb) (map Z.of_nat (seq 0 n)) m).
Proof.
  pose proof (sizeof_pos T) as Hs.
  induction n as [|n IH]; intros m Hap.
  - cbn. apply pointwise_refl.
  - rewrite seq_S, map_app, fold_left_app. cbn [map fold_left Nat.add].
    replace (Z.of_nat (S n)) with (Z.of_nat n + 1) by lia.
    eapply pointwise_app; [lia|lia| | apply IH | apply cmp_store_pointwise].
    + replace (Z.of_nat n + 1) with (Z.of_nat (S n)) by lia. exact Hap.
    + unfold apart in *. nia.
Qed.

Lemma body32_pointwise T c pa pb m base :
  apart pa pb (Z.of_nat (sizeof_nat T) * 32) ->
  exists m', body32 T c (pa, pb, m) =
               (pa + Z.of_nat (sizeof_nat T) * 32, pb + Z.of_nat (sizeof_nat T) * 32, m') /\
             pointwise (sizeof_nat T) (fun i => (fun _ => pick T c) (base + i)) pa pb 32 m m'.
Proof.
  intros Hap. eexists. split.
  - unfold body32. fold (sizeof T). rewrite !(Z.mul_comm 32). reflexivity.
  - apply (body32_fold T c pa pb 32 m). exact Hap.
Qed.

(** The scalar head and tail loops. *)
Lemma cmp_loop_pointwise T c n pa pb m :
  apart pa pb (sizeof T * Z.of_nat n) ->
  exists m', loop_n n (cmp_step T c) (pa, pb, m) =
               (pa + sizeof T * Z.of_nat n, pb + sizeof T * Z.of_nat n, m') /\
             pointwise (sizeof_nat T) (fun _ => pick T c) pa pb (Z.of_nat n) m m'.
Proof.
  intros Hap.
  assert (B1 : forall pa pb m base, apart pa pb (Z.of_nat (sizeof_nat T) * 1) ->
     exists m', cmp_step T c (pa, pb, m) =
                  (pa + Z.of_nat (sizeof_nat T) * 1, pb + Z.of_nat (sizeof_nat T) * 1, m') /\
                pointwise (sizeof_nat T) (fun i => (fun _ => pick T c) (base + i)) pa pb 1 m m')
    by (intros pa0 pb0 m0 base0 _; exact (cmp_step_pointwise T c pa0 pb0 m0 base0)).
  pose proof (loop_pointwise (sizeof_nat T) (fun _ => pick T c) 1 (cmp_step T c)
                ltac:(lia) B1 n pa pb m 0) as L.
  rewrite !Z.mul_1_l in L. apply L. exact Hap.
Qed.

(** [MINBODY_LOOP] / [MAXBODY_LOOP]. *)
Lemma BODY_LOOP_pointwise T c m a Aofs b Bofs Len :
  0 <= Len < 2 ^ 31 ->
  apart (a + sizeof T * Aofs) (b + sizeof T * Bofs) (sizeof T * Len) ->
  pointwise (sizeof_nat T) (fun _ => pick T c) (a + sizeof T * Aofs) (b + sizeof T * Bofs) Len m
    (BODY_LOOP T c m a Aofs b Bofs Len).
Proof.
  intros HL Hap. pose proof (sizeof_pos T) as Hs. unfold BODY_LOOP.
  rewrite (LOOP_PREFIX_eq 32 5) by (lia || reflexivity). cbv zeta.
  set (pa := a + sizeof T * Aofs) in *. set (pb := b + sizeof T * Bofs) in *.
  assert (Hq : 0 <= Len / 32) by (apply Z.div_pos; lia).
  assert (Hr : 0 <= Len mod 32 < 32) by (apply Z.mod_pos_bound; lia).
  pose proof (Z.div_mod Len 32) as Hdm.
  assert (B32 : forall pa pb m base, apart pa pb (Z.of_nat (sizeof_nat T) * 32) ->
     exists m', body32 T c (pa, pb, m) =
                  (pa + Z.of_nat (sizeof_nat T) * 32, pb + Z.of_nat (sizeof_nat T) * 32, m') /\
                pointwise (sizeof_nat T) (fun i => (fun _ => pick T c) (base + i)) pa pb 32 m m')
    by (intros pa0 pb0 m0 base0 H0; exact (body32_pointwise T c pa0 pb0 m0 base0 H0)).
  pose proof (loop_pointwise (sizeof_nat T) (fun _ => pick T c) 32 (body32 T c) ltac:(lia) B32
                (Z.to_nat (Len / 32)) pa pb m 0) as L1.
  rewrite Z2Nat.id in L1 by lia. fold (sizeof T) in L1.
  destruct L1 as (m1 & E1 & P1); [unfold apart in *; nia|].
  rewrite E1.
  destruct (cmp_loop_pointwise T c (Z.to_nat (Len mod 32)) (pa + sizeof T * (32 * (Len / 32)))
              (pb + sizeof T * (32 * (Len / 32))) m1) as (m2 & E2 & P2).
  { unfold apart in *. rewrite Z2Nat.id by lia. nia. }
  rewrite E2. cbn [snd]. rewrite Z2Nat.id in P2 by lia.
  assert (G : pointwise (sizeof_nat T) (fun _ => pick T c) pa pb
                (32 * (Len / 32) + Len mod 32) m m2).
  { eapply pointwise_app; [lia|lia| |exact P1|exact P2].
    fold (sizeof T). unfold apart in *. nia. }
  replace (32 * (Len / 32) + Len mod 32) with Len in G by lia. exact G.
Qed.

(** * Lanes *)

Lemma lane_range w x i : 0 <= lane w x i < 2 ^ (8 * Z.of_nat w).
Proof. unfold lane. apply Z.mod_pos_bound. apply Z.pow_pos_nonneg; lia. Qed.

Lemma lane_testbit w x i j :
  0 <= j ->
  Z.testbit (lane w x i) j =
  (j <? 8 * Z.of_nat w) && Z.testbit x (8 * Z.of_nat w * Z.of_nat i + j).
Proof.
  intros Hj. unfold lane.
  destruct (Z.ltb_spec j (8 * Z.of_nat w)).
  - rewrite Z.mod_pow2_bits_low by lia.
    rewrite Z.div_pow2_bits by lia. cbn [andb]. f_equal. lia.
  - rewrite Z.mod_pow2_bits_high by lia. reflexivity.
Qed.

Lemma lane_pack w : forall l i,
  (i < length l)%nat -> lane w (pack w l) i = nth i l 0 mod 2 ^ (8 * Z.of_nat w).
Proof.
  set (B := 2 ^ (8 * Z.of_nat w)).
  assert (HB : 0 < B) by (apply Z.pow_pos_nonneg; lia).
  induction l as [|v t IH]; intros i Hi; [cbn in Hi; lia|].
  cbn [pack nth]. fold B. destruct i as [|i].
  - unfold lane. fold B. rewrite Z.mul_0_r, Z.div_1_r.
    replace (v mod B + B * pack w t) with (v mod B + pack w t * B) by lia.
    rewrite Z.mod_add by lia. apply Z.mod_mod. lia.
  - rewrite <- IH by (cbn in Hi; lia). unfold lane. fold B. f_equal.
    replace (8 * Z.of_nat w * Z.of_nat (S i))
      with (8 * Z.of_nat w + 8 * Z.of_nat w * Z.of_nat i) by lia.
    rewrite Z.pow_add_r by lia. fold B.
    rewrite <- Z.div_div by (try apply Z.pow_pos_nonneg; lia). f_equal.
    replace (v mod B + B * pack w t) with (v mod B + pack w t * B) by lia.
    rewrite Z.div_add by lia.
    rewrite (Z.div_small (v mod B)) by (apply Z.mod_pos_bound; lia). lia.
Qed.

Lemma lane_lanewise w n f x y i :
  (i < n)%nat ->
  lane w (lanewise w n f x y) i = f (lane w x i) (lane w y i) mod 2 ^ (8 * Z.of_nat w).
Proof.
  intros Hi. unfold lanewise. rewrite lane_pack by (rewrite length_map, length_seq; lia).
  f_equal. set (g := fun i => f (lane w x i) (lane w y i)).
  rewrite (nth_indep _ 0 (g 0%nat)) by (rewrite length_map, length_seq; lia).
  rewrite (map_nth g), seq_nth by lia. reflexivity.
Qed.

Lemma lane_rd w n m p i :
  Z.of_nat w * (Z.of_nat i + 1) <= Z.of_nat n ->
  lane w (rd n m p) i = rd w m (p + Z.of_nat w * Z.of_nat i).
Proof.
  intros H. unfold lane.
  replace (8 * Z.of_nat w * Z.of_nat i) with (8 * (Z.of_nat w * Z.of_nat i)) by lia.
  apply rd_sub; lia.
Qed.

Lemma rd_wr_lane w n m p X i :
  Z.of_nat w * (Z.of_nat i + 1) <= Z.of_nat n ->
  rd w (wr n m p X) (p + Z.of_nat w * Z.of_nat i) = lane w X i.
Proof.
  intros H. unfold lane.
  replace (8 * Z.of_nat w * Z.of_nat i) with (8 * (Z.of_nat w * Z.of_nat i)) by lia.
  apply rd_wr_sub; lia.
Qed.

Lemma pow_sub1_ones n : 2 ^ n - 1 = Z.ones n.
Proof. rewrite Z.ones_equiv. lia. Qed.

Lemma lane_pxor w x y i : lane w (pxor x y) i = Z.lxor (lane w x i) (lane w y i).
Proof.
  apply Z.bits_inj'. intros j Hj. unfold pxor.
  rewrite Z.lxor_spec, !lane_testbit, Z.lxor_spec by lia.
  destruct (j <? 8 * Z.of_nat w); reflexivity.
Qed.

(** The compare-and-select idiom [pand v1,M; pandn M,v0; por v1,M]. *)
Lemma lane_select w M v0 v1 i :
  lane w (por (pand v1 M) (pandn M v0)) i =
  Z.lor (Z.land (lane w v1 i) (lane w M i))
        (Z.land (Z.lxor (lane w M i) (2 ^ (8 * Z.of_nat w) - 1)) (lane w v0 i)).
Proof.
  apply Z.bits_inj'. intros j Hj. unfold por, pand, pandn.
  rewrite !Z.lor_spec, !Z.land_spec, Z.lxor_spec, !lane_testbit by lia.
  rewrite !Z.lor_spec, !Z.land_spec, Z.lnot_spec by lia.
  destruct (Z.ltb_spec j (8 * Z.of_nat w)); cbn [andb];
    [|rewrite andb_false_r; reflexivity].
  replace (Z.testbit (2 ^ (8 * Z.of_nat w) - 1) j) with true.
  - rewrite xorb_true_r. reflexivity.
  - symmetry. rewrite pow_sub1_ones. apply Z.ones_spec_low. lia.
Qed.

Lemma lane_select_ones w M v0 v1 i :
  lane w M i = 2 ^ (8 * Z.of_nat w) - 1 ->
  lane w (por (pand v1 M) (pandn M v0)) i = lane w v1 i.
Proof.
  intros HM. rewrite lane_select, HM, Z.lxor_nilpotent, Z.land_0_l, Z.lor_0_r.
  rewrite pow_sub1_ones, Z.land_ones by lia.
  apply Z.mod_small, lane_range.
Qed.

Lemma lane_select_zero w M v0 v1 i :
  lane w M i = 0 ->
  lane w (por (pand v1 M) (pandn M v0)) i = lane w v0 i.
Proof.
  intros HM. rewrite lane_select, HM, Z.land_0_r, Z.lor_0_l, Z.lxor_0_l.
  rewrite Z.land_comm, pow_sub1_ones, Z.land_ones by lia.
  apply Z.mod_small, lane_range.
Qed.

(** ** Sign bias *)

Lemma lxor_top n x :
  0 < n -> 0 <= x < 2 ^ n ->
  Z.lxor x (2 ^ (n - 1)) = if x <? 2 ^ (n - 1) then x + 2 ^ (n - 1) else x - 2 ^ (n - 1).
Proof.
  intros Hn Hx.
  assert (Hp : 0 < 2 ^ (n - 1)) by (apply Z.pow_pos_nonneg; lia).
  assert (H2 : 2 ^ n = 2 * 2 ^ (n - 1)).
  { replace n with (1 + (n - 1)) at 1 by lia. rewrite Z.pow_add_r by lia. reflexivity. }
  assert (Hb : Z.testbit x (n - 1) = negb (x <? 2 ^ (n - 1))).
  { destruct (Z.ltb_spec x (2 ^ (n - 1))); cbn [negb].
    - apply (testbit_high x (n - 1)); lia.
    - apply Z.testbit_true; [lia|].
      replace (x / 2 ^ (n - 1)) with 1; [reflexivity|].
      apply Z.div_unique with (r := x - 2 ^ (n - 1)); lia. }
  assert (NC : forall y, Z.testbit y (n - 1) = false -> Z.lxor y (2 ^ (n - 1)) = y + 2 ^ (n - 1)).
  { intros y Hy. symmetry. apply Z.add_nocarry_lxor.
    apply Z.bits_inj'. intros j Hj. rewrite Z.land_spec, Z.bits_0, Z.pow2_bits_eqb by lia.
    destruct (Z.eqb_spec (n - 1) j); [subst; rewrite Hy; reflexivity | apply andb_false_r]. }
  destruct (x <? 2 ^ (n - 1)); cbn [negb] in Hb.
  - apply NC. exact Hb.
  - set (y := Z.lxor x (2 ^ (n - 1))).
    assert (Hy : Z.testbit y (n - 1) = false).
    { subst y. rewrite Z.lxor_spec, Hb, Z.pow2_bits_true by lia. reflexivity. }
    pose proof (NC y Hy) as E. subst y.
    rewrite Z.lxor_assoc, Z.lxor_nilpotent, Z.lxor_0_r in E. lia.
Qed.

Lemma lxor_top_range n x :
  0 < n -> 0 <= x < 2 ^ n -> 0 <= Z.lxor x (2 ^ (n - 1)) < 2 ^ n.
Proof.
  intros Hn Hx. rewrite lxor_top by lia.
  assert (Hp : 0 < 2 ^ (n - 1)) by (apply Z.pow_pos_nonneg; lia).
  assert (H2 : 2 ^ n = 2 * 2 ^ (n - 1)).
  { replace n with (1 + (n - 1)) at 1 by lia. rewrite Z.pow_add_r by lia. reflexivity. }
  destruct (Z.ltb_spec x (2 ^ (n - 1))); lia.
Qed.

Lemma lxor_top_invol n x : Z.lxor (Z.lxor x (2 ^ (n - 1))) (2 ^ (n - 1)) = x.
Proof. rewrite Z.lxor_assoc, Z.lxor_nilpotent. apply Z.lxor_0_r. Qed.

(** Biasing turns the unsigned order into the signed one and back. *)
Lemma signed_lxor_top w x :
  (0 < w)%nat -> 0 <= x < 2 ^ (8 * Z.of_nat w) ->
  signed w (Z.lxor x (2 ^ (8 * Z.of_nat w - 1))) = x - 2 ^ (8 * Z.of_nat w - 1).
Proof.
  intros Hw Hx. unfold signed. rewrite lxor_top by lia.
  assert (Hp : 0 < 2 ^ (8 * Z.of_nat w - 1)) by (apply Z.pow_pos_nonneg; lia).
  assert (H2 : 2 ^ (8 * Z.of_nat w) = 2 * 2 ^ (8 * Z.of_nat w - 1)).
  { replace (8 * Z.of_nat w) with (1 + (8 * Z.of_nat w - 1)) at 1 by lia.
    rewrite Z.pow_add_r by lia. reflexivity. }
  destruct (Z.ltb_spec x (2 ^ (8 * Z.of_nat w - 1))).
  - destruct (Z.ltb_spec (x + 2 ^ (8 * Z.of_nat w - 1)) (2 ^ (8 * Z.of_nat w - 1))); lia.
  - destruct (Z.ltb_spec (x - 2 ^ (8 * Z.of_nat w - 1)) (2 ^ (8 * Z.of_nat w - 1))); lia.
Qed.

Lemma lxor_top_signed w x :
  (0 < w)%nat -> 0 <= x < 2 ^ (8 * Z.of_nat w) ->
  Z.lxor x (2 ^ (8 * Z.of_nat w - 1)) = signed w x + 2 ^ (8 * Z.of_nat w - 1).
Proof.
  intros Hw Hx. unfold signed. rewrite lxor_top by lia.
  assert (H2 : 2 ^ (8 * Z.of_nat w) = 2 * 2 ^ (8 * Z.of_nat w - 1)).
  { replace (8 * Z.of_nat w) with (1 + (8 * Z.of_nat w - 1)) at 1 by lia.
    rewrite Z.pow_add_r by lia. reflexivity. }
  destruct (Z.ltb_spec x (2 ^ (8 * Z.of_nat w - 1))); lia.
Qed.

Lemma signed_inj w x y :
  0 <= x < 2 ^ (8 * Z.of_nat w) -> 0 <= y < 2 ^ (8 * Z.of_nat w) ->
  signed w x = signed w y -> x = y.
Proof.
  unfold signed. intros Hx Hy.
  destruct w as [|w]; [cbn in *; lia|].
  assert (0 < 2 ^ (8 * Z.of_nat (S w) - 1) <= 2 ^ (8 * Z.of_nat (S w)))
    by (split; [apply Z.pow_pos_nonneg; lia | apply Z.pow_le_mono_r; lia]).
  destruct (Z.ltb_spec x (2 ^ (8 * Z.of_nat (S w) - 1))),
           (Z.ltb_spec y (2 ^ (8 * Z.of_nat (S w) - 1))); lia.
Qed.

(** * Arrays_minmax_int.h: what a register operation leaves in a lane *)

(** Writing a register whose lanes are [F] of the elements in memory. *)
Lemma wr_lanes_pointwise w F (n : nat) cnt m p q X :
  Z.of_nat w * cnt = Z.of_nat n -> 0 <= cnt ->
  (forall i : nat, Z.of_nat i < cnt ->
     lane w X i = F (rd w m (p + Z.of_nat w * Z.of_nat i)) (rd w m (q + Z.of_nat w * Z.of_nat i))) ->
  pointwise w (fun _ => F) p q cnt m (wr n m p X).
Proof.
  intros Hn Hc HX. split.
  - intros i Hi. replace i with (Z.of_nat (Z.to_nat i)) by lia.
    rewrite <- HX by lia. apply rd_wr_lane. nia.
  - intros x Hx. apply wr_outside. lia.
Qed.

Lemma gtb_ltb_swap x y : (x >? y) = (y <? x).
Proof. apply Z.gtb_ltb. Qed.

Lemma ones_mod n : 0 < n -> (2 ^ n - 1) mod 2 ^ n = 2 ^ n - 1.
Proof. intros. apply Z.mod_small. pose proof (Z.pow_pos_nonneg 2 n). lia. Qed.

(** Selecting by equal keys picks equal values. *)
Lemma sel_min_swap (key : Z -> Z) x y :
  (key x = key y -> x = y) ->
  (if key x <? key y then x else y) = (if key y <? key x then y else x).
Proof.
  intros Hinj. destruct (Z.ltb_spec (key x) (key y)), (Z.ltb_spec (key y) (key x));
    try reflexivity; try lia; try (symmetry; apply Hinj; lia).
Qed.

Section MmxSelect.
Variable K : IntKernel.
Abbreviation T := (TYPE K).
Abbreviation w := (sizeof_nat (TYPE K)).

Hypothesis Hw : pcmpgt_width (PCMPGT K) = w.
Hypothesis Hregs :
  (CMP K = CmpGt /\ MM0_FOR_MIN K = mm0 /\ MM1_FOR_MIN K = mm1) \/
  (CMP K = CmpLt /\ MM0_FOR_MIN K = mm1 /\ MM1_FOR_MIN K = mm0).
Hypothesis Hkey :
  (BIT_MASK_MMX K = None /\
   forall x y, c_lt T x y = (signed w x <? signed w y)) \/
  (exists M, BIT_MASK_MMX K = Some M /\
     (forall i, (i < 8 / w)%nat -> lane w M i = 2 ^ (8 * Z.of_nat w - 1)) /\
     forall x y, c_lt T x y = (x <? y)).

Lemma mmx_select_lane v0 v1 i :
  (i < 8 / w)%nat ->
  lane w (mmx_select K v0 v1) i = pick T (CMP K) (lane w v0 i) (lane w v1 i).
Proof.
  intros Hi. unfold mmx_select. cbv zeta.
  assert (Hw0 : (0 < w)%nat) by (destruct (TYPE K); cbn; lia).
  pose proof (lane_range w v0 i) as R0. pose proof (lane_range w v1 i) as R1.
  set (x0 := lane w v0 i) in *. set (x1 := lane w v1 i) in *.
  assert (Hpos : 0 < 8 * Z.of_nat w) by lia.
  (* the mask lane, by the comparison it encodes *)
  assert (HM : forall d s (cond : bool),
    (signed w (lane w d i) >? signed w (lane w s i)) = cond ->
    lane w (por (pand v1 (pcmpgt (PCMPGT K) d s)) (pandn (pcmpgt (PCMPGT K) d s) v0)) i =
    if cond then x1 else x0).
  { intros d s cond Hc. unfold pcmpgt. rewrite Hw.
    destruct cond.
    - apply lane_select_ones. rewrite lane_lanewise by exact Hi.
      rewrite Hc. apply ones_mod. lia.
    - apply lane_select_zero. rewrite lane_lanewise by exact Hi.
      rewrite Hc. apply Z.mod_0_l. apply Z.pow_nonzero; lia. }
  unfold pick, c_cmp.
  destruct Hkey as [[HN Hlt] | (M & HS & HMl & Hlt)].
  - rewrite HN.
    destruct Hregs as [(-> & -> & ->) | (-> & -> & ->)]; cbn [mmreg];
      rewrite Hlt; apply HM; fold x0 x1; apply gtb_ltb_swap.
  - rewrite HS.
    assert (B : forall v, signed w (lane w (pxor v M) i) = lane w v i - 2 ^ (8 * Z.of_nat w - 1)).
    { intros v. rewrite lane_pxor, HMl by exact Hi.
      apply signed_lxor_top; [exact Hw0 | apply lane_range]. }
    destruct Hregs as [(-> & -> & ->) | (-> & -> & ->)]; cbn [mmreg];
      rewrite Hlt; apply HM; rewrite !B; fold x0 x1; rewrite gtb_ltb_swap;
      destruct (Z.ltb_spec x1 x0), (Z.ltb_spec x0 x1);
      try reflexivity; try (apply Z.ltb_lt; lia); try (apply Z.ltb_ge; lia).
Qed.
End MmxSelect.

(** ** [pminub], [pmaxub], [pminsw], [pmaxsw] *)

Lemma mmxex_lane_ub op x y i :
  (i < 8)%nat -> op = pminub \/ op = pmaxub ->
  lane 1 (mmxex op x y) i =
  if (match op with pminub => lane 1 x i <? lane 1 y i | _ => lane 1 x i >? lane 1 y i end)
  then lane 1 x i else lane 1 y i.
Proof.
  intros Hi [-> | -> ]; unfold mmxex; rewrite lane_lanewise by exact Hi;
    apply Z.mod_small; destruct (_ : bool); apply lane_range.
Qed.

Lemma mmxex_lane_sw op x y i :
  (i < 4)%nat -> op = pminsw \/ op = pmaxsw ->
  lane 2 (mmxex op x y) i =
  if (match op with
      | pminsw => signed 2 (lane 2 x i) <? signed 2 (lane 2 y i)
      | _ => signed 2 (lane 2 x i) >? signed 2 (lane 2 y i) end)
  then lane 2 x i else lane 2 y i.
Proof.
  intros Hi [-> | -> ]; unfold mmxex; rewrite lane_lanewise by exact Hi;
    apply Z.mod_small; destruct (_ : bool); apply lane_range.
Qed.

Lemma mask_lane_ub i : (i < 8)%nat -> lane 1 0x8080808080808080 i = 2 ^ (8 * Z.of_nat 1 - 1).
Proof.
  intros Hi. do 8 (destruct i as [|i]; [reflexivity|]). lia.
Qed.

Lemma mask_lane_sw i : (i < 4)%nat -> lane 2 0x8000800080008000 i = 2 ^ (8 * Z.of_nat 2 - 1).
Proof.
  intros Hi. do 4 (destruct i as [|i]; [reflexivity|]). lia.
Qed.

Lemma K_cases_mmxex K op :
  In K [K_min_jbyte; K_max_jbyte; K_min_jshort; K_max_jshort; K_minu_jshort; K_maxu_jshort] ->
  MINMAX_MMXEX K = Some op ->
  forall a b i, (i < 8 / sizeof_nat (TYPE K))%nat ->
    lane (sizeof_nat (TYPE K)) (mmxex_val K op a b) i =
    pick (TYPE K) (CMP K) (lane (sizeof_nat (TYPE K)) a i) (lane (sizeof_nat (TYPE K)) b i).
Proof.
  intros HK Hop a b i Hi.
  assert (U1 : forall v, lane 1 (pxor (pxor v 0x8080808080808080) 0x8080808080808080) i = lane 1 v i).
  { intros v. unfold pxor. rewrite Z.lxor_assoc, Z.lxor_nilpotent, Z.lxor_0_r. reflexivity. }
  assert (U2 : forall v, lane 2 (pxor (pxor v 0x8000800080008000) 0x8000800080008000) i = lane 2 v i).
  { intros v. unfold pxor. rewrite Z.lxor_assoc, Z.lxor_nilpotent, Z.lxor_0_r. reflexivity. }
  cbn [In] in HK.
  destruct HK as [<- | [<- | [<- | [<- | [<- | [<- | []]]]]]];
    cbn in Hop; injection Hop as <-;
    unfold mmxex_val; cbn [BIT_MASK_SSE TYPE CMP K_min_jbyte K_max_jbyte K_min_jshort
      K_max_jshort K_minu_jshort K_maxu_jshort sizeof_nat] in *;
    unfold pick, c_cmp, c_lt; cbn [sizeof_nat]; cbn in Hi.
  - (* signed bytes, pminub on biased operands *)
    rewrite lane_pxor, mmxex_lane_ub, !lane_pxor, !mask_lane_ub by (auto || lia).
    pose proof (lane_range 1 a i) as Ra. pose proof (lane_range 1 b i) as Rb.
    set (x := lane 1 a i) in *. set (y := lane 1 b i) in *.
    rewrite (lxor_top_signed 1 x), (lxor_top_signed 1 y) by (assumption || lia).
    destruct (Z.ltb_spec (signed 1 x + 2 ^ (8 * Z.of_nat 1 - 1)) (signed 1 y + 2 ^ (8 * Z.of_nat 1 - 1))),
             (Z.ltb_spec (signed 1 y) (signed 1 x)); try lia;
      rewrite <- ?(lxor_top_signed 1 x), <- ?(lxor_top_signed 1 y) by (assumption || lia);
      rewrite ?lxor_top_invol; try reflexivity.
    apply (signed_inj 1); [assumption | assumption | lia].
  - rewrite lane_pxor, mmxex_lane_ub, !lane_pxor, !mask_lane_ub by (auto || lia).
    pose proof (lane_range 1 a i) as Ra. pose proof (lane_range 1 b i) as Rb.
    set (x := lane 1 a i) in *. set (y := lane 1 b i) in *.
    rewrite (lxor_top_signed 1 x), (lxor_top_signed 1 y) by (assumption || lia). rewrite gtb_ltb_swap.
    destruct (Z.ltb_spec (signed 1 y + 2 ^ (8 * Z.of_nat 1 - 1)) (signed 1 x + 2 ^ (8 * Z.of_nat 1 - 1))),
             (Z.ltb_spec (signed 1 x) (signed 1 y)); try lia;
      rewrite <- ?(lxor_top_signed 1 x), <- ?(lxor_top_signed 1 y) by (assumption || lia);
      rewrite ?lxor_top_invol; try reflexivity.
    symmetry. apply (signed_inj 1); [assumption | assumption | lia].
  - (* signed words, pminsw *)
    rewrite mmxex_lane_sw by (auto || lia).
    pose proof (lane_range 2 a i) as Ra. pose proof (lane_range 2 b i) as Rb.
    set (x := lane 2 a i) in *. set (y := lane 2 b i) in *.
    destruct (Z.ltb_spec (signed 2 x) (signed 2 y)), (Z.ltb_spec (signed 2 y) (signed 2 x));
      try lia; try reflexivity.
    apply (signed_inj 2); [assumption | assumption | lia].
  - rewrite mmxex_lane_sw by (auto || lia). rewrite gtb_ltb_swap.
    pose proof (lane_range 2 a i) as Ra. pose proof (lane_range 2 b i) as Rb.
    set (x := lane 2 a i) in *. set (y := lane 2 b i) in *.
    destruct (Z.ltb_spec (signed 2 x) (signed 2 y)), (Z.ltb_spec (signed 2 y) (signed 2 x));
      try lia; try reflexivity.
    symmetry. apply (signed_inj 2); [assumption | assumption | lia].
  - (* unsigned words, pminsw on biased operands *)
    rewrite lane_pxor, mmxex_lane_sw, !lane_pxor, !mask_lane_sw by (auto || lia).
    pose proof (lane_range 2 a i) as Ra. pose proof (lane_range 2 b i) as Rb.
    set (x := lane 2 a i) in *. set (y := lane 2 b i) in *.
    rewrite (signed_lxor_top 2 x), (signed_lxor_top 2 y) by (assumption || lia).
    destruct (Z.ltb_spec (x - 2 ^ (8 * Z.of_nat 2 - 1)) (y - 2 ^ (8 * Z.of_nat 2 - 1))),
             (Z.ltb_spec y x); try lia; rewrite ?lxor_top_invol; try reflexivity. lia.
  - rewrite lane_pxor, mmxex_lane_sw, !lane_pxor, !mask_lane_sw by (auto || lia).
    pose proof (lane_range 2 a i) as Ra. pose proof (lane_range 2 b i) as Rb.
    set (x := lane 2 a i) in *. set (y := lane 2 b i) in *.
    rewrite (signed_lxor_top 2 x), (signed_lxor_top 2 y) by (assumption || lia). rewrite gtb_ltb_swap.
    destruct (Z.ltb_spec (y - 2 ^ (8 * Z.of_nat 2 - 1)) (x - 2 ^ (8 * Z.of_nat 2 - 1))),
             (Z.ltb_spec x y); try lia; rewrite ?lxor_top_invol; try reflexivity. lia.
Qed.

(** * Vector bodies *)

(** One more register written after [e] elements are done; its lanes are
    [F] of what memory holds now. *)
Lemma pointwise_quad_next w F (n : nat) cnt pa pb e p q m0 m1 X :
  Z.of_nat w * cnt = Z.of_nat n -> 0 <= cnt -> 0 <= e ->
  p = pa + Z.of_nat w * e -> q = pb + Z.of_nat w * e ->
  apart pa pb (Z.of_nat w * (e + cnt)) ->
  pointwise w (fun _ => F) pa pb e m0 m1 ->
  (forall i : nat, Z.of_nat i < cnt ->
     lane w X i = F (rd w m1 (p + Z.of_nat w * Z.of_nat i)) (rd w m1 (q + Z.of_nat w * Z.of_nat i))) ->
  pointwise w (fun _ => F) pa pb (e + cnt) m0 (wr n m1 p X).
Proof.
  intros Hn Hc He -> -> Hap P HX.
  apply (pointwise_app w (fun _ => F) pa pb e cnt m0 m1); [lia|lia|exact Hap|exact P|].
  apply wr_lanes_pointwise; assumption.
Qed.

(** The same when the lanes are [F] of what memory held at the start. *)
Lemma pointwise_wr_next w F (n : nat) cnt pa pb e p q m0 m1 X :
  Z.of_nat w * cnt = Z.of_nat n -> 0 <= cnt -> 0 <= e ->
  p = pa + Z.of_nat w * e -> q = pb + Z.of_nat w * e ->
  apart pa pb (Z.of_nat w * (e + cnt)) ->
  pointwise w (fun _ => F) pa pb e m0 m1 ->
  (forall i : nat, Z.of_nat i < cnt ->
     lane w X i = F (rd w m0 (p + Z.of_nat w * Z.of_nat i)) (rd w m0 (q + Z.of_nat w * Z.of_nat i))) ->
  pointwise w (fun _ => F) pa pb (e + cnt) m0 (wr n m1 p X).
Proof.
  intros Hn Hc He Hp Hq Hap P HX.
  eapply pointwise_quad_next; eauto.
  intros i Hi. rewrite HX by exact Hi. destruct P as [_ Fr]. subst p q. f_equal.
  - apply rd_ext. intros k Hk. symmetry. apply Fr. nia.
  - apply rd_ext. intros k Hk. symmetry. apply Fr. unfold apart in Hap. nia.
Qed.

(** Lanes of an operation on two loaded registers. *)
Lemma loaded_lanes w (n : nat) cnt F (val : Z -> Z -> Z) m p q :
  Z.of_nat w * cnt = Z.of_nat n ->
  (forall a b i, 0 <= a < 2 ^ (8 * Z.of_nat n) -> 0 <= b < 2 ^ (8 * Z.of_nat n) ->
     Z.of_nat i < cnt -> lane w (val a b) i = F (lane w a i) (lane w b i)) ->
  forall i : nat, Z.of_nat i < cnt ->
    lane w (val (rd n m p) (rd n m q)) i =
    F (rd w m (p + Z.of_nat w * Z.of_nat i)) (rd w m (q + Z.of_nat w * Z.of_nat i)).
Proof.
  intros Hn Hval i Hi. rewrite Hval by (exact Hi || apply rd_range).
  rewrite !lane_rd by nia. reflexivity.
Qed.

Section QuadBlocks.
Variables (w : nat) (cnt : Z) (F : Z -> Z -> Z) (val : Z -> Z -> Z).
Hypothesis Hcnt : Z.of_nat w * cnt = 8.
Hypothesis Hc0 : 0 <= cnt.
Hypothesis Hval :
  forall a b i, 0 <= a < 2 ^ (8 * Z.of_nat 8) -> 0 <= b < 2 ^ (8 * Z.of_nat 8) ->
    Z.of_nat i < cnt -> lane w (val a b) i = F (lane w a i) (lane w b i).

Lemma quad_lanes_now m p q (i : nat) :
  Z.of_nat i < cnt ->
  lane w (val (rd 8 m p) (rd 8 m q)) i =
  F (rd w m (p + Z.of_nat w * Z.of_nat i)) (rd w m (q + Z.of_nat w * Z.of_nat i)).
Proof. apply (loaded_lanes w 8 cnt F val); [exact Hcnt | exact Hval]. Qed.

(** Four quadwords, each loaded, combined and stored in turn. *)
Lemma four_quads eax edx m :
  apart eax edx 32 ->
  pointwise w (fun _ => F) eax edx (4 * cnt) m
    (let m := wr 8 m (eax + 0) (val (rd 8 m (eax + 0)) (rd 8 m (edx + 0))) in
     let m := wr 8 m (eax + 8) (val (rd 8 m (eax + 8)) (rd 8 m (edx + 8))) in
     let m := wr 8 m (eax + 16) (val (rd 8 m (eax + 16)) (rd 8 m (edx + 16))) in
     let m := wr 8 m (eax + 24) (val (rd 8 m (eax + 24)) (rd 8 m (edx + 24))) in
     m).
Proof.
  intros Hap. cbv zeta.
  replace (4 * cnt) with (0 + cnt + cnt + cnt + cnt) by lia.
  eapply (pointwise_quad_next w F 8 cnt eax edx _ _ (edx + 24));
    [exact Hcnt | exact Hc0 | | | | | | intros; apply quad_lanes_now; assumption];
    [lia | nia | nia | unfold apart in *; nia | ].
  eapply (pointwise_quad_next w F 8 cnt eax edx _ _ (edx + 16));
    [exact Hcnt | exact Hc0 | | | | | | intros; apply quad_lanes_now; assumption];
    [lia | nia | nia | unfold apart in *; nia | ].
  eapply (pointwise_quad_next w F 8 cnt eax edx _ _ (edx + 8));
    [exact Hcnt | exact Hc0 | | | | | | intros; apply quad_lanes_now; assumption];
    [lia | nia | nia | unfold apart in *; nia | ].
  eapply (pointwise_quad_next w F 8 cnt eax edx _ _ (edx + 0));
    [exact Hcnt | exact Hc0 | | | | | | intros; apply quad_lanes_now; assumption];
    [lia | nia | nia | unfold apart in *; nia | ].
  apply pointwise_refl.
Qed.

(** Eight in turn. *)
Lemma eight_quads eax edx m :
  apart eax edx 64 ->
  pointwise w (fun _ => F) eax edx (8 * cnt) m
    (let m := wr 8 m (eax + 0) (val (rd 8 m (eax + 0)) (rd 8 m (edx + 0))) in
     let m := wr 8 m (eax + 8) (val (rd 8 m (eax + 8)) (rd 8 m (edx + 8))) in
     let m := wr 8 m (eax + 16) (val (rd 8 m (eax + 16)) (rd 8 m (edx + 16))) in
     let m := wr 8 m (eax + 24) (val (rd 8 m (eax + 24)) (rd 8 m (edx + 24))) in
     let m := wr 8 m (eax + 32) (val (rd 8 m (eax + 32)) (rd 8 m (edx + 32))) in
     let m := wr 8 m (eax + 40) (val (rd 8 m (eax + 40)) (rd 8 m (edx + 40))) in
     let m := wr 8 m (eax + 48) (val (rd 8 m (eax + 48)) (rd 8 m (edx + 48))) in
     let m := wr 8 m (eax + 56) (val (rd 8 m (eax + 56)) (rd 8 m (edx + 56))) in
     m).
Proof.
  intros Hap. cbv zeta.
  replace (8 * cnt) with (0 + cnt + cnt + cnt + cnt + cnt + cnt + cnt + cnt) by lia.
  eapply (pointwise_quad_next w F 8 cnt eax edx _ _ (edx + 56));
    [exact Hcnt | exact Hc0 | | | | | | intros; apply quad_lanes_now; assumption];
    [lia | nia | nia | unfold apart in *; nia | ].
  eapply (pointwise_quad_next w F 8 cnt eax edx _ _ (edx + 48));
    [exact Hcnt | exact Hc0 | | | | | | intros; apply quad_lanes_now; assumption];
    [lia | nia | nia | unfold apart in *; nia | ].
  eapply (pointwise_quad_next w F 8 cnt eax edx _ _ (edx + 40));
    [exact Hcnt | exact Hc0 | | | | | | intros; apply quad_lanes_now; assumption];
    [lia | nia | nia | unfold apart in *; nia | ].
  eapply (pointwise_quad_next w F 8 cnt eax edx _ _ (edx + 32));
    [exact Hcnt | exact Hc0 | | | | | | intros; apply quad_lanes_now; assumption];
    [lia | nia | nia | unfold apart in *; nia | ].
  eapply (pointwise_quad_next w F 8 cnt eax edx _ _ (edx + 24));
    [exact Hcnt | exact Hc0 | | | | | | intros; apply quad_lanes_now; assumption];
    [lia | nia | nia | unfold apart in *; nia | ].
  eapply (pointwise_quad_next w F 8 cnt eax edx _ _ (edx + 16));
    [exact Hcnt | exact Hc0 | | | | | | intros; apply quad_lanes_now; assumption];
    [lia | nia | nia | unfold apart in *; nia | ].
  eapply (pointwise_quad_next w F 8 cnt eax edx _ _ (edx + 8));
    [exact Hcnt | exact Hc0 | | | | | | intros; apply quad_lanes_now; assumption];
    [lia | nia | nia | unfold apart in *; nia | ].
  eapply (pointwise_quad_next w F 8 cnt eax edx _ _ (edx + 0));
    [exact Hcnt | exact Hc0 | | | | | | intros; apply quad_lanes_now; assumption];
    [lia | nia | nia | unfold apart in *; nia | ].
  apply pointwise_refl.
Qed.
End QuadBlocks.

Section WriteBlocks.
Variables (w n : nat) (cnt : Z) (F : Z -> Z -> Z) (val : Z -> Z -> Z).
Hypothesis Hcnt : Z.of_nat w * cnt = Z.of_nat n.
Hypothesis Hc0 : 0 <= cnt.
Hypothesis Hval :
  forall a b i, 0 <= a < 2 ^ (8 * Z.of_nat n) -> 0 <= b < 2 ^ (8 * Z.of_nat n) ->
    Z.of_nat i < cnt -> lane w (val a b) i = F (lane w a i) (lane w b i).

Lemma loaded_lanes_at m p q (i : nat) :
  Z.of_nat i < cnt ->
  lane w (val (rd n m p) (rd n m q)) i =
  F (rd w m (p + Z.of_nat w * Z.of_nat i)) (rd w m (q + Z.of_nat w * Z.of_nat i)).
Proof. apply (loaded_lanes w n cnt F val); [exact Hcnt | exact Hval]. Qed.

(** Registers written one after the other, all loaded and combined
    before the first store. *)
Lemma write_next pa pb e p q m0 m1 :
  0 <= e -> p = pa + Z.of_nat w * e -> q = pb + Z.of_nat w * e ->
  apart pa pb (Z.of_nat w * (e + cnt)) ->
  pointwise w (fun _ => F) pa pb e m0 m1 ->
  pointwise w (fun _ => F) pa pb (e + cnt) m0 (wr n m1 p (val (rd n m0 p) (rd n m0 q))).
Proof.
  intros He Hp Hq Hap P.
  eapply (pointwise_wr_next w F n cnt pa pb e p q); eauto.
  intros i Hi. apply loaded_lanes_at. exact Hi.
Qed.
End WriteBlocks.

Ltac write_step Hcnt Hc0 Hval q :=
  eapply (write_next _ _ _ _ _ Hcnt Hc0 Hval _ _ _ _ q);
    [lia | nia | nia | unfold apart in *; nia | ].

Section MmxexBlocks.
Variables (w : nat) (cnt : Z) (F : Z -> Z -> Z) (val : Z -> Z -> Z).
Hypothesis Hcnt : Z.of_nat w * cnt = Z.of_nat 8.
Hypothesis Hc0 : 0 <= cnt.
Hypothesis Hval :
  forall a b i, 0 <= a < 2 ^ (8 * Z.of_nat 8) -> 0 <= b < 2 ^ (8 * Z.of_nat 8) ->
    Z.of_nat i < cnt -> lane w (val a b) i = F (lane w a i) (lane w b i).

Lemma two_writes p q m :
  apart p q 16 ->
  pointwise w (fun _ => F) p q (2 * cnt) m
    (wr 8 (wr 8 m p (val (rd 8 m p) (rd 8 m q)))
        (p + 8) (val (rd 8 m (p + 8)) (rd 8 m (q + 8)))).
Proof.
  intros Hap. replace (2 * cnt) with (0 + cnt + cnt) by lia.
  write_step Hcnt Hc0 Hval (q + 8).
  write_step Hcnt Hc0 Hval q.
  apply pointwise_refl.
Qed.

Lemma eight_writes p q m :
  apart p q 64 ->
  pointwise w (fun _ => F) p q (8 * cnt) m
    (wr 8 (wr 8 (wr 8 (wr 8 (wr 8 (wr 8 (wr 8 (wr 8 m
       p (val (rd 8 m p) (rd 8 m q)))
       (p + 8) (val (rd 8 m (p + 8)) (rd 8 m (q + 8))))
       (p + 16) (val (rd 8 m (p + 16)) (rd 8 m (q + 16))))
       (p + 24) (val (rd 8 m (p + 24)) (rd 8 m (q + 24))))
       (p + 32) (val (rd 8 m (p + 32)) (rd 8 m (q + 32))))
       (p + 40) (val (rd 8 m (p + 40)) (rd 8 m (q + 40))))
       (p + 48) (val (rd 8 m (p + 48)) (rd 8 m (q + 48))))
       (p + 56) (val (rd 8 m (p + 56)) (rd 8 m (q + 56)))).
Proof.
  intros Hap.
  replace (8 * cnt) with (0 + cnt + cnt + cnt + cnt + cnt + cnt + cnt + cnt) by lia.
  write_step Hcnt Hc0 Hval (q + 56).
  write_step Hcnt Hc0 Hval (q + 48).
  write_step Hcnt Hc0 Hval (q + 40).
  write_step Hcnt Hc0 Hval (q + 32).
  write_step Hcnt Hc0 Hval (q + 24).
  write_step Hcnt Hc0 Hval (q + 16).
  write_step Hcnt Hc0 Hval (q + 8).
  write_step Hcnt Hc0 Hval q.
  apply pointwise_refl.
Qed.
End MmxexBlocks.

Section SseBlocks.
Variables (cnt : Z) (F : Z -> Z -> Z) (val : Z -> Z -> Z).
Hypothesis Hcnt : Z.of_nat 4 * cnt = Z.of_nat 16.
Hypothesis Hc0 : 0 <= cnt.
Hypothesis Hval :
  forall a b i, 0 <= a < 2 ^ (8 * Z.of_nat 16) -> 0 <= b < 2 ^ (8 * Z.of_nat 16) ->
    Z.of_nat i < cnt -> lane 4 (val a b) i = F (lane 4 a i) (lane 4 b i).

Lemma four_writes16 p q m :
  apart p q 64 ->
  pointwise 4 (fun _ => F) p q (4 * cnt) m
    (wr 16 (wr 16 (wr 16 (wr 16 m
       p (val (rd 16 m p) (rd 16 m q)))
       (p + 16) (val (rd 16 m (p + 16)) (rd 16 m (q + 16))))
       (p + 32) (val (rd 16 m (p + 32)) (rd 16 m (q + 32))))
       (p + 48) (val (rd 16 m (p + 48)) (rd 16 m (q + 48)))).
Proof.
  intros Hap. replace (4 * cnt) with (0 + cnt + cnt + cnt + cnt) by lia.
  write_step Hcnt Hc0 Hval (q + 48).
  write_step Hcnt Hc0 Hval (q + 32).
  write_step Hcnt Hc0 Hval (q + 16).
  write_step Hcnt Hc0 Hval q.
  apply pointwise_refl.
Qed.
End SseBlocks.

(** * Head, body, tail *)





Lemma phase_fun_in T c Fv lo hi i : lo <= i < hi -> phase_fun T c Fv lo hi i = Fv.
Proof.
  intros H. unfold phase_fun.
  destruct (Z.leb_spec lo i), (Z.ltb_spec i hi); try lia. reflexivity.
Qed.

Lemma phase_fun_out T c Fv lo hi i :
  i < lo \/ hi <= i -> phase_fun T c Fv lo hi i = pick T c.
Proof.
  intros H. unfold phase_fun.
  destruct (Z.leb_spec lo i), (Z.ltb_spec i hi); try lia; reflexivity.
Qed.

Lemma three_phase T c k Fv block pa pb ls len le m :
  0 <= k -> block_ok (sizeof_nat T) k Fv block ->
  0 <= ls -> 0 <= len -> 0 <= le ->
  apart pa pb (sizeof T * (ls + len * k + le)) ->
  pointwise (sizeof_nat T) (phase_fun T c Fv ls (ls + len * k)) pa pb (ls + len * k + le) m
    (snd (loop_n (Z.to_nat le) (cmp_step T c)
            (loop_n (Z.to_nat len) block
               (loop_n (Z.to_nat ls) (cmp_step T c) (pa, pb, m))))).
Proof.
  intros Hk Hb Hls Hlen Hle Hap. pose proof (sizeof_pos T) as Hs.
  destruct (cmp_loop_pointwise T c (Z.to_nat ls) pa pb m) as (m1 & E1 & P1).
  { rewrite Z2Nat.id by lia. unfold apart in *. nia. }
  rewrite E1. rewrite Z2Nat.id in P1 |- * by lia.
  destruct (loop_pointwise (sizeof_nat T) (fun _ => Fv) k block Hk Hb (Z.to_nat len)
              (pa + sizeof T * ls) (pb + sizeof T * ls) m1 0) as (m2 & E2 & P2).
  { rewrite Z2Nat.id by lia. fold (sizeof T). unfold apart in *. nia. }
  rewrite E2. rewrite Z2Nat.id in P2 |- * by lia. fold (sizeof T).
  destruct (cmp_loop_pointwise T c (Z.to_nat le) (pa + sizeof T * ls + sizeof T * (k * len))
              (pb + sizeof T * ls + sizeof T * (k * len)) m2) as (m3 & E3 & P3).
  { rewrite Z2Nat.id by lia. unfold apart in *. nia. }
  rewrite E3. rewrite Z2Nat.id in P3 by lia. cbn [snd].
  eapply pointwise_app; [nia | lia | exact Hap | | ].
  - eapply pointwise_app; [lia | nia | unfold sizeof, apart in *; nia | | ].
    + eapply pointwise_ext; [|exact P1]. intros i x y Hi.
      rewrite phase_fun_out by lia. reflexivity.
    + fold (sizeof T).
      assert (P2' : pointwise (sizeof_nat T) (fun _ => Fv) (pa + sizeof T * ls)
                      (pb + sizeof T * ls) (len * k) m1 m2)
        by (rewrite (Z.mul_comm len k); exact P2).
      eapply pointwise_ext; [|exact P2']. intros i x y Hi. cbv beta.
      rewrite phase_fun_in by lia. reflexivity.
  - fold (sizeof T).
    replace (pa + sizeof T * (ls + len * k)) with (pa + sizeof T * ls + sizeof T * (k * len)) by lia.
    replace (pb + sizeof T * (ls + len * k)) with (pb + sizeof T * ls + sizeof T * (k * len)) by lia.
    eapply pointwise_ext; [|exact P3]. intros i x y Hi. cbv beta.
    rewrite phase_fun_out by lia. reflexivity.
Qed.

(** [vector_branch] with the lengths [LOOP_PREFIX_ALIGNED] gives. *)
Lemma vector_branch_pointwise T c U Fv block m a Aofs b Bofs Len :
  (U = 32 \/ U = 64) -> 0 <= Len < 2 ^ 31 ->
  block_ok (sizeof_nat T) (U / sizeof T) Fv block ->
  apart (a + sizeof T * Aofs) (b + sizeof T * Bofs) (sizeof T * Len) ->
  pointwise (sizeof_nat T)
    (phase_fun T c Fv (body_lo U T (a + sizeof T * Aofs) Len)
                      (body_hi U T (a + sizeof T * Aofs) Len))
    (a + sizeof T * Aofs) (b + sizeof T * Bofs) Len m
    (snd (vector_branch T c U block m a Aofs b Bofs Len)).
Proof.
  intros HU HL Hb Hap. unfold vector_branch, body_hi, body_lo.
  destruct (LOOP_PREFIX_ALIGNED U (sizeof T) (a + sizeof T * Aofs) Len)
    as [[ls len] le] eqn:E.
  apply LOOP_PREFIX_ALIGNED_spec in E; [|exact HU|apply sizeof_cases|exact HL].
  destruct E as (Hls & Hlen & Hle & Hsum & _).
  cbn [fst snd].
  rewrite wrap32_small by lia.
  assert (Hk : 0 <= U / sizeof T).
  { apply Z.div_pos; [destruct HU; lia | apply sizeof_pos]. }
  pose proof (three_phase T c (U / sizeof T) Fv block (a + sizeof T * Aofs)
                (b + sizeof T * Bofs) ls len le m Hk Hb) as P.
  rewrite Hsum in P. apply P; try lia. exact Hap.
Qed.

(** * Arrays_minmax_int.h *)



Lemma nat_lt_of_Z (i : nat) (n : nat) : Z.of_nat i < Z.of_nat n -> (i < n)%nat.
Proof. lia. Qed.

Lemma mmx_block_ok K :
  In K int_kernels ->
  block_ok (sizeof_nat (TYPE K)) (32 / sizeof (TYPE K)) (pick (TYPE K) (CMP K)) (mmx_block K).
Proof.
  intros HK pa pb m base Hap.
  assert (Hsel : forall v0 v1 i, (i < 8 / sizeof_nat (TYPE K))%nat ->
            lane (sizeof_nat (TYPE K)) (mmx_select K v0 v1) i =
            pick (TYPE K) (CMP K) (lane (sizeof_nat (TYPE K)) v0 i)
                                  (lane (sizeof_nat (TYPE K)) v1 i)).
  { unfold int_kernels in HK. cbn [In] in HK.
    destruct HK as [<- | [<- | [<- | [<- | [<- | [<- | [<- | [<- | []]]]]]]]];
      apply mmx_select_lane;
      first [ reflexivity
            | left; repeat split; reflexivity
            | right; repeat split; reflexivity
            | right; exists 0x8000800080008000;
              split; [reflexivity | split; [|reflexivity]];
              intros i0 Hi0; apply mask_lane_sw; exact Hi0 ]. }
  assert (Hsz : exists cnt : nat,
            (8 / sizeof_nat (TYPE K))%nat = cnt /\ 32 / sizeof (TYPE K) = 4 * Z.of_nat cnt /\
            Z.of_nat (sizeof_nat (TYPE K)) * Z.of_nat cnt = 8).
  { unfold int_kernels in HK. cbn [In] in HK.
    destruct HK as [<- | [<- | [<- | [<- | [<- | [<- | [<- | [<- | []]]]]]]]];
      eexists; repeat split. }
  destruct Hsz as (cnt & Hc & H32 & H8). rewrite H32 in *. rewrite Hc in Hsel.
  eexists. split.
  - unfold mmx_block. do 2 f_equal; lia.
  - unfold mmx_quad. cbv beta.
    apply (four_quads (sizeof_nat (TYPE K)) (Z.of_nat cnt) (pick (TYPE K) (CMP K))
             (mmx_select K) H8 ltac:(lia)).
    + intros a0 b0 i _ _ Hi. apply Hsel. lia.
    + unfold apart in *. nia.
Qed.

Lemma mmxex_masked_block_ok K op M :
  In K [K_min_jbyte; K_max_jbyte; K_minu_jshort; K_maxu_jshort] ->
  MINMAX_MMXEX K = Some op -> BIT_MASK_SSE K = Some M ->
  block_ok (sizeof_nat (TYPE K)) (32 / sizeof (TYPE K)) (pick (TYPE K) (CMP K))
    (mmxex_masked_block op M).
Proof.
  intros HK Hop HM pa pb m base Hap.
  assert (Hsel : forall a0 b0 i, (i < 8 / sizeof_nat (TYPE K))%nat ->
            lane (sizeof_nat (TYPE K)) (pxor (mmxex op (pxor a0 M) (pxor b0 M)) M) i =
            pick (TYPE K) (CMP K) (lane (sizeof_nat (TYPE K)) a0 i)
                                  (lane (sizeof_nat (TYPE K)) b0 i)).
  { intros a0 b0 i Hi. rewrite <- (K_cases_mmxex K op) by
      (try exact Hop; try exact Hi; cbn [In] in *; intuition auto).
    unfold mmxex_val. rewrite HM. reflexivity. }
  assert (Hsz : exists cnt : nat,
            (8 / sizeof_nat (TYPE K))%nat = cnt /\ 32 / sizeof (TYPE K) = 4 * Z.of_nat cnt /\
            Z.of_nat (sizeof_nat (TYPE K)) * Z.of_nat cnt = 8).
  { cbn [In] in HK. destruct HK as [<- | [<- | [<- | [<- | []]]]]; eexists; repeat split. }
  destruct Hsz as (cnt & Hc & H32 & H8). rewrite H32 in *. rewrite Hc in Hsel.
  assert (Hval : forall a0 b0 (i : nat),
            0 <= a0 < 2 ^ (8 * Z.of_nat 8) -> 0 <= b0 < 2 ^ (8 * Z.of_nat 8) ->
            Z.of_nat i < Z.of_nat cnt ->
            lane (sizeof_nat (TYPE K)) (pxor (mmxex op (pxor a0 M) (pxor b0 M)) M) i =
            pick (TYPE K) (CMP K) (lane (sizeof_nat (TYPE K)) a0 i)
                                  (lane (sizeof_nat (TYPE K)) b0 i))
    by (intros; apply Hsel; lia).
  eexists. split.
  - unfold mmxex_masked_block. do 2 f_equal; lia.
  - unfold mmxex_masked_pair. cbv zeta. rewrite !Z.add_0_r.
    replace (4 * Z.of_nat cnt) with (2 * Z.of_nat cnt + 2 * Z.of_nat cnt) by lia.
    eapply pointwise_app; [lia | lia | unfold apart in *; nia | | ].
    + pose proof (two_writes (sizeof_nat (TYPE K)) (Z.of_nat cnt) (pick (TYPE K) (CMP K))
                    (fun a0 b0 => pxor (mmxex op (pxor a0 M) (pxor b0 M)) M)
                    H8 ltac:(lia) Hval pa pb m) as P.
      cbv beta in P. apply P. unfold apart in *. nia.
    + pose proof (two_writes (sizeof_nat (TYPE K)) (Z.of_nat cnt) (pick (TYPE K) (CMP K))
                    (fun a0 b0 => pxor (mmxex op (pxor a0 M) (pxor b0 M)) M)
                    H8 ltac:(lia) Hval (pa + 16) (pb + 16)) as P.
      cbv beta in P.
      replace (pa + Z.of_nat (sizeof_nat (TYPE K)) * (2 * Z.of_nat cnt)) with (pa + 16) by lia.
      replace (pb + Z.of_nat (sizeof_nat (TYPE K)) * (2 * Z.of_nat cnt)) with (pb + 16) by lia.
      apply P. unfold apart in *. nia.
Qed.

Lemma mmxex_plain_block_ok K op :
  In K [K_min_jshort; K_max_jshort] ->
  MINMAX_MMXEX K = Some op ->
  block_ok (sizeof_nat (TYPE K)) (64 / sizeof (TYPE K)) (pick (TYPE K) (CMP K))
    (mmxex_plain_block op).
Proof.
  intros HK Hop pa pb m base Hap.
  assert (Hsel : forall a0 b0 (i : nat),
            0 <= a0 < 2 ^ (8 * Z.of_nat 8) -> 0 <= b0 < 2 ^ (8 * Z.of_nat 8) ->
            Z.of_nat i < 4 ->
            lane 2 (mmxex op a0 b0) i = pick (TYPE K) (CMP K) (lane 2 a0 i) (lane 2 b0 i)).
  { intros a0 b0 i _ _ Hi. cbn [In] in HK.
    destruct HK as [<- | [<- | []]].
    - apply (K_cases_mmxex K_min_jshort op); [cbn [In]; auto | exact Hop | cbn; lia].
    - apply (K_cases_mmxex K_max_jshort op); [cbn [In]; auto | exact Hop | cbn; lia]. }
  assert (HT : sizeof_nat (TYPE K) = 2%nat)
    by (cbn [In] in HK; destruct HK as [<- | [<- | []]]; reflexivity).
  unfold sizeof in *. rewrite HT in *. change (64 / Z.of_nat 2) with 32 in *.
  eexists. split.
  - unfold mmxex_plain_block. do 2 f_equal; lia.
  - cbv beta.
    apply (eight_writes 2 4 (pick (TYPE K) (CMP K)) (mmxex op) eq_refl ltac:(lia) Hsel pa pb m).
    unfold apart in *. lia.
Qed.

Lemma phase_fun_pick T c lo hi i : phase_fun T c (pick T c) lo hi i = pick T c.
Proof. unfold phase_fun. destruct (_ && _); reflexivity. Qed.

Lemma vector_branch_pick T c U block m a Aofs b Bofs Len :
  (U = 32 \/ U = 64) -> 0 <= Len < 2 ^ 31 ->
  block_ok (sizeof_nat T) (U / sizeof T) (pick T c) block ->
  apart (a + sizeof T * Aofs) (b + sizeof T * Bofs) (sizeof T * Len) ->
  pointwise (sizeof_nat T) (fun _ => pick T c)
    (a + sizeof T * Aofs) (b + sizeof T * Bofs) Len m
    (snd (vector_branch T c U block m a Aofs b Bofs Len)).
Proof.
  intros HU HL Hb Hap.
  pose proof (vector_branch_pointwise T c U (pick T c) block m a Aofs b Bofs Len HU HL Hb Hap)
    as P.
  eapply pointwise_ext; [|exact P]. intros i x y _. rewrite phase_fun_pick. reflexivity.
Qed.

Lemma snd_let_pair {A B C} (p : A * B) (f : A -> C) :
  snd (let '(x, y) := p in (f x, y)) = snd p.
Proof. destruct p. reflexivity. Qed.

(** Arrays_minmax_int.h, every branch. *)
Lemma minmax_int_pointwise K CpuInfo m a Aofs b Bofs Len :
  In K int_kernels -> 0 <= Len < 2 ^ 31 ->
  apart (a + sizeof (TYPE K) * Aofs) (b + sizeof (TYPE K) * Bofs) (sizeof (TYPE K) * Len) ->
  pointwise (sizeof_nat (TYPE K)) (fun _ => pick (TYPE K) (CMP K))
    (a + sizeof (TYPE K) * Aofs) (b + sizeof (TYPE K) * Bofs) Len m
    (snd (minmax_int K CpuInfo m a Aofs b Bofs Len)).
Proof.
  intros HK HL Hap.
  assert (Hmmx : pointwise (sizeof_nat (TYPE K)) (fun _ => pick (TYPE K) (CMP K))
            (a + sizeof (TYPE K) * Aofs) (b + sizeof (TYPE K) * Bofs) Len m
            (snd (vector_branch (TYPE K) (CMP K) 32 (mmx_block K) m a Aofs b Bofs Len))).
  { apply vector_branch_pick; auto. apply mmx_block_ok. exact HK. }
  assert (Hc : pointwise (sizeof_nat (TYPE K)) (fun _ => pick (TYPE K) (CMP K))
            (a + sizeof (TYPE K) * Aofs) (b + sizeof (TYPE K) * Bofs) Len m
            (CLOOP K m a Aofs b Bofs Len)).
  { apply BODY_LOOP_pointwise; assumption. }
  unfold minmax_int.
  destruct (MINMAX_MMXEX K) as [op|] eqn:Eop.
  - destruct (has_flag CpuInfo CPU_MMXEX).
    + rewrite snd_let_pair.
      destruct (BIT_MASK_SSE K) as [M|] eqn:EM.
      * apply vector_branch_pick; auto.
        apply (mmxex_masked_block_ok K op M); [|exact Eop|exact EM].
        unfold int_kernels in HK. cbn [In] in HK |- *.
        destruct HK as [<- | [<- | [<- | [<- | [<- | [<- | [<- | [<- | []]]]]]]]];
          try discriminate; auto.
      * apply vector_branch_pick; auto.
        apply (mmxex_plain_block_ok K op); [|exact Eop].
        unfold int_kernels in HK. cbn [In] in HK |- *.
        destruct HK as [<- | [<- | [<- | [<- | [<- | [<- | [<- | [<- | []]]]]]]]];
          try discriminate; auto.
    + destruct (has_flag CpuInfo CPU_MMX); [rewrite snd_let_pair; exact Hmmx | exact Hc].
  - destruct (has_flag CpuInfo CPU_MMX); [rewrite snd_let_pair; exact Hmmx | exact Hc].
Qed.

(** * Arrays_minmax_float.h and Arrays_minmax_double.h *)

Lemma sse_ps_lane op a b (i : nat) :
  Z.of_nat i < 4 -> lane 4 (sse_ps op a b) i = ps_lane op (lane 4 a i) (lane 4 b i).
Proof.
  intros Hi. unfold sse_ps. rewrite lane_lanewise by lia.
  apply Z.mod_small. unfold ps_lane. destruct op; destruct (SFltb _ _); apply lane_range.
Qed.

Lemma sse_block_aligned_ok op : block_ok 4 16 (ps_lane op) (sse_block_aligned op).
Proof.
  intros pa pb m base Hap. eexists. split.
  - unfold sse_block_aligned. do 2 f_equal; lia.
  - unfold store16. cbv beta.
    apply (four_writes16 4 (ps_lane op) (sse_ps op) eq_refl ltac:(lia)).
    + intros a0 b0 i _ _ Hi. apply sse_ps_lane. exact Hi.
    + unfold apart in *. lia.
Qed.

Lemma sse_block_unaligned_ok op : block_ok 4 16 (ps_lane op) (sse_block_unaligned op).
Proof.
  intros pa pb m base Hap. eexists. split.
  - unfold sse_block_unaligned. do 2 f_equal; lia.
  - unfold store16. cbv beta.
    apply (four_writes16 4 (ps_lane op) (sse_ps op) eq_refl ltac:(lia)).
    + intros a0 b0 i _ _ Hi. apply sse_ps_lane. exact Hi.
    + unfold apart in *. lia.
Qed.

Lemma fld_qword_range x : 0 <= x < 2 ^ 64 -> 0 <= fld_qword x < 2 ^ 64.
Proof.
  intros Hx. unfold fld_qword. destruct (sf64 x); try assumption.
  assert (E : Z.lor x (2 ^ 51) = Z.lor x (2 ^ 51) mod 2 ^ 64).
  { apply Z.bits_inj'. intros k Hk. destruct (Z.ltb_spec k 64).
    - rewrite Z.mod_pow2_bits_low by lia. reflexivity.
    - rewrite Z.mod_pow2_bits_high by lia.
      rewrite Z.lor_spec, (testbit_high x 64 k), Z.pow2_bits_false by lia. reflexivity. }
  rewrite E. apply Z.mod_pos_bound. lia.
Qed.

Lemma fcmov_val_lane op a b (i : nat) :
  0 <= a < 2 ^ (8 * Z.of_nat 8) -> 0 <= b < 2 ^ (8 * Z.of_nat 8) -> Z.of_nat i < 1 ->
  lane 8 (fcmov_val op a b) i = fcmov_val op (lane 8 a i) (lane 8 b i).
Proof.
  intros Ha Hb Hi. assert (i = 0%nat) as -> by lia.
  assert (L : forall x, 0 <= x < 2 ^ (8 * Z.of_nat 8) -> lane 8 x 0 = x).
  { intros x Hx. unfold lane. rewrite Z.mul_0_r, Z.div_1_r. apply Z.mod_small. exact Hx. }
  rewrite (L a Ha), (L b Hb). apply L.
  change (8 * Z.of_nat 8) with 64 in *.
  pose proof (fld_qword_range a Ha). pose proof (fld_qword_range b Hb).
  unfold fcmov_val, fcmov. destruct op; destruct (fucomi_CF _ _); assumption.
Qed.

Lemma fcmov_block_ok op : block_ok 8 8 (fcmov_val op) (fcmov_block op).
Proof.
  intros pa pb m base Hap. eexists. split.
  - unfold fcmov_block. do 2 f_equal; lia.
  - unfold fcmov_elem. cbv beta.
    apply (eight_quads 8 1 (fcmov_val op) (fcmov_val op) eq_refl ltac:(lia)).
    + intros a0 b0 i Ha Hb Hi. apply fcmov_val_lane; assumption.
    + unfold apart in *. lia.
Qed.

Lemma minmax_float_pointwise c op CpuInfo m a Aofs b Bofs Len :
  0 <= Len < 2 ^ 31 ->
  apart (a + sizeof jfloat * Aofs) (b + sizeof jfloat * Bofs) (sizeof jfloat * Len) ->
  pointwise 4
    (if has_flag CpuInfo CPU_SSE
     then phase_fun jfloat c (ps_lane op) (body_lo 64 jfloat (a + sizeof jfloat * Aofs) Len)
            (body_hi 64 jfloat (a + sizeof jfloat * Aofs) Len)
     else fun _ => pick jfloat c)
    (a + sizeof jfloat * Aofs) (b + sizeof jfloat * Bofs) Len m
    (snd (minmax_float c op CpuInfo m a Aofs b Bofs Len)).
Proof.
  intros HL Hap. unfold minmax_float.
  destruct (has_flag CpuInfo CPU_SSE).
  2:{ apply (BODY_LOOP_pointwise jfloat c); assumption. }
  unfold body_hi, body_lo.
  destruct (LOOP_PREFIX_ALIGNED 64 (sizeof jfloat) (a + sizeof jfloat * Aofs) Len)
    as [[ls len] le] eqn:E.
  apply LOOP_PREFIX_ALIGNED_spec in E; [|auto|apply sizeof_cases|exact HL].
  destruct E as (Hls & Hlen & Hle & Hsum & _). cbn [fst snd].
  change (64 / sizeof jfloat) with 16 in *.
  rewrite wrap32_small by lia.
  assert (P : forall block, block_ok 4 16 (ps_lane op) block ->
    pointwise 4 (phase_fun jfloat c (ps_lane op) ls (ls + len * 16))
      (a + sizeof jfloat * Aofs) (b + sizeof jfloat * Bofs) Len m
      (snd (loop_n (Z.to_nat le) (cmp_step jfloat c)
              (loop_n (Z.to_nat len) block
                 (loop_n (Z.to_nat ls) (cmp_step jfloat c)
                    (a + sizeof jfloat * Aofs, b + sizeof jfloat * Bofs, m)))))).
  { intros block Hb.
    pose proof (three_phase jfloat c 16 (ps_lane op) block (a + sizeof jfloat * Aofs)
                  (b + sizeof jfloat * Bofs) ls len le m ltac:(lia) Hb) as P.
    rewrite Hsum in P. apply P; try lia. exact Hap. }
  pose proof (P _ (sse_block_aligned_ok op)) as Pa.
  pose proof (P _ (sse_block_unaligned_ok op)) as Pu.
  destruct (loop_n (Z.to_nat ls) (cmp_step jfloat c) _) as [[eax edx] m1].
  destruct (Z.eqb_spec len 0) as [->|Hne].
  - cbn [snd]. exact Pa.
  - destruct (negb _ || negb _); cbn [snd]; assumption.
Qed.

Lemma minmax_double_pointwise c op CpuInfo m a Aofs b Bofs Len :
  0 <= Len < 2 ^ 31 ->
  apart (a + sizeof jdouble * Aofs) (b + sizeof jdouble * Bofs) (sizeof jdouble * Len) ->
  pointwise 8
    (if has_flag CpuInfo CPU_CMOV
     then phase_fun jdouble c (fcmov_val op) (body_lo 64 jdouble (a + sizeof jdouble * Aofs) Len)
            (body_hi 64 jdouble (a + sizeof jdouble * Aofs) Len)
     else fun _ => pick jdouble c)
    (a + sizeof jdouble * Aofs) (b + sizeof jdouble * Bofs) Len m
    (snd (minmax_double c op CpuInfo m a Aofs b Bofs Len)).
Proof.
  intros HL Hap. unfold minmax_double.
  destruct (has_flag CpuInfo CPU_CMOV).
  2:{ apply (BODY_LOOP_pointwise jdouble c); assumption. }
  rewrite snd_let_pair.
  apply (vector_branch_pointwise jdouble c 64 (fcmov_val op)); auto.
  apply fcmov_block_ok.
Qed.

(** Every entry point applies [elem_fun] element by element and leaves
    the rest of memory alone. *)
Lemma minmax_pointwise e CpuInfo m a Aofs b Bofs Len :
  a <> 0 -> b <> 0 -> 0 <= Len < 2 ^ 31 ->
  apart (a + sizeof (entry_type e) * Aofs) (b + sizeof (entry_type e) * Bofs)
        (sizeof (entry_type e) * Len) ->
  pointwise (sizeof_nat (entry_type e))
    (elem_fun e CpuInfo (a + sizeof (entry_type e) * Aofs) Len)
    (a + sizeof (entry_type e) * Aofs) (b + sizeof (entry_type e) * Bofs) Len m
    (snd (minmax e CpuInfo m a Aofs b Bofs Len)).
Proof.
  intros Ha Hb HL Hap. unfold minmax.
  destruct (Z.eqb_spec a 0); [contradiction|].
  destruct (Z.eqb_spec b 0); [contradiction|]. cbn [orb].
  assert (UB : forall c, entry_type e = uint8 ->
    pointwise 1 (fun _ => pick uint8 c) (a + sizeof uint8 * Aofs) (b + sizeof uint8 * Bofs) Len m
      (snd (minmax_ub c CpuInfo m a Aofs b Bofs Len))).
  { intros c ET. rewrite ET in Hap. unfold minmax_ub. cbn [snd].
    destruct (cmp_loop_pointwise uint8 c (Z.to_nat Len) (a + sizeof uint8 * Aofs)
                (b + sizeof uint8 * Bofs) m) as (m' & E & P).
    { rewrite Z2Nat.id by lia. exact Hap. }
    change (sizeof uint8) with 1 in E. rewrite !Z.mul_1_l in E.
    change (sizeof uint8 * Aofs) with (1 * Aofs). change (sizeof uint8 * Bofs) with (1 * Bofs).
    rewrite !Z.mul_1_l. rewrite E. cbn [snd]. rewrite !Z.mul_1_l in P.
    rewrite Z2Nat.id in P by lia. exact P. }
  destruct e; cbn [entry_body elem_fun entry_type entry_cmp] in *;
    try (match goal with
         | |- context [minmax_int ?K _ _ _ _ _ _ _] =>
             apply (minmax_int_pointwise K CpuInfo);
             [unfold int_kernels; cbn [In]; tauto | exact HL | exact Hap]
         end);
    try (apply BODY_LOOP_pointwise; assumption);
    try (apply minmax_float_pointwise; assumption);
    try (apply minmax_double_pointwise; assumption);
    try (apply UB; reflexivity).
Qed.

(** * The element functions *)

Lemma elem_fun_integer e CpuInfo pa Len i :
  is_integer e = true ->
  elem_fun e CpuInfo pa Len i = pick (entry_type e) (entry_cmp e).
Proof. destruct e; cbn; intros H; try discriminate; reflexivity. Qed.

Lemma int_value_inj T x y :
  0 <= x < 2 ^ (8 * sizeof T) -> 0 <= y < 2 ^ (8 * sizeof T) ->
  int_value T x = int_value T y -> x = y.
Proof.
  intros Hx Hy. unfold int_value.
  destruct T; try (intros; assumption); apply signed_inj; assumption.
Qed.

Lemma c_lt_int_value T x y :
  T <> jfloat -> T <> jdouble -> c_lt T x y = (int_value T x <? int_value T y).
Proof. intros H1 H2. destruct T; try reflexivity; congruence. Qed.

(** On integer types the scalar statement leaves the minimum (maximum). *)
Lemma pick_choose T c x y :
  T <> jfloat -> T <> jdouble ->
  int_value T (pick T c x y) = choose c (int_value T x) (int_value T y).
Proof.
  intros H1 H2. unfold pick, c_cmp, choose. destruct c;
    rewrite c_lt_int_value by assumption.
  - destruct (Z.ltb_spec (int_value T y) (int_value T x)); lia.
  - destruct (Z.ltb_spec (int_value T x) (int_value T y)); lia.
Qed.

Lemma pick_comm T c x y :
  T <> jfloat -> T <> jdouble ->
  0 <= x < 2 ^ (8 * sizeof T) -> 0 <= y < 2 ^ (8 * sizeof T) ->
  pick T c x y = pick T c y x.
Proof.
  intros H1 H2 Hx Hy. apply (int_value_inj T).
  - unfold pick. destruct (c_cmp _ _ _ _); assumption.
  - unfold pick. destruct (c_cmp _ _ _ _); assumption.
  - rewrite !pick_choose by assumption. destruct c; cbn; lia.
Qed.

Lemma pick_idem T c x y : pick T c (pick T c x y) y = pick T c x y.
Proof.
  unfold pick. destruct (c_cmp T c x y) eqn:E; [|rewrite E; reflexivity].
  destruct (c_cmp T c y y); reflexivity.
Qed.

Lemma ps_lane_idem op x y : ps_lane op (ps_lane op x y) y = ps_lane op x y.
Proof.
  unfold ps_lane. destruct op.
  - destruct (SFltb (sf32 x) (sf32 y)) eqn:E; [rewrite E; reflexivity|].
    destruct (SFltb (sf32 y) (sf32 y)); reflexivity.
  - destruct (SFltb (sf32 y) (sf32 x)) eqn:E; [rewrite E; reflexivity|].
    destruct (SFltb (sf32 y) (sf32 y)); reflexivity.
Qed.

(** Loading what was loaded changes nothing. *)
Lemma fld_qword_idem x : fld_qword (fld_qword x) = fld_qword x.
Proof.
  assert (E : fld_qword x = x \/ fld_qword x = Z.lor x (2 ^ 51))
    by (unfold fld_qword; destruct (sf64 x); auto).
  destruct E as [E|E].
  - rewrite E. exact E.
  - rewrite E. unfold fld_qword. destruct (sf64 (Z.lor x (2 ^ 51))); try reflexivity.
    rewrite <- Z.lor_assoc, Z.lor_diag. reflexivity.
Qed.

Lemma fld_qword_plain x : sf64 x <> S754_nan -> fld_qword x = x.
Proof. unfold fld_qword. destruct (sf64 x); congruence. Qed.

Lemma fcmov_val_plain op x y :
  sf64 x <> S754_nan -> sf64 y <> S754_nan ->
  fcmov_val op x y = fcmov op (fucomi_CF y x) y x.
Proof.
  intros Hx Hy. unfold fcmov_val. rewrite !fld_qword_plain by assumption. reflexivity.
Qed.

Lemma fcmov_val_idem op x y : fcmov_val op (fcmov_val op x y) y = fcmov_val op x y.
Proof.
  unfold fcmov_val, fcmov.
  set (x' := fld_qword x). set (y' := fld_qword y).
  assert (Ix : fld_qword x' = x') by apply fld_qword_idem.
  assert (Iy : fld_qword y' = y') by apply fld_qword_idem.
  destruct op.
  - destruct (fucomi_CF y' x') eqn:E.
    + rewrite Iy. destruct (fucomi_CF y' y'); reflexivity.
    + rewrite Ix, E. reflexivity.
  - destruct (fucomi_CF y' x') eqn:E.
    + rewrite Ix, E. reflexivity.
    + rewrite Iy. destruct (fucomi_CF y' y'); reflexivity.
Qed.

Lemma phase_fun_idem T c Fv lo hi i x y :
  (forall x y, Fv (Fv x y) y = Fv x y) ->
  phase_fun T c Fv lo hi i (phase_fun T c Fv lo hi i x y) y = phase_fun T c Fv lo hi i x y.
Proof.
  intros H. unfold phase_fun. destruct (_ && _); [apply H | apply pick_idem].
Qed.

(** Applying an entry point's element function again changes nothing. *)
Lemma elem_fun_idem e CpuInfo pa Len i x y :
  elem_fun e CpuInfo pa Len i (elem_fun e CpuInfo pa Len i x y) y =
  elem_fun e CpuInfo pa Len i x y.
Proof.
  destruct e; cbn [elem_fun]; try apply pick_idem;
    destruct (has_flag _ _); try apply pick_idem;
    apply phase_fun_idem; intros; (apply ps_lane_idem || apply fcmov_val_idem).
Qed.

(** ** Order of floating-point values *)

Lemma SFcompare_antisym x y : SFcompare y x = option_map CompOpp (SFcompare x y).
Proof.
  destruct x as [sx|sx| |sx mx ex], y as [sy|sy| |sy my ey]; cbn;
    try reflexivity;
    try (destruct sx; reflexivity); try (destruct sy; reflexivity);
    try (destruct sx, sy; reflexivity).
  assert (A : Pos.compare_cont Eq my mx = CompOpp (Pos.compare_cont Eq mx my)).
  { rewrite (Pos.compare_cont_antisym mx my Eq). reflexivity. }
  destruct sx, sy; try reflexivity; rewrite (Z.compare_antisym ex ey);
    destruct (ex ?= ey) eqn:E; cbn; try reflexivity;
    rewrite A; destruct (Pos.compare_cont Eq mx my); reflexivity.
Qed.

Lemma SFcompare_refl x : x <> S754_nan -> SFcompare x x = Some Eq.
Proof.
  destruct x as [sx|sx| |sx mx ex]; cbn; intros H; try reflexivity; try congruence.
  - destruct sx; reflexivity.
  - rewrite Z.compare_refl, Pos.compare_cont_refl. destruct sx; reflexivity.
Qed.

Lemma SFcompare_some x y :
  x <> S754_nan -> y <> S754_nan -> exists c, SFcompare x y = Some c.
Proof.
  destruct x, y; cbn; intros Hx Hy; try congruence; eexists; reflexivity.
Qed.

(** For operands that are not NaN every selection below returns a
    minimum (maximum). *)
Lemma sf_choice_cases (sx sy : spec_float) (c : comparison) :
  sx <> S754_nan -> sy <> S754_nan -> SFcompare sx sy = Some c ->
  SFcompare sy sx = Some (CompOpp c) /\
  SFcompare sx sx = Some Eq /\ SFcompare sy sy = Some Eq.
Proof.
  intros Hx Hy E. rewrite SFcompare_antisym, E. cbn.
  auto using SFcompare_refl.
Qed.

Ltac sf_crush sx sy :=
  let c := fresh "c" in let E := fresh "E" in
  let E1 := fresh "E" in let E2 := fresh "E" in let E3 := fresh "E" in
  match goal with
  | Hx : sx <> S754_nan, Hy : sy <> S754_nan |- _ =>
      destruct (SFcompare_some sx sy Hx Hy) as [c E];
      destruct (sf_choice_cases sx sy c Hx Hy E) as (E1 & E2 & E3);
      unfold pick, c_cmp, c_lt, ps_lane, fcmov_val, fcmov, fucomi_CF;
      unfold sf_is_choice, sf_is_min, sf_is_max, SFltb, SFleb, SFeqb;
      fold sx sy; destruct c; cbn [CompOpp] in E1;
      rewrite ?E, ?E1; cbv iota; fold sx sy;
      rewrite ?E, ?E1, ?E2, ?E3; reflexivity
  end.

Lemma not_nan_sf T x : is_nan T x = false -> sf T x <> S754_nan.
Proof. unfold is_nan. destruct (sf T x); congruence. Qed.

Lemma float_choice_pick32 c x y :
  sf32 x <> S754_nan -> sf32 y <> S754_nan ->
  sf_is_choice c (sf32 (pick jfloat c x y)) (sf32 x) (sf32 y) = true.
Proof.
  intros Hx Hy. set (sx := sf32 x) in *. set (sy := sf32 y) in *.
  destruct c; sf_crush sx sy.
Qed.

Lemma float_choice_pick64 c x y :
  sf64 x <> S754_nan -> sf64 y <> S754_nan ->
  sf_is_choice c (sf64 (pick jdouble c x y)) (sf64 x) (sf64 y) = true.
Proof.
  intros Hx Hy. set (sx := sf64 x) in *. set (sy := sf64 y) in *.
  destruct c; sf_crush sx sy.
Qed.

Lemma float_choice_minps x y :
  sf32 x <> S754_nan -> sf32 y <> S754_nan ->
  sf_is_choice CmpGt (sf32 (ps_lane minps x y)) (sf32 x) (sf32 y) = true.
Proof.
  intros Hx Hy. set (sx := sf32 x) in *. set (sy := sf32 y) in *. sf_crush sx sy.
Qed.

Lemma float_choice_maxps x y :
  sf32 x <> S754_nan -> sf32 y <> S754_nan ->
  sf_is_choice CmpLt (sf32 (ps_lane maxps x y)) (sf32 x) (sf32 y) = true.
Proof.
  intros Hx Hy. set (sx := sf32 x) in *. set (sy := sf32 y) in *. sf_crush sx sy.
Qed.

Lemma float_choice_fcmovnb x y :
  sf64 x <> S754_nan -> sf64 y <> S754_nan ->
  sf_is_choice CmpGt (sf64 (fcmov_val fcmovnb x y)) (sf64 x) (sf64 y) = true.
Proof.
  intros Hx Hy. rewrite fcmov_val_plain by assumption.
  set (sx := sf64 x) in *. set (sy := sf64 y) in *. sf_crush sx sy.
Qed.

Lemma float_choice_fcmovb x y :
  sf64 x <> S754_nan -> sf64 y <> S754_nan ->
  sf_is_choice CmpLt (sf64 (fcmov_val fcmovb x y)) (sf64 x) (sf64 y) = true.
Proof.
  intros Hx Hy. rewrite fcmov_val_plain by assumption.
  set (sx := sf64 x) in *. set (sy := sf64 y) in *. sf_crush sx sy.
Qed.

(** On float and double, operands that are not NaN get a minimum
    (maximum), whichever statement or instruction handles them. *)
Lemma elem_fun_float e CpuInfo pa Len i x y :
  is_integer e = false ->
  is_nan (entry_type e) x = false -> is_nan (entry_type e) y = false ->
  sf_is_choice (entry_cmp e)
    (sf (entry_type e) (elem_fun e CpuInfo pa Len i x y))
    (sf (entry_type e) x) (sf (entry_type e) y) = true.
Proof.
  intros He Hx Hy. apply not_nan_sf in Hx, Hy.
  destruct e; try discriminate He; cbn [elem_fun entry_type entry_cmp sf] in *;
    destruct (has_flag _ _); unfold phase_fun; try destruct (_ && _);
    auto using float_choice_pick32, float_choice_pick64, float_choice_minps,
      float_choice_maxps, float_choice_fcmovnb, float_choice_fcmovb.
Qed.

(** Operands that compare equal take the same place in the order. *)
Lemma SFeqb_finite s m e s' m' e' :
  SFeqb (S754_finite s m e) (S754_finite s' m' e') = true ->
  s = s' /\ m = m' /\ e = e'.
Proof.
  unfold SFeqb. cbn.
  destruct s, s'; try discriminate;
    destruct (Z.compare_spec e e'); try discriminate;
    destruct (Pos.compare_cont Eq m m') eqn:Em; try discriminate;
    apply Pos.compare_eq in Em; subst; auto.
Qed.

Lemma SFeqb_compare_r u v t :
  SFeqb u v = true -> SFcompare t u = SFcompare t v.
Proof.
  intros H.
  destruct u as [su|su| |su mu eu], v as [sv|sv| |sv mv ev];
    try (apply SFeqb_finite in H; destruct H as (-> & -> & ->); reflexivity);
    unfold SFeqb in H; cbn in H;
    try discriminate;
    try (destruct su; discriminate); try (destruct sv; discriminate);
    try (destruct t; reflexivity).
  destruct su, sv; try discriminate; reflexivity.
Qed.

Lemma SFeqb_sym u v : SFeqb u v = true -> SFeqb v u = true.
Proof.
  unfold SFeqb. rewrite (SFcompare_antisym u v).
  destruct (SFcompare u v) as [[]|]; cbn; intros; try discriminate; auto.
Qed.

Lemma SFeqb_compare_l u v t :
  SFeqb u v = true -> SFcompare u t = SFcompare v t.
Proof.
  intros H. rewrite (SFcompare_antisym t u), (SFcompare_antisym t v).
  rewrite (SFeqb_compare_r u v t H). reflexivity.
Qed.

Lemma SFleb_antisym u v :
  SFleb u v = true -> SFleb v u = true -> SFeqb u v = true.
Proof.
  unfold SFeqb, SFleb. rewrite (SFcompare_antisym u v).
  destruct (SFcompare u v) as [[]|]; cbn; intros; try discriminate; auto.
Qed.

(** Two minima (maxima) of the same two values are equal as numbers. *)
Lemma sf_choice_unique c r1 r2 x y :
  sf_is_choice c r1 x y = true -> sf_is_choice c r2 y x = true -> SFeqb r1 r2 = true.
Proof.
  destruct c; unfold sf_is_choice, sf_is_min, sf_is_max; intros H1 H2;
    apply andb_prop in H1, H2; destruct H1 as [H1 H1y], H2 as [H2 H2x];
    apply andb_prop in H1, H2; destruct H1 as [H1e H1x], H2 as [H2e H2y];
    apply SFleb_antisym; unfold SFleb in *.
  - apply orb_prop in H2e. destruct H2e as [E|E];
      rewrite (SFeqb_compare_r _ _ r1 E); assumption.
  - apply orb_prop in H1e. destruct H1e as [E|E];
      rewrite (SFeqb_compare_r _ _ r2 E); assumption.
  - apply orb_prop in H1e. destruct H1e as [E|E];
      rewrite (SFeqb_compare_l _ _ r2 E); assumption.
  - apply orb_prop in H2e. destruct H2e as [E|E];
      rewrite (SFeqb_compare_l _ _ r1 E); assumption.
Qed.

(** * Results of the entry points *)

(** A result is determined by its elements and its frame. *)
Lemma pointwise_unique w F pa pb n m m1 m2 :
  (0 < w)%nat -> 0 <= n ->
  pointwise w F pa pb n m m1 -> pointwise w F pa pb n m m2 ->
  forall x, m1 x = m2 x.
Proof.
  intros Hw Hn [E1 O1] [E2 O2] x.
  destruct (Z_lt_le_dec x pa) as [L|L]; [rewrite O1, O2 by lia; reflexivity|].
  destruct (Z_lt_le_dec x (pa + Z.of_nat w * n)) as [U|U];
    [|rewrite O1, O2 by lia; reflexivity].
  set (i := (x - pa) / Z.of_nat w). set (k := (x - pa) mod Z.of_nat w).
  assert (Hx : x = pa + Z.of_nat w * i + k)
    by (subst i k; pose proof (Z.div_mod (x - pa) (Z.of_nat w)); lia).
  assert (Hk : 0 <= k < Z.of_nat w) by (apply Z.mod_pos_bound; lia).
  assert (Hi : 0 <= i < n).
  { split; [apply Z.div_pos; lia|]. apply Z.div_lt_upper_bound; lia. }
  rewrite Hx.
  rewrite <- (rd_byte w m1 _ k Hk), <- (rd_byte w m2 _ k Hk).
  rewrite E1, E2 by assumption. reflexivity.
Qed.

(** A result whose elements are those of the input is the input. *)
Lemma pointwise_fixed w F pa pb n m m' :
  (0 < w)%nat -> 0 <= n ->
  pointwise w F pa pb n m m' ->
  (forall i, 0 <= i < n ->
     F i (rd w m (pa + Z.of_nat w * i)) (rd w m (pb + Z.of_nat w * i)) =
     rd w m (pa + Z.of_nat w * i)) ->
  forall x, m' x = m x.
Proof.
  intros Hw Hn P Fx. apply (pointwise_unique w F pa pb n m); try assumption.
  split; [|reflexivity]. intros i Hi. symmetry. apply Fx, Hi.
Qed.

(** The second operand is not written when the operands are apart. *)
Lemma pointwise_source w F pa pb n m m' :
  apart pa pb (Z.of_nat w * n) ->
  pointwise w F pa pb n m m' ->
  forall i, 0 <= i < n -> rd w m' (pb + Z.of_nat w * i) = rd w m (pb + Z.of_nat w * i).
Proof.
  intros Hap [_ O] i Hi. apply rd_ext. intros k Hk. apply O.
  destruct Hap; nia.
Qed.

Lemma apart_sym pa pb L : apart pa pb L -> apart pb pa L.
Proof. unfold apart. tauto. Qed.

Lemma elem_at T m a ofs i :
  elem T m a (ofs + i) =
  rd (sizeof_nat T) m (a + sizeof T * ofs + Z.of_nat (sizeof_nat T) * i).
Proof. unfold elem, sizeof. f_equal. lia. Qed.

Lemma integer_entry_type e :
  is_integer e = true -> entry_type e <> jfloat /\ entry_type e <> jdouble.
Proof. destruct e; cbn; intros H; try discriminate H; split; discriminate. Qed.


Lemma sf_is_choice_swap c r x y : sf_is_choice c r x y = sf_is_choice c r y x.
Proof.
  unfold sf_is_choice, sf_is_min, sf_is_max.
  destruct c; rewrite (orb_comm (SFeqb r x)), <- !andb_assoc;
    f_equal; apply andb_comm.
Qed.

(** ** Store kinds *)

Lemma cacheSize_eq d :
  cacheSize d =
  Z.max 65536 (Z.land (Z.shiftr d CPU_L2SIZE_SHIFT) CPU_L2SIZE * CPU_L2SIZE_UNIT).
Proof.
  unfold cacheSize.
  assert (H : 0 <= Z.land (Z.shiftr d CPU_L2SIZE_SHIFT) CPU_L2SIZE < 2 ^ 10)
    by (apply land_range_r; [lia | unfold CPU_L2SIZE; lia]).
  rewrite sint32_small by lia.
  destruct (Z.ltb_spec (Z.land (Z.shiftr d CPU_L2SIZE_SHIFT) CPU_L2SIZE * CPU_L2SIZE_UNIT) 65536); lia.
Qed.

Lemma cacheSize_blocks d : exists k, 512 <= k /\ cacheSize d = 128 * k.
Proof.
  rewrite cacheSize_eq.
  assert (H : 0 <= Z.land (Z.shiftr d CPU_L2SIZE_SHIFT) CPU_L2SIZE < 2 ^ 10)
    by (apply land_range_r; [lia | unfold CPU_L2SIZE; lia]).
  set (f := Z.land _ _) in *. unfold CPU_L2SIZE_UNIT.
  destruct (Z.max_spec 65536 (f * (32 * 1024))) as [[L ->] | [L ->]].
  - exists (f * 256). lia.
  - exists 512. lia.
Qed.

(** The block counts of the assembly loops against the cache size in
    bytes. *)
Lemma blocks_bulk_store n u cs k :
  0 <= n -> 0 < u -> cs = u * k ->
  (if n =? 0 then None else if n <? cs / u then Some Aligned else Some NonTemporal) =
  bulk_store (u * n) cs.
Proof.
  intros Hn Hu ->. unfold bulk_store.
  replace (u * k / u) with k by (rewrite Z.mul_comm, Z.div_mul; lia).
  destruct (Z.eqb_spec n 0) as [->|N].
  - rewrite Z.mul_0_r. reflexivity.
  - destruct (Z.eqb_spec (u * n) 0); [nia|].
    destruct (Z.ltb_spec n k), (Z.ltb_spec (u * n) (u * k)); try reflexivity; nia.
Qed.

Lemma fill_asm_path filler cs pa lenStart fillerDisp len lenEnd m :
  fst (fill_asm filler cs pa lenStart fillerDisp len lenEnd m) =
  let ecx := Z.shiftr (wrap32 len) 3 in
  if ecx =? 0 then None else if ecx <? cs then Some Aligned else Some NonTemporal.
Proof.
  unfold fill_asm. cbv zeta.
  destruct (Z.shiftr (wrap32 len) 3 =? 0).
  - destruct (Z.land (wrap32 len) 7 =? 0); [reflexivity|].
    destruct (loop_n _ _ _); reflexivity.
  - destruct (Z.shiftr (wrap32 len) 3 <? cs);
      destruct (loop_n _ (fill_block128 _ _) _);
      (destruct (Z.land (wrap32 len) 7 =? 0); [reflexivity|]);
      destruct (loop_n _ _ _); reflexivity.
Qed.

(** The memory the block leaves does not depend on the threshold. *)
Lemma fill_asm_threshold filler cs cs' pa lenStart fillerDisp len lenEnd m :
  snd (fill_asm filler cs pa lenStart fillerDisp len lenEnd m) =
  snd (fill_asm filler cs' pa lenStart fillerDisp len lenEnd m).
Proof.
  unfold fill_asm. cbv zeta.
  destruct (Z.shiftr (wrap32 len) 3 =? 0); [reflexivity|].
  change (fill_block128 NonTemporal) with (fill_block128 Aligned).
  destruct (Z.shiftr (wrap32 len) 3 <? cs), (Z.shiftr (wrap32 len) 3 <? cs');
    destruct (loop_n _ (fill_block128 _ _) _);
    (destruct (Z.land (wrap32 len) 7 =? 0); [reflexivity|]);
    destruct (loop_n _ _ _); reflexivity.
Qed.

Lemma fill_sse_path T d m a BeginIndex Len V :
  0 <= Len -> 32 < sizeof T * Len < 2 ^ 31 ->
  fst (fill_sse T d m a BeginIndex Len V) =
  Vector SSE
    (bulk_store (128 * fill_blocks (a + sizeof T * BeginIndex) (sizeof T * Len))
                (cacheSize d)).
Proof.
  intros HL Hb. unfold fill_sse.
  set (pa := a + sizeof T * BeginIndex).
  assert (Hd : Z.land pa 31 = pa mod 32) by (apply (land_mask _ 5); lia).
  rewrite Hd.
  assert (Hdr : 0 <= pa mod 32 < 32) by (apply Z.mod_pos_bound; lia).
  rewrite (Z.mul_comm Len).
  rewrite (sint32_small (sizeof T * Len)) by lia.
  destruct (cacheSize_blocks d) as (k & Hk & Ek).
  assert (tail : forall ls fd len1, 0 <= len1 < 2 ^ 31 ->
            len1 = sizeof T * Len - fill_head pa ->
            fst (let '(body, m0) :=
                      fill_asm (filler_init (sizeof_nat T) V) (cacheSize d / 128)
                        pa ls fd (Z.quot len1 16) (Z.land len1 15) m in
                 (Vector SSE body, m0)) =
            Vector SSE (bulk_store (128 * fill_blocks pa (sizeof T * Len)) (cacheSize d))).
  { intros ls fd len1 Hl1 E1.
    pose proof (fill_asm_path (filler_init (sizeof_nat T) V) (cacheSize d / 128)
                  pa ls fd (Z.quot len1 16) (Z.land len1 15) m) as P.
    destruct (fill_asm _ _ _ _ _ _ _ _) as [body m0]. cbn [fst] in *.
    rewrite P. cbv zeta. f_equal.
    rewrite Z.quot_div_nonneg by lia.
    assert (0 <= len1 / 16 <= len1).
    { split; [apply Z.div_pos; lia|]. apply Z.div_le_upper_bound; lia. }
    rewrite wrap32_small by lia.
    rewrite Z.shiftr_div_pow2 by lia. change (2 ^ 3) with 8.
    rewrite Z.div_div by lia. change (16 * 8) with 128.
    unfold fill_blocks. rewrite <- E1.
    apply (blocks_bulk_store (len1 / 128) 128 (cacheSize d) k);
      [apply Z.div_pos; lia | lia | exact Ek]. }
  unfold fill_head in tail.
  destruct (Z.eqb_spec (pa mod 32) 0) as [E|E]; cbv [negb].
  - apply tail; lia.
  - rewrite (sint32_small (sizeof T * Len - _)) by lia.
    apply tail; lia.
Qed.

Lemma fill_sse_threshold T d d' m a BeginIndex Len V :
  snd (fill_sse T d m a BeginIndex Len V) = snd (fill_sse T d' m a BeginIndex Len V).
Proof.
  unfold fill_sse. cbv zeta.
  destruct (negb _);
    match goal with
    | |- snd (let '(_, _) := fill_asm ?f ?cs ?pa ?ls ?fd ?len ?le ?m in _) =
         snd (let '(_, _) := fill_asm _ ?cs' _ _ _ _ _ _ in _) =>
        pose proof (fill_asm_threshold f cs cs' pa ls fd len le m) as P;
        destruct (fill_asm f cs pa ls fd len le m),
                 (fill_asm f cs' pa ls fd len le m); exact P
    end.
Qed.

Lemma copy_asm_path n pb pa lenStart len lenEnd m :
  fst (copy_asm n pb pa lenStart len lenEnd m) =
  let ecx := wrap32 len in
  if ecx =? 0 then None
  else if negb (Z.land (pb + wrap32 lenStart) 0xF =? 0)
          || negb (Z.land (pa + wrap32 lenStart) 0xF =? 0)
  then Some Unaligned
  else if ecx <? n then Some Aligned else Some NonTemporal.
Proof.
  unfold copy_asm. cbv zeta.
  destruct (wrap32 len =? 0); [reflexivity|].
  destruct (negb _ || negb _).
  - destruct (loop_n _ _ _) as [[? ?] ?]; reflexivity.
  - destruct (wrap32 len <? n); destruct (loop_n _ _ _) as [[? ?] ?]; reflexivity.
Qed.

Lemma copy_asm_threshold n n' pb pa lenStart len lenEnd m :
  snd (copy_asm n pb pa lenStart len lenEnd m) =
  snd (copy_asm n' pb pa lenStart len lenEnd m).
Proof.
  unfold copy_asm. cbv zeta.
  destruct (wrap32 len =? 0); [reflexivity|].
  destruct (negb _ || negb _); [reflexivity|].
  change (copy_block64 NonTemporal) with (copy_block64 Aligned).
  destruct (wrap32 len <? n), (wrap32 len <? n');
    destruct (loop_n _ _ _) as [[? ?] ?]; reflexivity.
Qed.

Lemma copyBytes_sse_threshold d d' m a Aofs b Bofs Len :
  snd (copyBytes_sse d m a Aofs b Bofs Len) = snd (copyBytes_sse d' m a Aofs b Bofs Len).
Proof.
  unfold copyBytes_sse. cbv zeta.
  destruct (LOOP_PREFIX_ALIGNED 64 1 (b + Bofs) Len) as [[lenStart len] lenEnd].
  pose proof (copy_asm_threshold (cacheSize d / 64 / 2) (cacheSize d' / 64 / 2)
                (a + Aofs) (b + Bofs) lenStart len lenEnd m) as P.
  destruct (copy_asm (cacheSize d / 64 / 2) _ _ _ _ _ _),
           (copy_asm (cacheSize d' / 64 / 2) _ _ _ _ _ _). exact P.
Qed.

Lemma copyBytes_sse_path d m a Aofs b Bofs Len :
  0 <= Len < 2 ^ 31 ->
  fst (copyBytes_sse d m a Aofs b Bofs Len) =
  Vector SSE
    (if copy_blocks (b + Bofs) Len =? 0 then None
     else if (a + Aofs - (b + Bofs)) mod 16 =? 0
     then bulk_store (64 * copy_blocks (b + Bofs) Len) (cacheSize d / 2)
     else Some Unaligned).
Proof.
  intros HL. unfold copyBytes_sse, copy_blocks. cbv zeta.
  set (pa := b + Bofs). set (pb := a + Aofs).
  destruct (LOOP_PREFIX_ALIGNED 64 1 pa Len) as [[lenStart len] lenEnd] eqn:E.
  destruct (LOOP_PREFIX_ALIGNED_spec 64 1 pa Len lenStart len lenEnd) as
    (Hs & Hl & He & Hsum & Hal & Hz); [lia | lia | lia | exact E |].
  pose proof (copy_asm_path (cacheSize d / 64 / 2) pb pa lenStart len lenEnd m) as P.
  destruct (copy_asm _ _ _ _ _ _ _) as [body m0]. cbn [fst snd] in *.
  rewrite P. cbv zeta. f_equal.
  rewrite !wrap32_small by lia.
  destruct (Z.eqb_spec len 0) as [E0|E0]; [reflexivity|].
  assert (A32 : (pa + lenStart) mod 32 = 0).
  { destruct (Z.eq_dec lenStart 0) as [Z0|Z0].
    - rewrite Z0, Z.add_0_r. destruct (proj1 Hz Z0) as [H|[H|H]]; [exact H | |].
      + rewrite Z.mod_1_r in H. congruence.
      + change (64 / 1) with 64 in Hsum. rewrite Z.div_1_r in H.
        assert (0 <= pa mod 32 < 32) by (apply Z.mod_pos_bound; lia). lia.
    - rewrite <- (Hal Z0). f_equal. lia. }
  assert (Ha : Z.land (pa + lenStart) 15 = 0).
  { change 15 with (2 ^ 4 - 1). rewrite land_mask by lia. change (2 ^ 4) with 16.
    Z.div_mod_to_equations; lia. }
  assert (Hb : Z.land (pb + lenStart) 15 = (pb - pa) mod 16).
  { change 15 with (2 ^ 4 - 1). rewrite land_mask by lia. change (2 ^ 4) with 16.
    Z.div_mod_to_equations; lia. }
  change 0xF with 15. rewrite Ha, Hb. cbn [Z.eqb negb orb].
  rewrite orb_false_r.
  destruct (Z.eqb_spec ((pb - pa) mod 16) 0) as [M|M]; cbn [negb]; [|reflexivity].
  destruct (cacheSize_blocks d) as (k & Hk & Ek).
  assert (E2 : cacheSize d / 2 = 64 * k) by (rewrite Ek; Z.div_mod_to_equations; lia).
  rewrite <- (blocks_bulk_store len 64 (cacheSize d / 2) k) by lia.
  destruct (Z.eqb_spec len 0); [contradiction|].
  replace (cacheSize d / 64 / 2) with (cacheSize d / 2 / 64); [reflexivity|].
  rewrite !Z.div_div by lia. reflexivity.
Qed.

(** ** The min/max entry points, element by element *)

Lemma minmax_elems e d m a Aofs b Bofs Len :
  a <> 0 -> b <> 0 -> 0 <= Len < 2 ^ 31 ->
  apart (a + sizeof (entry_type e) * Aofs) (b + sizeof (entry_type e) * Bofs)
        (sizeof (entry_type e) * Len) ->
  (forall i, 0 <= i < Len ->
     elem (entry_type e) (snd (minmax e d m a Aofs b Bofs Len)) a (Aofs + i) =
     elem_fun e d (a + sizeof (entry_type e) * Aofs) Len i
       (elem (entry_type e) m a (Aofs + i)) (elem (entry_type e) m b (Bofs + i))) /\
  (forall i, 0 <= i < Len ->
     elem (entry_type e) (snd (minmax e d m a Aofs b Bofs Len)) b (Bofs + i) =
     elem (entry_type e) m b (Bofs + i)) /\
  (forall x, x < a + sizeof (entry_type e) * Aofs \/
             a + sizeof (entry_type e) * Aofs + sizeof (entry_type e) * Len <= x ->
     snd (minmax e d m a Aofs b Bofs Len) x = m x).
Proof.
  intros Ha Hb HL Hap.
  pose proof (minmax_pointwise e d m a Aofs b Bofs Len Ha Hb HL Hap) as P.
  pose proof (pointwise_source _ _ _ _ _ _ _ Hap P) as S.
  destruct P as [E O]. repeat split.
  - intros i Hi. rewrite !elem_at. apply E, Hi.
  - intros i Hi. rewrite !elem_at. apply S, Hi.
  - exact O.
Qed.

Lemma elem_range T m a i : 0 <= elem T m a i < 2 ^ (8 * sizeof T).
Proof. unfold elem, sizeof. apply rd_range. Qed.

Lemma sizeof_nat_pos T : (0 < sizeof_nat T)%nat.
Proof. destruct T; cbn; lia. Qed.

(** * Main results *)

(** C2: after [fill] under any descriptor, for any element type and any
    range [BeginIndex, EndIndex) of an array (of a byte size below 2^31),
    every element of the range reads as the bits of [V] at the width of
    the type; so as [V] itself when [V] is such a pattern.  The length is
    arbitrary: 0, 1, and the lengths around the unrolling factors are
    instances. *)
Theorem fill_then_read T CpuInfo m a BeginIndex EndIndex V i :
  a <> 0 -> 0 <= BeginIndex <= EndIndex -> EndIndex < 2 ^ 31 ->
  sizeof T * (EndIndex - BeginIndex) < 2 ^ 31 ->
  BeginIndex <= i < EndIndex ->
  elem T (snd (fill T CpuInfo m a BeginIndex EndIndex V)) a i = V mod 2 ^ (8 * sizeof T) /\
  (0 <= V < 2 ^ (8 * sizeof T) ->
   elem T (snd (fill T CpuInfo m a BeginIndex EndIndex V)) a i = V).
Proof.
  intros Ha HB HE Hsz Hi.
  pose proof (fill_read T CpuInfo m a BeginIndex EndIndex V i Ha HB HE Hsz Hi) as R.
  split; [exact R|]. intros HV. rewrite R. apply Z.mod_small, HV.
Qed.

(** An [int] range that starts off a 32-byte boundary, under CPU_SSE. *)
Lemma fill_then_read_witness :
  elem jint (snd (fill jint CPU_SSE ramp 68 3 40 7)) 68 39 = 7.
Proof.
  apply (fill_then_read jint CPU_SSE ramp 68 3 40 7 39); try lia.
  - unfold sizeof. cbn. lia.
  - unfold sizeof. cbn. lia.
Defined.

(** C5: when a [cpuid] of the probe traps, [_cpuInfo] returns the
    descriptor 0 as an ordinary result, and 0 again from its cache on the
    next call; under the descriptor 0 [fill] runs [memset] or the C loop,
    [copyBytes] runs [memmove], and every min/max entry point runs the C
    loop (a null array address ends a call before any branch is taken). *)
Theorem probe_trap_scalar_dispatch (h : Host) :
  cpuInfo_asm h = None ->
  _cpuInfo h statics_init = (0, mk_statics true 0, ProbeTrapped) /\
  _cpuInfo h (mk_statics true 0) = (0, mk_statics true 0, ProbeCached) /\
  (forall T m a BeginIndex EndIndex V,
     fst (fill T 0 m a BeginIndex EndIndex V) =
     if a =? 0 then OutOfMemory
     else if sizeof T =? 1 then Scalar Memset else Scalar CLoop) /\
  (forall m a Aofs b Bofs Len,
     fst (copyBytes 0 m a Aofs b Bofs Len) =
     if (a =? 0) || (b =? 0) then OutOfMemory else Scalar Memmove) /\
  (forall e m a Aofs b Bofs Len,
     fst (minmax e 0 m a Aofs b Bofs Len) =
     if (a =? 0) || (b =? 0) then OutOfMemory else Scalar CLoop).
Proof.
  intros Htrap. repeat split.
  - unfold _cpuInfo. cbn [statics_init cpuInfoCalculated]. rewrite Htrap. reflexivity.
  - intros T m a BeginIndex EndIndex V. unfold fill.
    destruct (a =? 0); [reflexivity|].
    replace (has_flag 0 CPU_SSE) with false by reflexivity. cbn [andb].
    unfold fill_scalar. destruct (sizeof T =? 1); [reflexivity|].
    destruct (LOOP_PREFIX 8 _). reflexivity.
  - intros m a Aofs b Bofs Len. unfold copyBytes.
    destruct ((a =? 0) || (b =? 0)); reflexivity.
  - intros e m a Aofs b Bofs Len. unfold minmax.
    destruct ((a =? 0) || (b =? 0)); [reflexivity|].
    destruct e; reflexivity.
Qed.

(** On the processor whose [cpuid] traps. *)
Lemma probe_trap_scalar_dispatch_witness :
  _cpuInfo trapping_host statics_init = (0, mk_statics true 0, ProbeTrapped) /\
  fst (minmax min_jint 0 ramp 64 0 256 0 40) = Scalar CLoop.
Proof.
  destruct (probe_trap_scalar_dispatch trapping_host eq_refl) as (P & _ & _ & _ & M).
  split; [exact P | exact (M min_jint ramp 64 0 256 0 40)].
Defined.

(** C6: the descriptor [_cpuInfo] returns, on any processor and at any
    call since program start, has CMOV only with FPU, SSE and SSE2 only
    with MMX, SSE2 only with SSE, and 3DNOWEX only with 3DNOW. *)
Theorem probe_downgrade_invariant (h : Host) (st : ProbeStatics) :
  probe_reachable h st ->
  downgrade_invariant (fst (fst (_cpuInfo h st))).
Proof.
  intros R. destruct (probe_descriptor_ok h st R) as [Inv _]. exact Inv.
Qed.

(** On the processor that reports features without their prerequisites. *)
Lemma probe_downgrade_invariant_witness :
  downgrade_invariant (fst (fst (_cpuInfo odd_host statics_init))).
Proof.
  apply (probe_downgrade_invariant odd_host statics_init). apply reach_init.
Defined.

(** C10: in the descriptor [_cpuInfo] returns, the flag CPU_SSE comes
    with CPU_MMXEX, whatever the vendor query reported; hence on a
    processor with SSE every kernel of Arrays_minmax_int.h whose macro set
    defines MINMAX_MMXEX takes its MMXEX branch. *)
Theorem probe_sse_sets_mmxex (h : Host) (st : ProbeStatics) :
  probe_reachable h st ->
  has_flag (fst (fst (_cpuInfo h st))) CPU_SSE = true ->
  has_flag (fst (fst (_cpuInfo h st))) CPU_MMXEX = true /\
  (forall K op m a Aofs b Bofs Len,
     MINMAX_MMXEX K = Some op ->
     exists body,
       fst (minmax_int K (fst (fst (_cpuInfo h st))) m a Aofs b Bofs Len) =
       Vector MMXEX body).
Proof.
  intros R Hsse.
  assert (Hex : has_flag (fst (fst (_cpuInfo h st))) CPU_MMXEX = true)
    by (apply (probe_descriptor_ok h st R), Hsse).
  split; [exact Hex|].
  intros K op m a Aofs b Bofs Len HK. unfold minmax_int. rewrite HK, Hex.
  destruct (BIT_MASK_SSE K); destruct (vector_branch _ _ _ _ _ _ _ _ _ _) as [body m'];
    exists body; reflexivity.
Qed.

(** On the processor of the Pentium III kind. *)
Lemma probe_sse_sets_mmxex_witness :
  has_flag (fst (fst (_cpuInfo sse_host statics_init))) CPU_MMXEX = true /\
  exists body,
    fst (minmax_int K_min_jshort (fst (fst (_cpuInfo sse_host statics_init)))
           ramp 64 0 256 0 40) = Vector MMXEX body.
Proof.
  destruct (probe_sse_sets_mmxex sse_host statics_init (reach_init sse_host) eq_refl)
    as [F S].
  split; [exact F | exact (S K_min_jshort pminsw ramp 64 0 256 0 40 eq_refl)].
Defined.

(** C8: for the unrollings 32 and 64, the element sizes 1, 2, 4 and 8,
    any pointer and any length that is a non-negative [jint],
    LOOP_PREFIX_ALIGNED yields non-negative head, body and tail counts
    that add up to [Len]; a non-zero head ends on a 32-byte boundary; and
    the head is zero exactly when the pointer is on such a boundary, or
    its offset from one is no multiple of the element size, or [Len] is
    less than the elements up to the boundary. *)
Theorem loop_prefix_aligned_partition (U size pa Len : Z) :
  (U = 32 \/ U = 64) -> (size = 1 \/ size = 2 \/ size = 4 \/ size = 8) ->
  0 <= Len < 2 ^ 31 ->
  let '(lenStart, len, lenEnd) := LOOP_PREFIX_ALIGNED U size pa Len in
  0 <= lenStart /\ 0 <= len /\ 0 <= lenEnd /\
  lenStart + len * (U / size) + lenEnd = Len /\
  (lenStart <> 0 -> (pa + size * lenStart) mod 32 = 0) /\
  (lenStart = 0 <->
   pa mod 32 = 0 \/ (pa mod 32) mod size <> 0 \/ Len < (32 - pa mod 32) / size).
Proof.
  intros HU Hs HL.
  destruct (LOOP_PREFIX_ALIGNED U size pa Len) as [[lenStart len] lenEnd] eqn:E.
  destruct (LOOP_PREFIX_ALIGNED_spec U size pa Len lenStart len lenEnd HU Hs HL E)
    as (H1 & H2 & H3 & H4 & H5 & H6).
  repeat split; try lia; try exact H5; apply H6.
Qed.

(** 100 [int]s at address 4100, unrolling 64. *)
Lemma loop_prefix_aligned_partition_witness :
  let '(lenStart, len, lenEnd) := LOOP_PREFIX_ALIGNED 64 4 4100 100 in
  0 <= lenStart /\ 0 <= len /\ 0 <= lenEnd /\
  lenStart + len * (64 / 4) + lenEnd = 100 /\
  (lenStart <> 0 -> (4100 + 4 * lenStart) mod 32 = 0) /\
  (lenStart = 0 <->
   4100 mod 32 = 0 \/ (4100 mod 32) mod 4 <> 0 \/ 100 < (32 - 4100 mod 32) / 4).
Proof.
  apply (loop_prefix_aligned_partition 64 4 4100 100); [right; reflexivity | | lia].
  right; right; left; reflexivity.
Defined.

(** C8, against the wording of the specification: 5 bytes at address 31
    are fewer than one body unit of 32, and the head is 1, not 0. *)
Lemma loop_prefix_aligned_short_head :
  LOOP_PREFIX_ALIGNED 32 1 31 5 = (1, 0, 4).
Proof. reflexivity. Qed.

(** C7: the cache size both SSE paths work with is the L2 field of the
    descriptor times 32K, and 64K when that is less.  The SSE fill stores
    its 128-byte body blocks with non-temporal stores exactly when the
    body is at least that cache size (not half of it), with aligned cached
    stores otherwise.  The SSE copy stores its 64-byte body blocks with
    non-temporal stores exactly when source and destination are congruent
    modulo 16 and the body is at least half that cache size; with
    unaligned stores when they are not congruent, with aligned cached
    stores otherwise.  The contents both operations leave do not depend
    on the cache size in the descriptor. *)
Theorem bulk_store_threshold T d d' m a BeginIndex EndIndex V b Aofs Bofs Len :
  a <> 0 -> b <> 0 ->
  has_flag d CPU_SSE = true -> has_flag d' CPU_SSE = true ->
  0 <= BeginIndex <= EndIndex -> EndIndex < 2 ^ 31 ->
  32 < sizeof T * (EndIndex - BeginIndex) < 2 ^ 31 ->
  0 <= Len < 2 ^ 31 ->
  cacheSize d =
    Z.max 65536 (Z.land (Z.shiftr d CPU_L2SIZE_SHIFT) CPU_L2SIZE * CPU_L2SIZE_UNIT) /\
  fst (fill T d m a BeginIndex EndIndex V) =
    Vector SSE
      (bulk_store
         (128 * fill_blocks (a + sizeof T * BeginIndex) (sizeof T * (EndIndex - BeginIndex)))
         (cacheSize d)) /\
  fst (copyBytes d m a Aofs b Bofs Len) =
    Vector SSE
      (if copy_blocks (b + Bofs) Len =? 0 then None
       else if (a + Aofs - (b + Bofs)) mod 16 =? 0
       then bulk_store (64 * copy_blocks (b + Bofs) Len) (cacheSize d / 2)
       else Some Unaligned) /\
  snd (fill T d m a BeginIndex EndIndex V) = snd (fill T d' m a BeginIndex EndIndex V) /\
  snd (copyBytes d m a Aofs b Bofs Len) = snd (copyBytes d' m a Aofs b Bofs Len).
Proof.
  intros Ha Hb Hd Hd' HB HE Hsz HL.
  assert (Hs : 0 < sizeof T) by apply sizeof_pos.
  assert (Ea : (a =? 0) = false) by (apply Z.eqb_neq, Ha).
  assert (Eb : (b =? 0) = false) by (apply Z.eqb_neq, Hb).
  assert (Hgt : (wrap32 ((EndIndex - BeginIndex) * sizeof T) >? 32) = true).
  { rewrite wrap32_small by nia. apply Z.gtb_lt. lia. }
  split; [apply cacheSize_eq|].
  unfold fill, copyBytes. rewrite Ea, Eb, Hd, Hd'. cbn [orb].
  rewrite (sint32_small (EndIndex - BeginIndex)) by nia.
  rewrite Hgt. cbn [andb].
  split; [apply fill_sse_path; nia|].
  split; [apply copyBytes_sse_path, HL|].
  split; [apply fill_sse_threshold | apply copyBytes_sse_threshold].
Qed.

(** A fill and a copy of a few hundred bytes, and a descriptor with an L2
    field of 16 units. *)
Lemma bulk_store_threshold_witness :
  fst (fill jint CPU_SSE ramp 68 3 40 7) = Vector SSE (Some Aligned) /\
  fst (copyBytes CPU_SSE ramp 68 12 4096 16 300) = Vector SSE (Some Aligned) /\
  snd (fill jint CPU_SSE ramp 68 3 40 7) =
    snd (fill jint (Z.lor CPU_SSE (Z.shiftl 16 CPU_L2SIZE_SHIFT)) ramp 68 3 40 7).
Proof.
  destruct (bulk_store_threshold jint CPU_SSE
              (Z.lor CPU_SSE (Z.shiftl 16 CPU_L2SIZE_SHIFT)) ramp 68 3 40 7
              4096 12 16 300
              ltac:(lia) ltac:(lia) eq_refl eq_refl ltac:(lia) ltac:(lia)
              ltac:(unfold sizeof; cbn; lia) ltac:(lia))
    as (_ & F & C & S & _).
  split; [rewrite F; reflexivity | split; [rewrite C; reflexivity | exact S]].
Defined.

(** C7, against the wording of the specification, for the fill: a body
    of 39936 bytes is more than half of the 65536 bytes of cache, and the
    stores are the cached ones. *)
Lemma fill_cached_above_half_cache :
  cacheSize CPU_SSE = 65536 /\
  128 * fill_blocks 64 40000 = 39936 /\
  fst (fill jbyte CPU_SSE ramp 64 0 40000 0) = Vector SSE (Some Aligned).
Proof. vm_compute. repeat split. Qed.




(** C9: for every min/max entry point, descriptor, pair of non-null
    arrays and operand ranges that do not meet.  Commutative: on integer
    elements, the call with the operands exchanged leaves the same
    elements in its destination; on float and double elements it leaves
    equal numbers where neither operand element is a NaN.  Idempotent: a
    second call with the same second operand leaves all of memory as the
    first call left it, for integer and floating-point elements alike. *)
Theorem minmax_commutative_idempotent e CpuInfo m a Aofs b Bofs Len :
  a <> 0 -> b <> 0 -> 0 <= Len < 2 ^ 31 ->
  apart (a + sizeof (entry_type e) * Aofs) (b + sizeof (entry_type e) * Bofs)
        (sizeof (entry_type e) * Len) ->
  (forall i, 0 <= i < Len ->
     (is_integer e = true ->
      elem (entry_type e) (snd (minmax e CpuInfo m a Aofs b Bofs Len)) a (Aofs + i) =
      elem (entry_type e) (snd (minmax e CpuInfo m b Bofs a Aofs Len)) b (Bofs + i)) /\
     (is_integer e = false ->
      is_nan (entry_type e) (elem (entry_type e) m a (Aofs + i)) = false ->
      is_nan (entry_type e) (elem (entry_type e) m b (Bofs + i)) = false ->
      SFeqb
        (sf (entry_type e)
           (elem (entry_type e) (snd (minmax e CpuInfo m a Aofs b Bofs Len)) a (Aofs + i)))
        (sf (entry_type e)
           (elem (entry_type e) (snd (minmax e CpuInfo m b Bofs a Aofs Len)) b (Bofs + i)))
      = true)) /\
  (forall x,
     snd (minmax e CpuInfo (snd (minmax e CpuInfo m a Aofs b Bofs Len)) a Aofs b Bofs Len) x =
     snd (minmax e CpuInfo m a Aofs b Bofs Len) x).
Proof.
  intros Ha Hb HL Hap.
  destruct (minmax_elems e CpuInfo m a Aofs b Bofs Len Ha Hb HL Hap) as (E1 & S1 & O1).
  destruct (minmax_elems e CpuInfo m b Bofs a Aofs Len Hb Ha HL (apart_sym _ _ _ Hap))
    as (E2 & _ & _).
  split.
  - intros i Hi. rewrite (E1 i Hi), (E2 i Hi). split.
    + intros Hint. rewrite !elem_fun_integer by assumption.
      destruct (integer_entry_type e Hint) as [N1 N2].
      apply pick_comm; try assumption; apply elem_range.
    + intros Hfl Hx Hy.
      apply (sf_choice_unique (entry_cmp e) _ _
               (sf (entry_type e) (elem (entry_type e) m a (Aofs + i)))
               (sf (entry_type e) (elem (entry_type e) m b (Bofs + i))));
        apply elem_fun_float; assumption.
  - set (m1 := snd (minmax e CpuInfo m a Aofs b Bofs Len)) in *.
    pose proof (minmax_pointwise e CpuInfo m1 a Aofs b Bofs Len Ha Hb HL Hap) as P.
    apply (pointwise_fixed _ _ _ _ _ _ _ (sizeof_nat_pos (entry_type e)) (proj1 HL) P).
    intros i Hi. rewrite <- !elem_at.
    rewrite (S1 i Hi), (E1 i Hi). apply elem_fun_idem.
Qed.

(** An [int] maximum under CPU_MMX. *)
Lemma minmax_commutative_idempotent_witness :
  elem jint (snd (minmax max_jint CPU_MMX ramp 4096 1 8192 2 50)) 4096 (1 + 20) =
  elem jint (snd (minmax max_jint CPU_MMX ramp 8192 2 4096 1 50)) 8192 (2 + 20) /\
  snd (minmax max_jint CPU_MMX (snd (minmax max_jint CPU_MMX ramp 4096 1 8192 2 50))
         4096 1 8192 2 50) 4100 =
  snd (minmax max_jint CPU_MMX ramp 4096 1 8192 2 50) 4100.
Proof.
  assert (Hap : apart (4096 + sizeof jint * 1) (8192 + sizeof jint * 2) (sizeof jint * 50))
    by (left; vm_compute; discriminate).
  destruct (minmax_commutative_idempotent max_jint CPU_MMX ramp 4096 1 8192 2 50
              ltac:(lia) ltac:(lia) ltac:(lia) Hap) as (C & I).
  split; [exact (proj1 (C 20 ltac:(lia)) eq_refl) | exact (I 4100)].
Defined.

(** C9, against the wording of the specification, on floats: under the descriptor 0 the
    minimum of a NaN and 1.0 is the NaN, and with the operands exchanged
    it is 1.0. *)
Lemma minmax_float_not_commutative :
  elem jfloat (snd (minmax min_jfloat 0 (two_floats f32_nan f32_one) 4096 0 8192 0 1)) 4096 0
    = f32_nan /\
  elem jfloat (snd (minmax min_jfloat 0 (two_floats f32_nan f32_one) 8192 0 4096 0 1)) 8192 0
    = f32_one.
Proof. vm_compute. split; reflexivity. Qed.

(** X21: where the descriptor does not matter.  The memory an operation
    leaves under a descriptor is the memory it leaves under the descriptor
    0: for [fill], always; for [copyBytes], when the destination starts at
    or below the source or beyond its end; for a min/max entry point on
    integers, when the operand ranges do not meet.  For a min/max entry
    point on floats or doubles with such ranges, a destination element
    ends as the same number under both descriptors when neither operand
    element is a NaN, and the rest of memory is the same. *)
Theorem descriptor_independence CpuInfo T e m a b BeginIndex EndIndex V Aofs Bofs Len :
  a <> 0 -> b <> 0 ->
  0 <= BeginIndex <= EndIndex -> EndIndex < 2 ^ 31 ->
  sizeof T * (EndIndex - BeginIndex) < 2 ^ 31 ->
  0 <= Len < 2 ^ 31 ->
  (forall x, snd (fill T CpuInfo m a BeginIndex EndIndex V) x =
             snd (fill T 0 m a BeginIndex EndIndex V) x) /\
  (forward_safe (a + Aofs) (b + Bofs) Len ->
   forall x, snd (copyBytes CpuInfo m a Aofs b Bofs Len) x =
             snd (copyBytes 0 m a Aofs b Bofs Len) x) /\
  (apart (a + sizeof (entry_type e) * Aofs) (b + sizeof (entry_type e) * Bofs)
         (sizeof (entry_type e) * Len) ->
   (is_integer e = true ->
    forall x, snd (minmax e CpuInfo m a Aofs b Bofs Len) x =
              snd (minmax e 0 m a Aofs b Bofs Len) x) /\
   (is_integer e = false ->
    (forall i, 0 <= i < Len ->
       is_nan (entry_type e) (elem (entry_type e) m a (Aofs + i)) = false ->
       is_nan (entry_type e) (elem (entry_type e) m b (Bofs + i)) = false ->
       SFeqb
         (sf (entry_type e)
            (elem (entry_type e) (snd (minmax e CpuInfo m a Aofs b Bofs Len)) a (Aofs + i)))
         (sf (entry_type e)
            (elem (entry_type e) (snd (minmax e 0 m a Aofs b Bofs Len)) a (Aofs + i)))
       = true) /\
    (forall x, x < a + sizeof (entry_type e) * Aofs \/
               a + sizeof (entry_type e) * Aofs + sizeof (entry_type e) * Len <= x ->
       snd (minmax e CpuInfo m a Aofs b Bofs Len) x =
       snd (minmax e 0 m a Aofs b Bofs Len) x))).
Proof.
  intros Ha Hb HB HE Hsz HL. split; [|split].
  - intros x.
    rewrite (fill_filled T CpuInfo m a BeginIndex EndIndex V Ha HB HE Hsz x).
    rewrite (fill_filled T 0 m a BeginIndex EndIndex V Ha HB HE Hsz x).
    reflexivity.
  - intros Hsafe x. rewrite !copyBytes_forward by assumption. reflexivity.
  - intros Hap. split.
    + intros Hint.
      pose proof (minmax_pointwise e CpuInfo m a Aofs b Bofs Len Ha Hb HL Hap) as P1.
      pose proof (minmax_pointwise e 0 m a Aofs b Bofs Len Ha Hb HL Hap) as P0.
      apply (pointwise_unique _ _ _ _ _ _ _ _ (sizeof_nat_pos (entry_type e)) (proj1 HL) P1).
      revert P0. apply pointwise_ext. intros i x y Hi.
      rewrite !elem_fun_integer by assumption. reflexivity.
    + intros Hfl.
      destruct (minmax_elems e CpuInfo m a Aofs b Bofs Len Ha Hb HL Hap) as (E1 & _ & O1).
      destruct (minmax_elems e 0 m a Aofs b Bofs Len Ha Hb HL Hap) as (E0 & _ & O0).
      split.
      * intros i Hi Hx Hy. rewrite (E1 i Hi), (E0 i Hi).
        apply (sf_choice_unique (entry_cmp e) _ _
                 (sf (entry_type e) (elem (entry_type e) m a (Aofs + i)))
                 (sf (entry_type e) (elem (entry_type e) m b (Bofs + i)))).
        -- apply elem_fun_float; assumption.
        -- rewrite sf_is_choice_swap. apply elem_fun_float; assumption.
      * intros x Hx. rewrite O1, O0 by assumption. reflexivity.
Qed.

(** A [short] fill and a downward copy under CPU_SSE, an unsigned [short]
    minimum under CPU_MMXEX. *)
Lemma descriptor_independence_witness :
  snd (fill jshort CPU_SSE ramp 4098 5 300 513) 4200 =
  snd (fill jshort 0 ramp 4098 5 300 513) 4200 /\
  snd (copyBytes CPU_SSE ramp 4098 40 4098 8 500) 4200 =
  snd (copyBytes 0 ramp 4098 40 4098 8 500) 4200 /\
  snd (minmax minu_jshort CPU_MMXEX ramp 4098 3 8192 7 200) 4200 =
  snd (minmax minu_jshort 0 ramp 4098 3 8192 7 200) 4200.
Proof.
  assert (Hs : sizeof jshort * (300 - 5) < 2 ^ 31) by (vm_compute; reflexivity).
  destruct (descriptor_independence CPU_SSE jshort minu_jshort ramp 4098 4098 5 300 513 40 8 500
              ltac:(lia) ltac:(lia) ltac:(lia) ltac:(lia) Hs ltac:(lia)) as (F & C & _).
  assert (Hap : apart (4098 + sizeof (entry_type minu_jshort) * 3)
                      (8192 + sizeof (entry_type minu_jshort) * 7)
                      (sizeof (entry_type minu_jshort) * 200))
    by (left; vm_compute; discriminate).
  destruct (descriptor_independence CPU_MMXEX jshort minu_jshort ramp 4098 8192 5 300 513 3 7 200
              ltac:(lia) ltac:(lia) ltac:(lia) ltac:(lia) Hs ltac:(lia)) as (_ & _ & M).
  split; [exact (F 4200)|].
  assert (Hsafe : forward_safe (4098 + 40) (4098 + 8) 500) by (left; lia).
  split; [exact (C Hsafe 4200)|].
  exact (proj1 (M Hap) eq_refl 4200).
Defined.

(** C1: the descriptor changes what three calls leave in the arrays.  A
    copy of 3 bytes to one byte above the source, inside one array,
    repeats the first byte under CPU_SSE and moves the three bytes under
    the descriptor 0.  The float minimum of a NaN in the destination and
    1.0 is 1.0 in the body of the SSE loop and the NaN under the
    descriptor 0.  The [int] minimum of elements 1.. with elements 0.. of
    one array leaves 5 in element 12 under CPU_MMX and 0 under the
    descriptor 0. *)
Lemma descriptor_changes_result :
  map (fun x => byte.unsigned (snd (copyBytes CPU_SSE ramp 64 0 64 1 3) x)) [65; 66; 67]
    = [64; 64; 64] /\
  map (fun x => byte.unsigned (snd (copyBytes 0 ramp 64 0 64 1 3) x)) [65; 66; 67]
    = [64; 65; 66] /\
  elem jfloat (snd (minmax min_jfloat CPU_SSE (two_floats f32_nan f32_one) 4096 0 8192 0 32)) 4096 0
    = f32_one /\
  elem jfloat (snd (minmax min_jfloat 0 (two_floats f32_nan f32_one) 4096 0 8192 0 32)) 4096 0
    = f32_nan /\
  elem jint (snd (minmax min_jint CPU_MMX fives 4096 1 4096 0 24)) 4096 12 = 5 /\
  elem jint (snd (minmax min_jint 0 fives 4096 1 4096 0 24)) 4096 12 = 0.
Proof. vm_compute. repeat split. Qed.

(** C3: on a processor with SSE, a copy of 200 bytes to 16 bytes above
    the source, inside one array, does not leave the old source bytes in
    the destination: byte 88 of the destination should be the old byte 88
    of the source, as it is under the descriptor 0, and is the old byte
    72. *)
Theorem copyBytes_sse_overlap :
  fst (copyBytes CPU_SSE ramp 4096 0 4096 16 200) = Vector SSE (Some Aligned) /\
  byte.unsigned (ramp (4096 + 88)) = 88 /\
  byte.unsigned (snd (copyBytes CPU_SSE ramp 4096 0 4096 16 200) (4096 + 16 + 88)) = 72 /\
  fst (copyBytes 0 ramp 4096 0 4096 16 200) = Scalar Memmove /\
  byte.unsigned (snd (copyBytes 0 ramp 4096 0 4096 16 200) (4096 + 16 + 88)) = 88.
Proof. vm_compute. repeat split. Qed.

(** * Further properties of the kernels *)

(** ** Fill *)

Lemma fill_outside T CpuInfo m a BeginIndex EndIndex V x :
  a <> 0 -> 0 <= BeginIndex <= EndIndex -> EndIndex < 2 ^ 31 ->
  sizeof T * (EndIndex - BeginIndex) < 2 ^ 31 ->
  x < a + sizeof T * BeginIndex \/ a + sizeof T * EndIndex <= x ->
  snd (fill T CpuInfo m a BeginIndex EndIndex V) x = m x.
Proof.
  intros Ha HB HE Hsz Hx.
  rewrite (fill_filled T CpuInfo m a BeginIndex EndIndex V Ha HB HE Hsz x).
  destruct (Z.leb_spec (a + sizeof T * BeginIndex) x); [|reflexivity].
  destruct (Z.ltb_spec x (a + sizeof T * BeginIndex + sizeof T * (EndIndex - BeginIndex)));
    [lia | reflexivity].
Qed.

(** X1: [fill] writes nothing outside the range it is given, under any
    descriptor; with an empty range it writes nothing at all. *)
Theorem fill_frame T CpuInfo m a BeginIndex EndIndex V :
  a <> 0 -> 0 <= BeginIndex <= EndIndex -> EndIndex < 2 ^ 31 ->
  sizeof T * (EndIndex - BeginIndex) < 2 ^ 31 ->
  (forall x, x < a + sizeof T * BeginIndex \/ a + sizeof T * EndIndex <= x ->
     snd (fill T CpuInfo m a BeginIndex EndIndex V) x = m x) /\
  (BeginIndex = EndIndex ->
   forall x, snd (fill T CpuInfo m a BeginIndex EndIndex V) x = m x).
Proof.
  intros Ha HB HE Hsz. split.
  - intros x Hx. apply fill_outside; assumption.
  - intros E x. apply fill_outside; try assumption. subst. lia.
Qed.

(** An [int] range at an address off every boundary; the byte before it. *)
Lemma fill_frame_witness :
  snd (fill jint CPU_SSE ramp 4100 3 200 7) 4111 = ramp 4111.
Proof.
  assert (Hs : sizeof jint * (200 - 3) < 2 ^ 31) by (vm_compute; reflexivity).
  destruct (fill_frame jint CPU_SSE ramp 4100 3 200 7
              ltac:(lia) ltac:(lia) ltac:(lia) Hs) as [F _].
  apply F. left. vm_compute. reflexivity.
Defined.

(** X2: two fills in a row, the second on a range inside the first, each
    under its own descriptor: an element of the inner range reads as the
    second value, an element of the rest of the outer range as the first.
    With equal ranges the second fill alone decides, and a repeated fill
    changes nothing. *)
Theorem fill_fill_read T d1 d2 m a B1 E1 B2 E2 V W i :
  a <> 0 -> 0 <= B1 <= B2 -> B2 <= E2 -> E2 <= E1 -> E1 < 2 ^ 31 ->
  sizeof T * (E1 - B1) < 2 ^ 31 ->
  B1 <= i < E1 ->
  elem T (snd (fill T d2 (snd (fill T d1 m a B1 E1 V)) a B2 E2 W)) a i =
  if (B2 <=? i) && (i <? E2) then W mod 2 ^ (8 * sizeof T) else V mod 2 ^ (8 * sizeof T).
Proof.
  intros Ha HB1 HB2 HE2 HE1 Hsz Hi.
  pose proof (sizeof_pos T) as Hs.
  assert (Hsz2 : sizeof T * (E2 - B2) < 2 ^ 31) by nia.
  destruct (Z.leb_spec B2 i) as [L|L]; [destruct (Z.ltb_spec i E2) as [U|U]|]; cbn [andb].
  - apply fill_read; lia.
  - rewrite <- (fill_read T d1 m a B1 E1 V i) by lia.
    unfold elem. apply rd_ext. intros k Hk. rewrite sizeof_of_nat in Hk.
    apply fill_outside; try lia. right. nia.
  - rewrite <- (fill_read T d1 m a B1 E1 V i) by lia.
    unfold elem. apply rd_ext. intros k Hk. rewrite sizeof_of_nat in Hk.
    apply fill_outside; try lia. left. nia.
Qed.

(** Elements 10 to 19 of a [short] array filled with 513, then elements 12
    to 14 with 7. *)
Lemma fill_fill_read_witness :
  elem jshort (snd (fill jshort 0 (snd (fill jshort CPU_SSE ramp 4098 10 60 513))
                      4098 12 15 7)) 4098 13 = 7 /\
  elem jshort (snd (fill jshort 0 (snd (fill jshort CPU_SSE ramp 4098 10 60 513))
                      4098 12 15 7)) 4098 40 = 513.
Proof.
  assert (Hs : sizeof jshort * (60 - 10) < 2 ^ 31) by (vm_compute; reflexivity).
  split.
  - exact (fill_fill_read jshort CPU_SSE 0 ramp 4098 10 60 12 15 513 7 13
             ltac:(lia) ltac:(lia) ltac:(lia) ltac:(lia) ltac:(lia) Hs ltac:(lia)).
  - exact (fill_fill_read jshort CPU_SSE 0 ramp 4098 10 60 12 15 513 7 40
             ltac:(lia) ltac:(lia) ltac:(lia) ltac:(lia) ltac:(lia) Hs ltac:(lia)).
Defined.

(** ** Copy *)

Lemma copyBytes_bytes CpuInfo m a Aofs b Bofs Len x :
  a <> 0 -> b <> 0 -> 0 <= Len < 2 ^ 31 ->
  forward_safe (a + Aofs) (b + Bofs) Len ->
  snd (copyBytes CpuInfo m a Aofs b Bofs Len) x =
  if (b + Bofs <=? x) && (x <? b + Bofs + Len) then m (a + Aofs + (x - (b + Bofs))) else m x.
Proof.
  intros Ha Hb HL Hsafe. rewrite copyBytes_forward by assumption. reflexivity.
Qed.

(** X3: under any descriptor, when the destination starts at or below
    the source or at or beyond its end, [copyBytes] leaves the old source
    bytes in the destination and every other byte as it was; with a
    length of 0 it changes nothing. *)
Theorem copyBytes_moves CpuInfo m a Aofs b Bofs Len :
  a <> 0 -> b <> 0 -> 0 <= Len < 2 ^ 31 ->
  forward_safe (a + Aofs) (b + Bofs) Len ->
  (forall k, 0 <= k < Len ->
     snd (copyBytes CpuInfo m a Aofs b Bofs Len) (b + Bofs + k) = m (a + Aofs + k)) /\
  (forall x, x < b + Bofs \/ b + Bofs + Len <= x ->
     snd (copyBytes CpuInfo m a Aofs b Bofs Len) x = m x).
Proof.
  intros Ha Hb HL Hsafe. split.
  - intros k Hk. rewrite copyBytes_bytes by assumption.
    destruct (Z.leb_spec (b + Bofs) (b + Bofs + k)); [|lia].
    destruct (Z.ltb_spec (b + Bofs + k) (b + Bofs + Len)); [|lia].
    cbn [andb]. f_equal. lia.
  - intros x Hx. rewrite copyBytes_bytes by assumption.
    destruct (Z.leb_spec (b + Bofs) x); [|reflexivity].
    destruct (Z.ltb_spec x (b + Bofs + Len)); [lia | reflexivity].
Qed.

(** A copy of 500 bytes to 32 bytes below the source, inside one array. *)
Lemma copyBytes_moves_witness :
  snd (copyBytes CPU_SSE ramp 4098 40 4098 8 500) (4098 + 8 + 300) = ramp (4098 + 40 + 300).
Proof.
  assert (Hsafe : forward_safe (4098 + 40) (4098 + 8) 500) by (left; lia).
  destruct (copyBytes_moves CPU_SSE ramp 4098 40 4098 8 500
              ltac:(lia) ltac:(lia) ltac:(lia) Hsafe) as [M _].
  exact (M 300 ltac:(lia)).
Defined.

(** X4: a copy between two ranges that do not meet, followed by the copy
    back, each under its own descriptor, leaves memory as the first copy
    left it. *)
Theorem copyBytes_there_and_back d1 d2 m a Aofs b Bofs Len :
  a <> 0 -> b <> 0 -> 0 <= Len < 2 ^ 31 ->
  apart (a + Aofs) (b + Bofs) Len ->
  forall x,
    snd (copyBytes d2 (snd (copyBytes d1 m a Aofs b Bofs Len)) b Bofs a Aofs Len) x =
    snd (copyBytes d1 m a Aofs b Bofs Len) x.
Proof.
  intros Ha Hb HL Hap x.
  assert (S1 : forward_safe (a + Aofs) (b + Bofs) Len) by (unfold forward_safe, apart in *; lia).
  assert (S2 : forward_safe (b + Bofs) (a + Aofs) Len) by (unfold forward_safe, apart in *; lia).
  rewrite (copyBytes_bytes d2) by assumption.
  destruct (Z.leb_spec (a + Aofs) x); [|reflexivity].
  destruct (Z.ltb_spec x (a + Aofs + Len)); [|reflexivity].
  cbn [andb]. rewrite !(copyBytes_bytes d1) by assumption.
  unfold apart in Hap.
  destruct (Z.leb_spec (b + Bofs) (b + Bofs + (x - (a + Aofs)))); [|lia].
  destruct (Z.ltb_spec (b + Bofs + (x - (a + Aofs))) (b + Bofs + Len)); [|lia].
  destruct (Z.leb_spec (b + Bofs) x); [destruct (Z.ltb_spec x (b + Bofs + Len)); [lia|]|];
    cbn [andb]; f_equal; lia.
Qed.

Lemma copyBytes_there_and_back_witness :
  snd (copyBytes 0 (snd (copyBytes CPU_SSE ramp 4096 10 8192 3 300)) 8192 3 4096 10 300) 4200 =
  snd (copyBytes CPU_SSE ramp 4096 10 8192 3 300) 4200.
Proof.
  assert (Hap : apart (4096 + 10) (8192 + 3) 300) by (left; lia).
  exact (copyBytes_there_and_back CPU_SSE 0 ramp 4096 10 8192 3 300
           ltac:(lia) ltac:(lia) ltac:(lia) Hap 4200).
Defined.

(** ** Loop splitting *)

(** X5: for an unrolling of 1 to 64 elements (a power of two) and a
    length that is a non-negative [jint], LOOP_PREFIX yields a body count
    and a tail shorter than the unrolling that add up to the length. *)
Theorem LOOP_PREFIX_partition n k Len :
  0 <= k <= 6 -> n = 2 ^ k -> 0 <= Len < 2 ^ 31 ->
  let '(len, lenEnd) := LOOP_PREFIX n Len in
  0 <= len /\ 0 <= lenEnd < n /\ len * n + lenEnd = Len.
Proof.
  intros Hk Hn HL. rewrite (LOOP_PREFIX_eq n k Len Hk Hn HL).
  assert (Hp : 0 < n) by (subst n; apply Z.pow_pos_nonneg; lia).
  pose proof (Z.div_mod Len n). pose proof (Z.mod_pos_bound Len n Hp).
  repeat split; try lia. apply Z.div_pos; lia.
Qed.

(** 100 elements, unrolled by 32. *)
Lemma LOOP_PREFIX_partition_witness :
  let '(len, lenEnd) := LOOP_PREFIX 32 100 in
  0 <= len /\ 0 <= lenEnd < 32 /\ len * 32 + lenEnd = 100.
Proof.
  apply (LOOP_PREFIX_partition 32 5 100); [lia | reflexivity | lia].
Defined.

(** X6: LOOP_PREFIX_ALIGNED leaves the last complete body unit to the
    tail: the tail is shorter than two units, it holds a whole unit as
    soon as one fits after the head, and the body loop runs exactly when
    two units fit after the head. *)
Theorem LOOP_PREFIX_ALIGNED_tail U size pa Len :
  (U = 32 \/ U = 64) -> (size = 1 \/ size = 2 \/ size = 4 \/ size = 8) ->
  0 <= Len < 2 ^ 31 ->
  let '(lenStart, len, lenEnd) := LOOP_PREFIX_ALIGNED U size pa Len in
  0 <= lenEnd < 2 * (U / size) /\
  (U / size <= Len - lenStart -> U / size <= lenEnd) /\
  (0 < len <-> 2 * (U / size) <= Len - lenStart).
Proof.
  intros HU Hs HL.
  rewrite (LOOP_PREFIX_ALIGNED_eq U size pa Len HU Hs HL). cbv zeta.
  assert (Hn : 1 <= U / size <= 64).
  { destruct HU as [-> | -> ]; destruct Hs as [-> | [-> | [-> | -> ]]]; cbv; split; congruence. }
  set (n := U / size) in *.
  assert (Hd : 0 <= pa mod 32 < 32) by (apply Z.mod_pos_bound; lia).
  set (disp := pa mod 32) in *.
  set (ls := if negb (disp =? 0) && (disp mod size =? 0) && negb (Len <? (32 - disp) / size)
             then (32 - disp) / size else 0).
  assert (Hls : 0 <= ls <= Len).
  { subst ls. destruct (negb (disp =? 0) && (disp mod size =? 0)); cbn [andb]; [|lia].
    destruct (Z.ltb_spec Len ((32 - disp) / size)); cbn [negb]; [lia|].
    split; [apply Z.div_pos; lia | lia]. }
  assert (Hr : 0 <= (Len - ls) mod n < n) by (apply Z.mod_pos_bound; lia).
  assert (Hq : 0 <= (Len - ls) / n) by (apply Z.div_pos; lia).
  pose proof (Z.div_mod (Len - ls) n ltac:(lia)) as Hdm.
  destruct (Z.gtb_spec ((Len - ls) / n) 0) as [G|G].
  - repeat split; try lia; nia.
  - assert (E0 : (Len - ls) / n = 0) by lia. rewrite E0 in *.
    repeat split; try lia.
Qed.

(** 100 [int]s at address 4100, unrolling 64: a head of 7, a body of 4
    units of 16, a tail of 29. *)
Lemma LOOP_PREFIX_ALIGNED_tail_witness :
  let '(lenStart, len, lenEnd) := LOOP_PREFIX_ALIGNED 64 4 4100 100 in
  0 <= lenEnd < 2 * (64 / 4) /\
  (64 / 4 <= 100 - lenStart -> 64 / 4 <= lenEnd) /\
  (0 < len <-> 2 * (64 / 4) <= 100 - lenStart).
Proof.
  apply (LOOP_PREFIX_ALIGNED_tail 64 4 4100 100); [right; reflexivity | | lia].
  right; right; left; reflexivity.
Defined.

(** ** The scalar loops *)

Lemma cmp_store_shift T c pa pb m k :
  cmp_store T c pa pb m (k + 1) = cmp_store T c (pa + sizeof T) (pb + sizeof T) m k.
Proof.
  unfold cmp_store. cbv zeta.
  replace (pa + sizeof T * (k + 1)) with (pa + sizeof T + sizeof T * k) by lia.
  replace (pb + sizeof T * (k + 1)) with (pb + sizeof T + sizeof T * k) by lia.
  reflexivity.
Qed.

Lemma fold_cmp_store_shift T c pa pb : forall l m,
  fold_left (cmp_store T c pa pb) (map (fun k => k + 1) l) m =
  fold_left (cmp_store T c (pa + sizeof T) (pb + sizeof T)) l m.
Proof.
  induction l as [|k l IH]; intros m; [reflexivity|].
  cbn [map fold_left]. rewrite cmp_store_shift. apply IH.
Qed.

(** [n] unrolled statements are [n] turns of the one-statement loop. *)
Lemma cmp_steps_fold T c : forall n pa pb m,
  loop_n n (cmp_step T c) (pa, pb, m) =
  (pa + sizeof T * Z.of_nat n, pb + sizeof T * Z.of_nat n,
   fold_left (cmp_store T c pa pb) (map Z.of_nat (seq 0 n)) m).
Proof.
  induction n as [|n IH]; intros pa pb m.
  - cbn. rewrite !Z.mul_0_r, !Z.add_0_r. reflexivity.
  - rewrite loop_n_S. cbn [cmp_step]. rewrite IH.
    replace (pa + sizeof T + sizeof T * Z.of_nat n) with (pa + sizeof T * Z.of_nat (S n)) by lia.
    replace (pb + sizeof T + sizeof T * Z.of_nat n) with (pb + sizeof T * Z.of_nat (S n)) by lia.
    f_equal.
    cbn [seq map fold_left]. rewrite <- seq_shift, map_map.
    rewrite <- (fold_cmp_store_shift T c pa pb).
    rewrite map_map. f_equal. apply map_ext. intros k. lia.
Qed.

Lemma body32_steps T c s : body32 T c s = loop_n 32 (cmp_step T c) s.
Proof.
  destruct s as [[pa pb] m]. rewrite cmp_steps_fold. unfold body32.
  rewrite !(Z.mul_comm (sizeof T)). reflexivity.
Qed.

Lemma loop_n_mul {S} (f : S -> S) k : forall n s,
  loop_n n (loop_n k f) s = loop_n (n * k) f s.
Proof.
  induction n as [|n IH]; intros s; [reflexivity|].
  cbn [Nat.mul]. rewrite loop_n_add, loop_n_S. apply IH.
Qed.

Lemma loop_n_ext {S} (f g : S -> S) : (forall s, f s = g s) ->
  forall n s, loop_n n f s = loop_n n g s.
Proof.
  intros E. induction n as [|n IH]; intros s; [reflexivity|].
  cbn [loop_n]. rewrite E. apply IH.
Qed.

(** X7: MINBODY_LOOP and MAXBODY_LOOP, unrolled 32 times, leave exactly
    the memory of the plain loop [for (i = 0; i < Len; i++) if (pa[i] CMP
    pb[i]) pa[i]= pb[i];], for every element type and for operands that
    overlap in any way. *)
Theorem BODY_LOOP_unrolled T c m a Aofs b Bofs Len :
  0 <= Len < 2 ^ 31 ->
  BODY_LOOP T c m a Aofs b Bofs Len =
  snd (loop_n (Z.to_nat Len) (cmp_step T c)
         (a + sizeof T * Aofs, b + sizeof T * Bofs, m)).
Proof.
  intros HL. unfold BODY_LOOP.
  rewrite (LOOP_PREFIX_eq 32 5) by (lia || reflexivity). cbv zeta.
  assert (Hq : 0 <= Len / 32) by (apply Z.div_pos; lia).
  assert (Hr : 0 <= Len mod 32 < 32) by (apply Z.mod_pos_bound; lia).
  rewrite (loop_n_ext (body32 T c) (loop_n 32 (cmp_step T c)) (body32_steps T c)).
  rewrite loop_n_mul, <- loop_n_add. do 2 f_equal.
  pose proof (Z.div_mod Len 32). lia.
Qed.

(** A [short] minimum over 100 elements of one array, the operands two
    elements apart. *)
Lemma BODY_LOOP_unrolled_witness :
  BODY_LOOP jshort CmpGt ramp 4096 2 4096 0 100 =
  snd (loop_n (Z.to_nat 100) (cmp_step jshort CmpGt)
         (4096 + sizeof jshort * 2, 4096 + sizeof jshort * 0, ramp)).
Proof.
  apply (BODY_LOOP_unrolled jshort CmpGt ramp 4096 2 4096 0 100). lia.
Defined.

(** ** Min and max *)

(** A double that is no signalling NaN comes back from the x87 stack as
    it was. *)
Lemma fld_qword_quiet x : signalling64 x = false -> fld_qword x = x.
Proof.
  unfold signalling64, fld_qword. destruct (sf64 x); try reflexivity.
  intros H. apply negb_false_iff in H.
  apply Z.bits_inj'. intros k Hk. rewrite Z.lor_spec, Z.pow2_bits_eqb by lia.
  destruct (Z.eqb_spec 51 k) as [<-|]; [rewrite H; reflexivity | apply orb_false_r].
Qed.

Lemma elem_fun_same e d pa Len i x :
  (entry_type e = jdouble -> signalling64 x = false) ->
  elem_fun e d pa Len i x x = x.
Proof.
  intros Hq.
  assert (P : forall T c, pick T c x x = x)
    by (intros T c; unfold pick; destruct (c_cmp T c x x); reflexivity).
  assert (Q : forall op, ps_lane op x x = x)
    by (intros op; unfold ps_lane; destruct op; destruct (SFltb _ _); reflexivity).
  assert (R : entry_type e = jdouble -> forall op, fcmov_val op x x = x).
  { intros He op. unfold fcmov_val, fcmov. rewrite (fld_qword_quiet x (Hq He)).
    destruct op; destruct (fucomi_CF x x); reflexivity. }
  destruct e; cbn [elem_fun]; try apply P;
    destruct (has_flag _ _); try apply P;
    unfold phase_fun; destruct (_ && _); auto.
Qed.

(** X8: when the two operand ranges do not meet and hold equal elements,
    a min/max entry point leaves all of memory as it was, under any
    descriptor and for any element type, quiet NaNs included; for double
    elements provided none of them is a signalling NaN, which the body
    loop under CPU_CMOV stores back in its quiet form. *)
Theorem minmax_equal_operands e CpuInfo m a Aofs b Bofs Len :
  a <> 0 -> b <> 0 -> 0 <= Len < 2 ^ 31 ->
  apart (a + sizeof (entry_type e) * Aofs) (b + sizeof (entry_type e) * Bofs)
        (sizeof (entry_type e) * Len) ->
  (forall i, 0 <= i < Len ->
     elem (entry_type e) m a (Aofs + i) = elem (entry_type e) m b (Bofs + i)) ->
  (forall i, 0 <= i < Len -> entry_type e = jdouble ->
     signalling64 (elem (entry_type e) m a (Aofs + i)) = false) ->
  forall x, snd (minmax e CpuInfo m a Aofs b Bofs Len) x = m x.
Proof.
  intros Ha Hb HL Hap Heq Hq.
  pose proof (minmax_pointwise e CpuInfo m a Aofs b Bofs Len Ha Hb HL Hap) as P.
  apply (pointwise_fixed _ _ _ _ _ _ _ (sizeof_nat_pos (entry_type e)) (proj1 HL) P).
  intros i Hi. rewrite <- !elem_at. rewrite <- (Heq i Hi).
  apply elem_fun_same. intros He. apply (Hq i Hi He).
Qed.

(** A [double] maximum of two ranges of zeros under CPU_CMOV. *)
Lemma minmax_equal_operands_witness :
  snd (minmax max_jdouble CPU_CMOV zeros 4096 1 8192 2 100) 4200 = zeros 4200.
Proof.
  assert (Hap : apart (4096 + sizeof (entry_type max_jdouble) * 1)
                      (8192 + sizeof (entry_type max_jdouble) * 2)
                      (sizeof (entry_type max_jdouble) * 100))
    by (left; vm_compute; discriminate).
  assert (Z0 : forall p, rd 8 zeros p = 0).
  { intros p. rewrite (rd_bytes 8 zeros p 0); [reflexivity|]. intros k Hk. reflexivity. }
  apply (minmax_equal_operands max_jdouble CPU_CMOV zeros 4096 1 8192 2 100
           ltac:(lia) ltac:(lia) ltac:(lia) Hap).
  - intros i Hi. unfold elem. cbn [entry_type sizeof_nat]. rewrite !Z0. reflexivity.
  - intros i Hi _. unfold elem. cbn [entry_type sizeof_nat]. rewrite Z0. reflexivity.
Defined.

(** The proviso is needed: 16 equal doubles on either side, all the
    signalling NaN [f64_snan].  Under CPU_CMOV the body loop handles
    elements 0 to 7 and leaves their quiet form; the tail, and every
    element under the descriptor 0, stay as they were. *)
Lemma minmax_double_quiets_signalling :
  map (elem jdouble (snd (minmax min_jdouble CPU_CMOV snans 4096 0 8192 0 16)) 4096) [0; 7; 8; 15]
    = [f64_snan_quiet; f64_snan_quiet; f64_snan; f64_snan] /\
  map (elem jdouble (snd (minmax min_jdouble 0 snans 4096 0 8192 0 16)) 4096) [0; 7; 8; 15]
    = [f64_snan; f64_snan; f64_snan; f64_snan].
Proof. vm_compute. split; reflexivity. Qed.

Lemma pick_absorb T c1 c2 x y :
  T <> jfloat -> T <> jdouble -> c1 <> c2 ->
  0 <= x < 2 ^ (8 * sizeof T) -> 0 <= y < 2 ^ (8 * sizeof T) ->
  pick T c2 (pick T c1 x y) y = y.
Proof.
  intros N1 N2 Hc Hx Hy. apply (int_value_inj T).
  - unfold pick. destruct (c_cmp T c2 _ y); [assumption|].
    destruct (c_cmp T c1 x y); assumption.
  - assumption.
  - rewrite !pick_choose by assumption.
    destruct c1, c2; try congruence; cbn [choose]; lia.
Qed.

(** X9: on integer elements and operand ranges that do not meet, a
    minimum followed by a maximum with the same second operand (or a
    maximum followed by a minimum), each under its own descriptor, leaves
    the elements of the second operand in the destination. *)
Theorem minmax_absorption e1 e2 d1 d2 m a Aofs b Bofs Len :
  is_integer e1 = true -> is_integer e2 = true ->
  entry_type e2 = entry_type e1 -> entry_cmp e1 <> entry_cmp e2 ->
  a <> 0 -> b <> 0 -> 0 <= Len < 2 ^ 31 ->
  apart (a + sizeof (entry_type e1) * Aofs) (b + sizeof (entry_type e1) * Bofs)
        (sizeof (entry_type e1) * Len) ->
  forall i, 0 <= i < Len ->
    elem (entry_type e1)
      (snd (minmax e2 d2 (snd (minmax e1 d1 m a Aofs b Bofs Len)) a Aofs b Bofs Len))
      a (Aofs + i) =
    elem (entry_type e1) m b (Bofs + i).
Proof.
  intros I1 I2 HT Hc Ha Hb HL Hap i Hi.
  destruct (minmax_elems e1 d1 m a Aofs b Bofs Len Ha Hb HL Hap) as (E1 & S1 & _).
  assert (Hap2 : apart (a + sizeof (entry_type e2) * Aofs) (b + sizeof (entry_type e2) * Bofs)
                       (sizeof (entry_type e2) * Len)) by (rewrite HT; exact Hap).
  destruct (minmax_elems e2 d2 (snd (minmax e1 d1 m a Aofs b Bofs Len)) a Aofs b Bofs Len
              Ha Hb HL Hap2) as (E2 & _ & _).
  specialize (E2 i Hi). rewrite HT in E2. rewrite E2.
  rewrite (E1 i Hi), (S1 i Hi).
  rewrite !elem_fun_integer by assumption. rewrite HT.
  destruct (integer_entry_type e1 I1) as [N1 N2].
  apply pick_absorb; try assumption; apply elem_range.
Qed.

(** An unsigned [short] minimum under CPU_MMXEX, then the maximum under
    CPU_MMX. *)
Lemma minmax_absorption_witness :
  elem uint16
    (snd (minmax maxu_jshort CPU_MMX
            (snd (minmax minu_jshort CPU_MMXEX ramp 4096 3 8192 5 100)) 4096 3 8192 5 100))
    4096 (3 + 70) =
  elem uint16 ramp 8192 (5 + 70).
Proof.
  assert (Hap : apart (4096 + sizeof (entry_type minu_jshort) * 3)
                      (8192 + sizeof (entry_type minu_jshort) * 5)
                      (sizeof (entry_type minu_jshort) * 100))
    by (left; vm_compute; discriminate).
  apply (minmax_absorption minu_jshort maxu_jshort CPU_MMXEX CPU_MMX ramp 4096 3 8192 5 100
           eq_refl eq_refl eq_refl ltac:(discriminate) ltac:(lia) ltac:(lia) ltac:(lia) Hap 70).
  lia.
Defined.

(** X10: the two register idioms of Arrays_minmax_int.h, for each of its
    macro sets.  In every lane of a quadword, the compare-and-select
    sequence (PCMPGT, pand, pandn, por, on operands biased by BIT_MASK_MMX
    where it is defined) and the MINMAX_MMXEX instruction (between two
    [pxor] with BIT_MASK_SSE where it is defined) leave what the C
    statement [if (x CMP y) x= y;] leaves for the two lane values at the
    signedness of the element type. *)
Theorem simd_idioms_select K v0 v1 (i : nat) :
  In K int_kernels -> (i < 8 / sizeof_nat (TYPE K))%nat ->
  lane (sizeof_nat (TYPE K)) (mmx_select K v0 v1) i =
    pick (TYPE K) (CMP K) (lane (sizeof_nat (TYPE K)) v0 i) (lane (sizeof_nat (TYPE K)) v1 i) /\
  (forall op, MINMAX_MMXEX K = Some op ->
     lane (sizeof_nat (TYPE K)) (mmxex_val K op v0 v1) i =
     pick (TYPE K) (CMP K) (lane (sizeof_nat (TYPE K)) v0 i) (lane (sizeof_nat (TYPE K)) v1 i)).
Proof.
  intros HK Hi. split.
  - revert Hi. unfold int_kernels in HK. cbn [In] in HK.
    destruct HK as [<- | [<- | [<- | [<- | [<- | [<- | [<- | [<- | []]]]]]]]];
      apply mmx_select_lane;
      first [ reflexivity
            | left; repeat split; reflexivity
            | right; repeat split; reflexivity
            | right; exists 0x8000800080008000;
              split; [reflexivity | split; [|reflexivity]];
              intros i0 Hi0; apply mask_lane_sw; exact Hi0 ].
  - intros op Hop. apply K_cases_mmxex; try assumption.
    unfold int_kernels in HK. cbn [In] in HK |- *.
    destruct HK as [<- | [<- | [<- | [<- | [<- | [<- | [<- | [<- | []]]]]]]]];
      try discriminate Hop; tauto.
Qed.

(** Lane 2 of the unsigned [short] minimum of two quadwords. *)
Lemma simd_idioms_select_witness :
  lane 2 (mmx_select K_minu_jshort 0x0001800000027FFF 0xFFFF000100008000) 2 = 1 /\
  lane 2 (mmxex_val K_minu_jshort pminsw 0x0001800000027FFF 0xFFFF000100008000) 2 = 1.
Proof.
  destruct (simd_idioms_select K_minu_jshort 0x0001800000027FFF 0xFFFF000100008000 2)
    as [S M].
  - unfold int_kernels. cbn [In]. tauto.
  - cbn. lia.
  - split.
    + refine (eq_trans S _). reflexivity.
    + refine (eq_trans (M pminsw eq_refl) _). reflexivity.
Defined.

(** * Further properties of the probe *)

(** ** The layout of the descriptor *)

Lemma cpuInfo_pack_fields v :
  cpuInfo_pack v =
  Z.lor (Z.lor (Z.lor (Z.lor
    (if has_flag (a_info_lo v) CPU_SSE then Z.lor (a_info_lo v) CPU_MMXEX
     else a_info_lo v)
    (Z.shiftl (Z.land (probe_family v) CPU_FAMILY) CPU_FAMILY_SHIFT))
    (Z.shiftl (Z.land (a_amdFeatures v)
                 (Z.lor CPU_AMD_L (Z.lor CPU_3DNOW_L CPU_3DNOWEX_L))) 32))
    (Z.shiftl (Z.land (fst (probe_caches v)) CPU_L1DATASIZE) CPU_L1DATASIZE_SHIFT))
    (Z.shiftl (Z.land (snd (probe_caches v)) CPU_L2SIZE) CPU_L2SIZE_SHIFT).
Proof.
  unfold cpuInfo_pack, probe_caches, probe_family. cbv zeta.
  match goal with |- context [if ?c then cache_scan ?f ?r ?a else ?b] =>
    destruct (if c then cache_scan f r a else b) as [l1d l2] end.
  reflexivity.
Qed.

Lemma testbit_mask_field x w s k :
  0 <= w -> 0 <= s -> 0 <= k ->
  Z.testbit (Z.shiftl (Z.land x (2 ^ w - 1)) s) k =
  (s <=? k) && (k <? s + w) && Z.testbit x (k - s).
Proof.
  intros Hw Hs Hk. rewrite land_mask by lia.
  destruct (Z.leb_spec s k) as [L|L]; cbn [andb].
  - rewrite Z.shiftl_spec by lia.
    destruct (Z.ltb_spec k (s + w)); cbn [andb].
    + apply Z.mod_pow2_bits_low. lia.
    + apply Z.mod_pow2_bits_high. lia.
  - apply Z.shiftl_spec_low. lia.
Qed.

Lemma testbit_amd_mask k :
  0 <= k ->
  Z.testbit (Z.lor CPU_AMD_L (Z.lor CPU_3DNOW_L CPU_3DNOWEX_L)) k =
  (k =? 27) || (k =? 30) || (k =? 31).
Proof.
  intros Hk. unfold CPU_AMD_L, CPU_3DNOW_L, CPU_3DNOWEX_L.
  rewrite !Z.lor_spec, !Z.shiftl_1_l, !Z.pow2_bits_eqb by lia.
  change (59 - 32) with 27. change (62 - 32) with 30. change (63 - 32) with 31.
  rewrite !(Z.eqb_sym _ k).
  destruct (k =? 27), (k =? 30), (k =? 31); reflexivity.
Qed.

(** Bit [k] of the descriptor the probe packs. *)
Lemma pack_testbit v k :
  0 <= a_info_lo v < 2 ^ 32 -> 0 <= k ->
  Z.testbit (cpuInfo_pack v) k =
  if k <? 32 then Z.testbit (a_info_lo v) k
  else if k <? 42 then Z.testbit (snd (probe_caches v)) (k - 32)
  else if k <? 50 then Z.testbit (fst (probe_caches v)) (k - 42)
  else if k <? 54 then Z.testbit (probe_family v) (k - 50)
  else if k =? 59 then Z.testbit (a_amdFeatures v) 27
  else if k =? 60 then Z.testbit (a_info_lo v) 25
  else if k =? 62 then Z.testbit (a_amdFeatures v) 30
  else if k =? 63 then Z.testbit (a_amdFeatures v) 31
  else false.
Proof.
  intros Hlo Hk. rewrite cpuInfo_pack_fields. rewrite !Z.lor_spec.
  unfold CPU_FAMILY, CPU_FAMILY_SHIFT, CPU_L1DATASIZE, CPU_L1DATASIZE_SHIFT,
    CPU_L2SIZE, CPU_L2SIZE_SHIFT.
  change 15 with (2 ^ 4 - 1). change 255 with (2 ^ 8 - 1). change 1023 with (2 ^ 10 - 1).
  rewrite !testbit_mask_field by lia.
  assert (Hamd : Z.testbit (Z.shiftl (Z.land (a_amdFeatures v)
                   (Z.lor CPU_AMD_L (Z.lor CPU_3DNOW_L CPU_3DNOWEX_L))) 32) k =
                 (32 <=? k) && (((k =? 59) || (k =? 62) || (k =? 63))
                                && Z.testbit (a_amdFeatures v) (k - 32))).
  { destruct (Z.leb_spec 32 k); cbn [andb].
    - rewrite Z.shiftl_spec, Z.land_spec, testbit_amd_mask by lia.
      rewrite andb_comm. f_equal.
      destruct (Z.eqb_spec (k - 32) 27), (Z.eqb_spec (k - 32) 30), (Z.eqb_spec (k - 32) 31),
        (Z.eqb_spec k 59), (Z.eqb_spec k 62), (Z.eqb_spec k 63); try lia; reflexivity.
    - apply Z.shiftl_spec_low. lia. }
  rewrite Hamd.
  assert (Hlo' : Z.testbit (if has_flag (a_info_lo v) CPU_SSE
                            then Z.lor (a_info_lo v) CPU_MMXEX else a_info_lo v) k =
                 if k <? 32 then Z.testbit (a_info_lo v) k
                 else (k =? 60) && Z.testbit (a_info_lo v) 25).
  { change CPU_SSE with (Z.shiftl 1 25). rewrite has_flag_testbit by lia.
    destruct (Z.ltb_spec k 32).
    - destruct (Z.testbit (a_info_lo v) 25); [|reflexivity].
      rewrite Z.lor_spec. unfold CPU_MMXEX.
      rewrite Z.shiftl_1_l, Z.pow2_bits_false by lia. apply orb_false_r.
    - destruct (Z.testbit (a_info_lo v) 25).
      + rewrite Z.lor_spec, (testbit_high (a_info_lo v) 32) by lia.
        unfold CPU_MMXEX. rewrite Z.shiftl_1_l, Z.pow2_bits_eqb by lia.
        rewrite andb_true_r, Z.eqb_sym. reflexivity.
      + rewrite andb_false_r. apply (testbit_high _ 32); lia. }
  rewrite Hlo'.
  destruct (Z.ltb_spec k 32), (Z.ltb_spec k 42), (Z.ltb_spec k 50), (Z.ltb_spec k 54),
    (Z.leb_spec 32 k), (Z.leb_spec 42 k), (Z.leb_spec 50 k),
    (Z.ltb_spec k (32 + 10)), (Z.ltb_spec k (42 + 8)), (Z.ltb_spec k (50 + 4));
    try lia; cbn [andb orb];
    rewrite ?orb_false_r; try reflexivity;
    destruct (Z.eqb_spec k 59), (Z.eqb_spec k 60), (Z.eqb_spec k 62), (Z.eqb_spec k 63);
    try lia; subst; cbn [andb orb]; rewrite ?orb_false_r; reflexivity.
Qed.

Lemma field_read d s w x :
  0 <= s -> 0 <= w ->
  (forall n, 0 <= n < w -> Z.testbit d (n + s) = Z.testbit x n) ->
  Z.land (Z.shiftr d s) (2 ^ w - 1) = x mod 2 ^ w.
Proof.
  intros Hs Hw H. rewrite land_mask by lia. apply Z.bits_inj'. intros n Hn.
  destruct (Z.ltb_spec n w).
  - rewrite !Z.mod_pow2_bits_low by lia. rewrite Z.shiftr_spec by lia. apply H. lia.
  - rewrite !Z.mod_pow2_bits_high by lia. reflexivity.
Qed.

Lemma pack_range v : 0 <= a_info_lo v < 2 ^ 32 -> 0 <= cpuInfo_pack v < 2 ^ 64.
Proof.
  intros Hlo.
  assert (E : cpuInfo_pack v = cpuInfo_pack v mod 2 ^ 64).
  { apply Z.bits_inj'. intros k Hk. destruct (Z.ltb_spec k 64).
    - rewrite Z.mod_pow2_bits_low by lia. reflexivity.
    - rewrite Z.mod_pow2_bits_high by lia. rewrite pack_testbit by lia.
      destruct (Z.ltb_spec k 32), (Z.ltb_spec k 42), (Z.ltb_spec k 50), (Z.ltb_spec k 54),
        (Z.eqb_spec k 59), (Z.eqb_spec k 60), (Z.eqb_spec k 62), (Z.eqb_spec k 63);
        try lia; reflexivity. }
  rewrite E. apply Z.mod_pos_bound. lia.
Qed.

Lemma probe_family_range v : 0 <= probe_family v < 16.
Proof.
  unfold probe_family. cbv zeta.
  destruct (_ =? 15); apply (land_range_r _ 15 4); lia.
Qed.

Lemma asm_info_lo_range h v : cpuInfo_asm h = Some v -> 0 <= a_info_lo v < 2 ^ 32.
Proof. intros H. destruct (cpuInfo_asm_ok h v H) as [(R & _) _]. exact R. Qed.

(** The first call of a process. *)
Lemma probe_first_call h :
  _cpuInfo h statics_init =
  match cpuInfo_asm h with
  | None => (0, mk_statics true 0, ProbeTrapped)
  | Some v => (cpuInfo_pack v, mk_statics true (cpuInfo_pack v), ProbeDetected)
  end.
Proof. reflexivity. Qed.

(** After the first call the statics hold its descriptor. *)
Lemma reachable_cases h st :
  probe_reachable h st ->
  st = statics_init \/ st = mk_statics true (fst (fst (_cpuInfo h statics_init))).
Proof.
  induction 1 as [|st _ [-> | ->]].
  - left. reflexivity.
  - right. rewrite probe_first_call. destruct (cpuInfo_asm h); reflexivity.
  - right. reflexivity.
Qed.

Lemma reachable_descriptor h st :
  probe_reachable h st ->
  fst (fst (_cpuInfo h st)) = fst (fst (_cpuInfo h statics_init)).
Proof.
  intros R. destruct (reachable_cases h st R) as [-> | ->]; reflexivity.
Qed.

(** ** Calls *)

(** X11: every call of [_cpuInfo] in a process returns the descriptor of
    the first call, and only the first call executes [cpuid]: a later call
    returns from the cache and leaves the statics as they are. *)
Theorem probe_stable h st :
  probe_reachable h st ->
  fst (fst (_cpuInfo h st)) = fst (fst (_cpuInfo h statics_init)) /\
  (st <> statics_init -> _cpuInfo h st = (cpuInfoLast st, st, ProbeCached)).
Proof.
  intros R. split; [apply reachable_descriptor, R|].
  destruct (reachable_cases h st R) as [-> | ->]; [congruence | reflexivity].
Qed.

(** The third call on the Pentium III sample. *)
Lemma probe_stable_witness :
  fst (fst (_cpuInfo sse_host
              (snd (fst (_cpuInfo sse_host (snd (fst (_cpuInfo sse_host statics_init)))))))) =
  fst (fst (_cpuInfo sse_host statics_init)).
Proof.
  apply (probe_stable sse_host). apply reach_call, reach_call, reach_init.
Defined.

(** ** Fields *)

(** The fields of the descriptor of a probe without trap. *)
Lemma probe_fields_read_back_aux h v :
  cpuInfo_asm h = Some v ->
  let d := fst (fst (_cpuInfo h statics_init)) in
  0 <= d < 2 ^ 64 /\
  d mod 2 ^ 32 = a_info_lo v /\
  info_family d = probe_family v /\
  info_l1d d = fst (probe_caches v) mod 256 /\
  info_l2 d = snd (probe_caches v) mod 1024 /\
  cacheSize d = Z.max 65536 (snd (probe_caches v) mod 1024 * 32768).
Proof.
  intros Hv d. subst d. rewrite probe_first_call, Hv. cbn [fst].
  pose proof (asm_info_lo_range h v Hv) as Hlo.
  assert (F : info_family (cpuInfo_pack v) = probe_family v).
  { unfold info_family, CPU_FAMILY, CPU_FAMILY_SHIFT. change 15 with (2 ^ 4 - 1).
    rewrite (field_read _ 50 4 (probe_family v)) by
      (try lia; intros n Hn; rewrite pack_testbit by lia;
       destruct (Z.ltb_spec (n + 50) 32), (Z.ltb_spec (n + 50) 42), (Z.ltb_spec (n + 50) 50),
         (Z.ltb_spec (n + 50) 54); try lia; f_equal; lia).
    apply Z.mod_small. apply probe_family_range. }
  assert (L1 : info_l1d (cpuInfo_pack v) = fst (probe_caches v) mod 256).
  { unfold info_l1d, CPU_L1DATASIZE, CPU_L1DATASIZE_SHIFT. change 255 with (2 ^ 8 - 1).
    apply (field_read _ 42 8); try lia. intros n Hn. rewrite pack_testbit by lia.
    destruct (Z.ltb_spec (n + 42) 32), (Z.ltb_spec (n + 42) 42), (Z.ltb_spec (n + 42) 50);
      try lia; f_equal; lia. }
  assert (L2 : info_l2 (cpuInfo_pack v) = snd (probe_caches v) mod 1024).
  { unfold info_l2, CPU_L2SIZE, CPU_L2SIZE_SHIFT. change 1023 with (2 ^ 10 - 1).
    apply (field_read _ 32 10); try lia. intros n Hn. rewrite pack_testbit by lia.
    destruct (Z.ltb_spec (n + 32) 32), (Z.ltb_spec (n + 32) 42); try lia; f_equal; lia. }
  split; [apply pack_range, Hlo|].
  split.
  { apply Z.bits_inj'. intros k Hk. destruct (Z.ltb_spec k 32).
    - rewrite Z.mod_pow2_bits_low, pack_testbit by lia.
      destruct (Z.ltb_spec k 32); [reflexivity | lia].
    - rewrite Z.mod_pow2_bits_high by lia. symmetry. apply (testbit_high _ 32); lia. }
  split; [exact F|]. split; [exact L1|]. split; [exact L2|].
  rewrite cacheSize_eq. fold (info_l2 (cpuInfo_pack v)). rewrite L2. reflexivity.
Qed.

(** X12: what [_cpuInfo] packs can be read back.  For the variables [v]
    a probe without trap leaves: the low 32 bits of the descriptor are the
    feature dword, the fields at CPU_FAMILY_SHIFT, CPU_L1DATASIZE_SHIFT and
    CPU_L2SIZE_SHIFT hold the family, and the L1 data and L2 sizes in their
    units modulo the field widths (256 and 1024), the descriptor fits 64
    bits, and the cache size the kernels compute from it is the L2 field
    times 32K with the floor of 64K. *)
Theorem probe_fields_read_back h v :
  cpuInfo_asm h = Some v ->
  let d := fst (fst (_cpuInfo h statics_init)) in
  0 <= d < 2 ^ 64 /\
  d mod 2 ^ 32 = a_info_lo v /\
  info_family d = probe_family v /\
  info_l1d d = fst (probe_caches v) mod 256 /\
  info_l2 d = snd (probe_caches v) mod 1024 /\
  cacheSize d = Z.max 65536 (snd (probe_caches v) mod 1024 * 32768).
Proof.
  intros Hv. exact (probe_fields_read_back_aux h v Hv).
Qed.

(** The Pentium III sample: family 6, 16K of L1 data cache in units of
    8K, 512K of L2 cache in units of 32K. *)
Lemma probe_fields_read_back_witness :
  info_family (fst (fst (_cpuInfo sse_host statics_init))) = 6 /\
  info_l1d (fst (fst (_cpuInfo sse_host statics_init))) = 2 /\
  info_l2 (fst (fst (_cpuInfo sse_host statics_init))) = 16 /\
  cacheSize (fst (fst (_cpuInfo sse_host statics_init))) = 524288.
Proof.
  destruct (cpuInfo_asm sse_host) as [v|] eqn:E; [|discriminate E].
  destruct (probe_fields_read_back sse_host v E) as (_ & _ & F & L1 & L2 & C).
  assert (Ev : Some v = cpuInfo_asm sse_host) by (symmetry; exact E).
  vm_compute in Ev. injection Ev as ->.
  split; [rewrite F; reflexivity|].
  split; [rewrite L1; reflexivity|].
  split; [rewrite L2; reflexivity|].
  rewrite C. reflexivity.
Defined.

(** ** Flags *)

Lemma has_flag_0 F : has_flag 0 F = false.
Proof. reflexivity. Qed.

(** X13: in a descriptor [_cpuInfo] returns, CPU_MMXEX is set exactly
    when CPU_SSE is: the probe never reports the extended MMX instructions
    on a processor without SSE, whatever the vendor leaves say. *)
Theorem probe_mmxex_is_sse h st :
  probe_reachable h st ->
  has_flag (fst (fst (_cpuInfo h st))) CPU_MMXEX = has_flag (fst (fst (_cpuInfo h st))) CPU_SSE.
Proof.
  intros R. rewrite (reachable_descriptor h st R), probe_first_call.
  destruct (cpuInfo_asm h) as [v|] eqn:E; cbn [fst]; [|reflexivity].
  pose proof (asm_info_lo_range h v E) as Hlo.
  destruct (flag_bits (cpuInfo_pack v)) as (_ & _ & _ & -> & _ & -> & _).
  rewrite !pack_testbit by lia. reflexivity.
Qed.

(** The processor that reports SSE without MMX and the extended 3DNow!
    level: neither flag is in the descriptor. *)
Lemma probe_mmxex_is_sse_witness :
  has_flag (fst (fst (_cpuInfo odd_host statics_init))) CPU_MMXEX =
  has_flag (fst (fst (_cpuInfo odd_host statics_init))) CPU_SSE.
Proof.
  apply (probe_mmxex_is_sse odd_host statics_init). apply reach_init.
Defined.

(** The assembly block sets the vendor features in one place only. *)
Lemma asm_amd_cases h v :
  cpuInfo_asm h = Some v ->
  (a_amdFeatures v = 0 /\
   ~ exists r0 re, cpuid h 0 = Some r0 /\ r_eax r0 <> 0 /\
                   cpuid h 0x80000000 = Some re /\ 0x80000005 <= r_eax re) \/
  (Z.testbit (a_amdFeatures v) 27 = true /\
   exists r0 re, cpuid h 0 = Some r0 /\ r_eax r0 <> 0 /\
                 cpuid h 0x80000000 = Some re /\ 0x80000005 <= r_eax re).
Proof.
  unfold cpuInfo_asm.
  destruct (cpuid h 0) as [r0|] eqn:E0; [|discriminate].
  destruct (Z.eqb_spec (r_eax r0) 0) as [Z0|Z0].
  { intros [= <-]. left. split; [reflexivity|].
    intros (r0' & re & [= <-] & N & _). contradiction. }
  destruct (cpuid h 1) as [r1|]; [|discriminate].
  destruct (cpuid h 2147483648) as [re|] eqn:Ee; [|discriminate].
  destruct (Z.ltb_spec (r_eax re) 2147483653) as [L|L].
  { assert (N : ~ exists r0' re', Some r0 = Some r0' /\ r_eax r0' <> 0 /\
                    Some re = Some re' /\ 2147483653 <= r_eax re').
    { intros (r0' & re' & _ & _ & [= <-] & G). lia. }
    destruct (r_eax r0 <? 2).
    - intros [= <-]. left. split; [reflexivity | exact N].
    - destruct (cpuid h 2); [|discriminate]. intros [= <-]. left.
      split; [reflexivity | exact N]. }
  destruct (cpuid h 2147483649) as [ra|]; [|discriminate].
  assert (B : Z.testbit (downgrade (Z.lor (r_edx ra) CPU_AMD_L) CPU_3DNOW_L CPU_3DNOWEX_L) 27
              = true).
  { rewrite (testbit_downgrade _ CPU_3DNOW_L 31 CPU_3DNOWEX_L 27) by (reflexivity || lia).
    assert (B0 : Z.testbit (Z.lor (r_edx ra) CPU_AMD_L) 27 = true).
    { rewrite Z.lor_spec. replace (Z.testbit CPU_AMD_L 27) with true by reflexivity.
      apply orb_true_r. }
    rewrite B0. replace (Z.testbit CPU_3DNOWEX_L 27) with false by reflexivity.
    destruct (Z.testbit _ 31); reflexivity. }
  assert (X : exists r0' re', Some r0 = Some r0' /\ r_eax r0' <> 0 /\
                Some re = Some re' /\ 2147483653 <= r_eax re')
    by (exists r0, re; auto).
  destruct (cpuid h 2147483653); [|discriminate].
  destruct (r_eax re <? 2147483654).
  { intros [= <-]. right. split; [exact B | exact X]. }
  destruct (cpuid h 2147483654); [|discriminate].
  intros [= <-]. right. split; [exact B | exact X].
Qed.

(** X14: when no [cpuid] of the probe traps, the descriptor has CPU_AMD
    exactly when leaf 0 reports a non-zero maximum and leaf 0x80000000
    reports at least 0x80000005: the vendor string is not looked at.
    CPU_3DNOW and CPU_3DNOWEX are only set together with CPU_AMD. *)
Theorem probe_amd_flag h st :
  probe_reachable h st -> cpuInfo_asm h <> None ->
  (has_flag (fst (fst (_cpuInfo h st))) CPU_AMD = true <->
   exists r0 re, cpuid h 0 = Some r0 /\ r_eax r0 <> 0 /\
                 cpuid h 0x80000000 = Some re /\ 0x80000005 <= r_eax re) /\
  (has_flag (fst (fst (_cpuInfo h st))) CPU_3DNOW = true ->
   has_flag (fst (fst (_cpuInfo h st))) CPU_AMD = true) /\
  (has_flag (fst (fst (_cpuInfo h st))) CPU_3DNOWEX = true ->
   has_flag (fst (fst (_cpuInfo h st))) CPU_AMD = true).
Proof.
  intros R Hn. rewrite (reachable_descriptor h st R), probe_first_call.
  destruct (cpuInfo_asm h) as [v|] eqn:E; [|congruence]. cbn [fst].
  pose proof (asm_info_lo_range h v E) as Hlo.
  destruct (flag_bits (cpuInfo_pack v)) as (_ & _ & _ & _ & _ & _ & -> & ->).
  change CPU_AMD with (Z.shiftl 1 59). rewrite has_flag_testbit by lia.
  rewrite !pack_testbit by lia. cbn [Z.ltb Z.eqb Z.compare Pos.compare Pos.compare_cont].
  destruct (asm_amd_cases h v E) as [[Z0 N] | [B X]].
  - rewrite Z0, !Z.bits_0.
    split; [split; [discriminate | intros X; contradiction]|].
    split; discriminate.
  - rewrite B. split; [split; auto|]. split; reflexivity.
Qed.

(** The sample with extended leaves up to 0x80000006. *)
Lemma probe_amd_flag_witness :
  has_flag (fst (fst (_cpuInfo odd_host statics_init))) CPU_AMD = true.
Proof.
  destruct (probe_amd_flag odd_host statics_init (reach_init odd_host)) as ((_ & A) & _).
  - discriminate.
  - apply A. exists (mk_regs 1 0 0 0), (mk_regs 0x80000006 0 0 0).
    split; [reflexivity|]. split; [discriminate|]. split; [reflexivity|].
    vm_compute. discriminate.
Defined.

(** X15: on a processor whose leaf 0 reports no further leaf, the
    descriptor consists of the family field alone, and that field is
    computed from the local [cpuid1regEAX], which nothing has written: no
    capability flag is set, and the cache size of the kernels is the
    floor. *)
Theorem probe_without_leaves h r0 :
  cpuid h 0 = Some r0 -> r_eax r0 = 0 ->
  let d := fst (fst (_cpuInfo h statics_init)) in
  d = Z.shiftl (probe_family (asm_entry h)) CPU_FAMILY_SHIFT /\
  d mod 2 ^ 32 = 0 /\
  has_flag d CPU_MMXEX = false /\ has_flag d CPU_AMD = false /\
  has_flag d CPU_3DNOW = false /\ has_flag d CPU_3DNOWEX = false /\
  cacheSize d = 65536.
Proof.
  intros E0 Z0 d.
  assert (Ev : cpuInfo_asm h = Some (asm_entry h)).
  { unfold cpuInfo_asm. rewrite E0, Z0. reflexivity. }
  destruct (probe_fields_read_back_aux h (asm_entry h) Ev) as (Hr & Hlo & F & L1 & L2 & C).
  fold d in Hr, Hlo, F, L1, L2, C.
  assert (Ed : d = cpuInfo_pack (asm_entry h))
    by (subst d; rewrite probe_first_call, Ev; reflexivity).
  assert (Hb : forall k, 0 <= k -> Z.testbit d k =
            if (50 <=? k) && (k <? 54) then Z.testbit (probe_family (asm_entry h)) (k - 50)
            else false).
  { intros k Hk. rewrite Ed, pack_testbit by (cbn; lia).
    assert (Hc : probe_caches (asm_entry h) = (0, 0)) by reflexivity.
    rewrite Hc. cbn [fst snd].
    replace (a_info_lo (asm_entry h)) with 0 by reflexivity.
    replace (a_amdFeatures (asm_entry h)) with 0 by reflexivity.
    rewrite !Z.bits_0.
    destruct (Z.ltb_spec k 32), (Z.ltb_spec k 42), (Z.ltb_spec k 50), (Z.ltb_spec k 54),
      (Z.leb_spec 50 k); try lia; cbn [andb]; try reflexivity;
      destruct (k =? 59), (k =? 60), (k =? 62), (k =? 63); reflexivity. }
  split.
  { apply Z.bits_inj'. intros k Hk. rewrite Hb by lia. unfold CPU_FAMILY_SHIFT.
    destruct (Z.leb_spec 50 k); cbn [andb].
    - rewrite Z.shiftl_spec by lia. destruct (Z.ltb_spec k 54); [reflexivity|].
      symmetry. apply (testbit_high _ 4); [|lia].
      pose proof (probe_family_range (asm_entry h)). lia.
    - symmetry. apply Z.shiftl_spec_low. lia. }
  split; [rewrite Hlo; reflexivity|].
  destruct (flag_bits d) as (_ & _ & _ & _ & _ & -> & -> & ->).
  change CPU_AMD with (Z.shiftl 1 59). rewrite has_flag_testbit by lia.
  rewrite !Hb by lia. cbn [Z.leb Z.ltb Z.compare Pos.compare Pos.compare_cont andb].
  repeat split. rewrite C. reflexivity.
Qed.

Lemma probe_without_leaves_witness :
  fst (fst (_cpuInfo bare_host statics_init)) = Z.shiftl 5 CPU_FAMILY_SHIFT /\
  cacheSize (fst (fst (_cpuInfo bare_host statics_init))) = 65536.
Proof.
  destruct (probe_without_leaves bare_host (mk_regs 0 0 0 0) eq_refl eq_refl)
    as (D & _ & _ & _ & _ & _ & C).
  split; [exact D | exact C].
Defined.

(** ** The descriptor as a [jlong] *)

Lemma wrap64_sint64 x : wrap64 (sint64 x) = wrap64 x.
Proof.
  unfold sint64, wrap64. cbv zeta. destruct (_ <? _).
  - apply Z.mod_mod. lia.
  - replace (x mod 2 ^ 64 - 2 ^ 64) with (x mod 2 ^ 64 + (-1) * 2 ^ 64) by lia.
    rewrite Z.mod_add by lia. apply Z.mod_mod. lia.
Qed.

Lemma testbit_sint64 x k : 0 <= k < 64 -> Z.testbit (sint64 x) k = Z.testbit x k.
Proof.
  intros Hk.
  rewrite <- (Z.mod_pow2_bits_low (sint64 x) 64 k), <- (Z.mod_pow2_bits_low x 64 k) by lia.
  fold (wrap64 (sint64 x)). fold (wrap64 x). rewrite wrap64_sint64. reflexivity.
Qed.

Lemma has_flag_sint64 d k : 0 <= k < 64 -> has_flag (sint64 d) (Z.shiftl 1 k) = has_flag d (Z.shiftl 1 k).
Proof. intros Hk. rewrite !has_flag_testbit by lia. apply testbit_sint64, Hk. Qed.

Lemma cacheSize_sint64 d : cacheSize (sint64 d) = cacheSize d.
Proof.
  rewrite !cacheSize_eq. do 2 f_equal.
  unfold CPU_L2SIZE, CPU_L2SIZE_SHIFT. change 1023 with (2 ^ 10 - 1).
  rewrite !land_mask by lia. apply Z.bits_inj'. intros n Hn.
  destruct (Z.ltb_spec n 10).
  - rewrite !Z.mod_pow2_bits_low, !Z.shiftr_spec by lia. apply testbit_sint64. lia.
  - rewrite !Z.mod_pow2_bits_high by lia. reflexivity.
Qed.

Lemma kernels_sint64 d :
  (forall T m a BeginIndex EndIndex V,
     fill T (sint64 d) m a BeginIndex EndIndex V = fill T d m a BeginIndex EndIndex V) /\
  (forall m a Aofs b Bofs Len,
     copyBytes (sint64 d) m a Aofs b Bofs Len = copyBytes d m a Aofs b Bofs Len) /\
  (forall e m a Aofs b Bofs Len,
     minmax e (sint64 d) m a Aofs b Bofs Len = minmax e d m a Aofs b Bofs Len).
Proof.
  assert (S : has_flag (sint64 d) CPU_SSE = has_flag d CPU_SSE) by (apply (has_flag_sint64 d 25); lia).
  assert (M : has_flag (sint64 d) CPU_MMX = has_flag d CPU_MMX) by (apply (has_flag_sint64 d 23); lia).
  assert (X : has_flag (sint64 d) CPU_MMXEX = has_flag d CPU_MMXEX) by (apply (has_flag_sint64 d 60); lia).
  assert (C : has_flag (sint64 d) CPU_CMOV = has_flag d CPU_CMOV) by (apply (has_flag_sint64 d 15); lia).
  pose proof (cacheSize_sint64 d) as Z.
  split; [|split].
  - intros. unfold fill, fill_sse. rewrite S, Z. reflexivity.
  - intros. unfold copyBytes, copyBytes_sse. rewrite S, Z. reflexivity.
  - intros. unfold minmax, entry_body, minmax_int, minmax_float, minmax_double, minmax_ub.
    destruct e; cbn [MINMAX_MMXEX K_min_jbyte K_max_jbyte K_min_jshort K_max_jshort
                     K_min_jint K_max_jint K_minu_jshort K_maxu_jshort];
      rewrite ?S, ?M, ?X, ?C; reflexivity.
Qed.

(** X16: [getCpuInfoInternal] hands the descriptor to Java as a signed
    64-bit number, negative exactly when CPU_3DNOW is set; the kernels
    that receive this number back take the same branches and leave the
    same memory as with the descriptor of [_cpuInfo] itself. *)
Theorem getCpuInfoInternal_dispatch h st :
  probe_reachable h st ->
  let d := fst (fst (_cpuInfo h st)) in
  let c := fst (getCpuInfoInternal h st) in
  - 2 ^ 63 <= c < 2 ^ 63 /\
  (c < 0 <-> has_flag d CPU_3DNOW = true) /\
  (forall T m a BeginIndex EndIndex V,
     fill T c m a BeginIndex EndIndex V = fill T d m a BeginIndex EndIndex V) /\
  (forall m a Aofs b Bofs Len,
     copyBytes c m a Aofs b Bofs Len = copyBytes d m a Aofs b Bofs Len) /\
  (forall e m a Aofs b Bofs Len,
     minmax e c m a Aofs b Bofs Len = minmax e d m a Aofs b Bofs Len).
Proof.
  intros R d c.
  assert (Ec : c = sint64 d).
  { subst c d. unfold getCpuInfoInternal. destruct (_cpuInfo h st) as [[d0 st0] p]. reflexivity. }
  assert (Hd : 0 <= d < 2 ^ 64).
  { subst d. rewrite (reachable_descriptor h st R), probe_first_call.
    destruct (cpuInfo_asm h) as [v|] eqn:E; cbn [fst]; [|lia].
    apply pack_range, (asm_info_lo_range h v E). }
  rewrite Ec. split; [|split; [|apply kernels_sint64]].
  - unfold sint64, wrap64. cbv zeta. rewrite (Z.mod_small d) by lia.
    destruct (Z.ltb_spec d (2 ^ 63)); lia.
  - change CPU_3DNOW with (Z.shiftl 1 63). rewrite has_flag_testbit by lia.
    unfold sint64, wrap64. cbv zeta. rewrite (Z.mod_small d) by lia.
    destruct (Z.ltb_spec d (2 ^ 63)) as [L|L].
    + rewrite (testbit_high d 63 63) by lia. split; [lia | discriminate].
    + split; [intros _ | lia].
      destruct (Z.testbit d 63) eqn:B; [reflexivity|].
      assert (E63 : d = d mod 2 ^ 63).
      { apply Z.bits_inj'. intros k Hk. destruct (Z.ltb_spec k 63).
        - rewrite Z.mod_pow2_bits_low by lia. reflexivity.
        - rewrite Z.mod_pow2_bits_high by lia.
          destruct (Z.eq_dec k 63) as [->|]; [exact B|].
          apply (testbit_high d 64); lia. }
      pose proof (Z.mod_pos_bound d (2 ^ 63) ltac:(lia)). lia.
Qed.

(** The sample processor with 3DNow!-like vendor leaves: the extended
    3DNow! flag is downgraded, the number is positive. *)
Lemma getCpuInfoInternal_dispatch_witness :
  fst (getCpuInfoInternal odd_host statics_init) = 582125504929202176 /\
  copyBytes (fst (getCpuInfoInternal sse_host statics_init)) ramp 4096 0 8192 0 100 =
  copyBytes (fst (fst (_cpuInfo sse_host statics_init))) ramp 4096 0 8192 0 100.
Proof.
  split; [reflexivity|].
  destruct (getCpuInfoInternal_dispatch sse_host statics_init (reach_init sse_host))
    as (_ & _ & _ & C & _).
  exact (C ramp 4096 0 8192 0 100).
Defined.

(** * TimingNative.cpp *)

(** When the timing probe answers 1. *)
Lemma timecpu_first h :
  fst (getTimecpuSupportedInternal h timecpu_init) = 1 <->
  exists regs eax edx,
    cpuid (t_host h) 1 = Some regs /\ Z.testbit (r_edx regs) 4 = true /\
    rdtsc_insn h = Some (eax, edx) /\ (wrap32 eax <> 0 \/ wrap32 edx <> 0).
Proof.
  unfold getTimecpuSupportedInternal, timecpu_init. cbn [Z.geb Z.compare].
  destruct (cpuid (t_host h) 1) as [r|].
  2:{ cbn [fst]. split; [discriminate | intros (? & ? & ? & [=] & _)]. }
  pose proof (has_flag_testbit (r_edx r) 4 ltac:(lia)) as F. unfold has_flag in F.
  destruct (Z.land (r_edx r) (Z.shiftl 1 4) =? 0); cbn [negb] in F.
  { cbn [fst]. split; [discriminate|]. intros (r' & ? & ? & [= <-] & B & _). congruence. }
  destruct (rdtsc_insn h) as [[eax edx]|].
  2:{ cbn [fst]. split; [discriminate | intros (? & ? & ? & _ & _ & [=] & _)]. }
  assert (Z0 : Z.lor (wrap32 eax) (wrap32 edx) = 0 <-> wrap32 eax = 0 /\ wrap32 edx = 0)
    by apply Z.lor_eq_0_iff.
  destruct (Z.eqb_spec (Z.lor (wrap32 eax) (wrap32 edx)) 0) as [E|E]; cbn [fst].
  - split; [discriminate|]. intros (? & eax' & edx' & _ & _ & [= <- <-] & N).
    apply Z0 in E. lia.
  - split; [intros _|reflexivity]. exists r, eax, edx.
    repeat split; auto. destruct (Z.eq_dec (wrap32 eax) 0); [right|left; assumption].
    intros E2. apply E, Z0. auto.
Qed.

Lemma timecpu_first_01 h :
  fst (getTimecpuSupportedInternal h timecpu_init) = snd (getTimecpuSupportedInternal h timecpu_init) /\
  (fst (getTimecpuSupportedInternal h timecpu_init) = 0 \/
   fst (getTimecpuSupportedInternal h timecpu_init) = 1).
Proof.
  unfold getTimecpuSupportedInternal, timecpu_init. cbn [Z.geb Z.compare].
  destruct (cpuid (t_host h) 1) as [r|]; [|cbn; auto].
  destruct (_ =? 0); [cbn; auto|].
  destruct (rdtsc_insn h) as [[eax edx]|]; [|cbn; auto].
  destruct (_ =? 0); cbn; auto.
Qed.

Lemma timecpu_cases h st :
  timecpu_reachable h st ->
  st = timecpu_init \/ st = fst (getTimecpuSupportedInternal h timecpu_init).
Proof.
  induction 1 as [|st _ [-> | ->]].
  - left. reflexivity.
  - right. symmetry. apply timecpu_first_01.
  - right. destruct (timecpu_first_01 h) as [_ [E|E]]; rewrite E; reflexivity.
Qed.

(** X17: [getTimecpuSupportedInternal] answers 0 or 1, the same at every
    call of a process, and 1 exactly when [cpuid] with leaf 1 does not
    trap and reports the TSC feature, and [rdtsc] does not trap and leaves
    a non-zero counter: a trap of either instruction is the answer 0. *)
Theorem getTimecpuSupportedInternal_answer h st :
  timecpu_reachable h st ->
  fst (getTimecpuSupportedInternal h st) = fst (getTimecpuSupportedInternal h timecpu_init) /\
  (fst (getTimecpuSupportedInternal h st) = 0 \/ fst (getTimecpuSupportedInternal h st) = 1) /\
  (fst (getTimecpuSupportedInternal h st) = 1 <->
   exists regs eax edx,
     cpuid (t_host h) 1 = Some regs /\ Z.testbit (r_edx regs) 4 = true /\
     rdtsc_insn h = Some (eax, edx) /\ (wrap32 eax <> 0 \/ wrap32 edx <> 0)).
Proof.
  intros R.
  assert (E : fst (getTimecpuSupportedInternal h st) =
              fst (getTimecpuSupportedInternal h timecpu_init)).
  { destruct (timecpu_cases h st R) as [-> | ->]; [reflexivity|].
    destruct (timecpu_first_01 h) as [_ [E|E]]; rewrite E; reflexivity. }
  rewrite E. split; [reflexivity|]. split; [apply timecpu_first_01 | apply timecpu_first].
Qed.

(** The second call on the sample with a running counter. *)
Lemma getTimecpuSupportedInternal_answer_witness :
  fst (getTimecpuSupportedInternal tsc_host
         (snd (getTimecpuSupportedInternal tsc_host timecpu_init))) = 1.
Proof.
  destruct (getTimecpuSupportedInternal_answer tsc_host
              (snd (getTimecpuSupportedInternal tsc_host timecpu_init))
              (timecpu_call tsc_host _ (timecpu_start tsc_host))) as (E & _ & _).
  rewrite E. reflexivity.
Defined.

(** The downgrade tests leave the TSC bit of leaf 1 alone. *)
Lemma asm_tsc_bit h v r0 :
  cpuInfo_asm h = Some v -> cpuid h 0 = Some r0 -> r_eax r0 <> 0 ->
  exists r1, cpuid h 1 = Some r1 /\ Z.testbit (a_info_lo v) 4 = Z.testbit (r_edx r1) 4.
Proof.
  unfold cpuInfo_asm. intros H E0 N. rewrite E0 in H.
  destruct (Z.eqb_spec (r_eax r0) 0); [contradiction|].
  destruct (cpuid h 1) as [r1|]; [|discriminate].
  exists r1. split; [reflexivity|].
  assert (B : Z.testbit (downgrade (downgrade (downgrade (r_edx r1) CPU_FPU CPU_CMOV)
                CPU_MMX (Z.lor CPU_SSE CPU_SSE2)) CPU_SSE CPU_SSE2) 4 = Z.testbit (r_edx r1) 4).
  { rewrite (testbit_downgrade _ CPU_SSE 25 CPU_SSE2 4) by (reflexivity || lia).
    rewrite (testbit_downgrade _ CPU_MMX 23 (Z.lor CPU_SSE CPU_SSE2) 4) by (reflexivity || lia).
    rewrite (testbit_downgrade _ CPU_FPU 0 CPU_CMOV 4) by (reflexivity || lia).
    replace (Z.testbit CPU_SSE2 4) with false by reflexivity.
    replace (Z.testbit (Z.lor CPU_SSE CPU_SSE2) 4) with false by reflexivity.
    replace (Z.testbit CPU_CMOV 4) with false by reflexivity.
    cbn [negb]. rewrite !andb_true_r.
    repeat match goal with |- context [if ?c then _ else _] => destruct c end; reflexivity. }
  destruct (cpuid h 2147483648) as [re|]; [|discriminate].
  destruct (r_eax re <? 2147483653).
  { destruct (r_eax r0 <? 2).
    - injection H as <-. exact B.
    - destruct (cpuid h 2); [|discriminate]. injection H as <-. exact B. }
  destruct (cpuid h 2147483649); [|discriminate].
  destruct (cpuid h 2147483653); [|discriminate].
  destruct (r_eax re <? 2147483654).
  { injection H as <-. exact B. }
  destruct (cpuid h 2147483654); [|discriminate].
  injection H as <-. exact B.
Qed.

(** X18: the two probes agree on the time-stamp counter.  When the
    descriptor of [_cpuInfo] has CPU_TSC and [rdtsc] leaves a non-zero
    counter, [getTimecpuSupportedInternal] answers 1; and when it answers
    1 on a processor whose leaf 0 reports further leaves and whose
    [_cpuInfo] does not trap, the descriptor has CPU_TSC. *)
Theorem tsc_probes_agree h :
  let d := fst (fst (_cpuInfo (t_host h) statics_init)) in
  (has_flag d CPU_TSC = true ->
   forall eax edx, rdtsc_insn h = Some (eax, edx) -> wrap32 eax <> 0 \/ wrap32 edx <> 0 ->
   fst (getTimecpuSupportedInternal h timecpu_init) = 1) /\
  (fst (getTimecpuSupportedInternal h timecpu_init) = 1 ->
   forall r0, cpuid (t_host h) 0 = Some r0 -> r_eax r0 <> 0 ->
   cpuInfo_asm (t_host h) <> None ->
   has_flag d CPU_TSC = true).
Proof.
  intros d. subst d. rewrite probe_first_call.
  change CPU_TSC with (Z.shiftl 1 4).
  destruct (cpuInfo_asm (t_host h)) as [v|] eqn:E; cbn [fst].
  2:{ split; [discriminate | congruence]. }
  pose proof (asm_info_lo_range _ v E) as Hlo.
  rewrite has_flag_testbit, pack_testbit by lia. cbn [Z.ltb Z.compare Pos.compare Pos.compare_cont].
  split.
  - intros B eax edx Hr Hnz. apply timecpu_first.
    destruct (cpuid (t_host h) 0) as [r0|] eqn:E0.
    2:{ unfold cpuInfo_asm in E. rewrite E0 in E. discriminate. }
    destruct (Z.eq_dec (r_eax r0) 0) as [Z0|N0].
    { unfold cpuInfo_asm in E. rewrite E0, Z0 in E. injection E as <-.
      cbn in B. discriminate. }
    destruct (asm_tsc_bit _ v r0 E E0 N0) as (r1 & E1 & B1).
    exists r1, eax, edx. rewrite <- B1. auto.
  - intros T r0 E0 N0 _. apply timecpu_first in T.
    destruct T as (regs & _ & _ & E1 & B & _).
    destruct (asm_tsc_bit _ v r0 E E0 N0) as (r1 & E1' & B1).
    rewrite B1. congruence.
Qed.

(** On the sample with a running counter both probes report it. *)
Lemma tsc_probes_agree_witness :
  fst (getTimecpuSupportedInternal tsc_host timecpu_init) = 1.
Proof.
  destruct (tsc_probes_agree tsc_host) as [A _].
  apply (A eq_refl 123456 7 eq_refl). left. discriminate.
Defined.

(** * More on the probe *)

(** The feature dword is leaf 1 after the three downgrade tests. *)
Lemma asm_info_lo_eq h v r0 :
  cpuInfo_asm h = Some v -> cpuid h 0 = Some r0 -> r_eax r0 <> 0 ->
  exists r1, cpuid h 1 = Some r1 /\
    a_info_lo v =
    downgrade (downgrade (downgrade (r_edx r1) CPU_FPU CPU_CMOV)
                 CPU_MMX (Z.lor CPU_SSE CPU_SSE2)) CPU_SSE CPU_SSE2.
Proof.
  unfold cpuInfo_asm. intros H E0 N. rewrite E0 in H.
  destruct (Z.eqb_spec (r_eax r0) 0); [contradiction|].
  destruct (cpuid h 1) as [r1|]; [|discriminate].
  exists r1. split; [reflexivity|].
  destruct (cpuid h 2147483648) as [re|]; [|discriminate].
  destruct (r_eax re <? 2147483653).
  { destruct (r_eax r0 <? 2).
    - injection H as <-. reflexivity.
    - destruct (cpuid h 2); [|discriminate]. injection H as <-. reflexivity. }
  destruct (cpuid h 2147483649); [|discriminate].
  destruct (cpuid h 2147483653); [|discriminate].
  destruct (r_eax re <? 2147483654).
  { injection H as <-. reflexivity. }
  destruct (cpuid h 2147483654); [|discriminate].
  injection H as <-. reflexivity.
Qed.

Lemma downgrade_bit edx F f G k :
  F = Z.shiftl 1 f -> 0 <= k < 32 -> 0 <= f ->
  Z.testbit (downgrade edx F G) k = true -> Z.testbit edx k = true.
Proof.
  intros HF Hk Hf. rewrite (testbit_downgrade edx F f G k HF Hk Hf).
  destruct (Z.testbit edx f); [auto|]. intros H. apply andb_prop in H. tauto.
Qed.

(** X19: the probe reports no feature of the low dword that [cpuid] did
    not report: a bit below 32 that is set in the descriptor is set in
    [edx] of leaf 1. *)
Theorem probe_flags_from_cpuid h st k :
  probe_reachable h st -> 0 <= k < 32 ->
  Z.testbit (fst (fst (_cpuInfo h st))) k = true ->
  exists r1, cpuid h 1 = Some r1 /\ Z.testbit (r_edx r1) k = true.
Proof.
  intros R Hk. rewrite (reachable_descriptor h st R), probe_first_call.
  destruct (cpuInfo_asm h) as [v|] eqn:E; cbn [fst].
  2:{ rewrite Z.bits_0. discriminate. }
  pose proof (asm_info_lo_range h v E) as Hlo.
  rewrite pack_testbit by lia.
  destruct (Z.ltb_spec k 32); [|lia]. intros B.
  destruct (cpuid h 0) as [r0|] eqn:E0.
  2:{ unfold cpuInfo_asm in E. rewrite E0 in E. discriminate. }
  destruct (Z.eq_dec (r_eax r0) 0) as [Z0|N0].
  { unfold cpuInfo_asm in E. rewrite E0, Z0 in E. injection E as <-.
    replace (a_info_lo (asm_entry h)) with 0 in B by reflexivity.
    rewrite Z.bits_0 in B. discriminate. }
  destruct (asm_info_lo_eq h v r0 E E0 N0) as (r1 & E1 & L).
  exists r1. split; [exact E1|]. rewrite L in B.
  apply (downgrade_bit _ CPU_SSE 25) in B; [|reflexivity|lia|lia].
  apply (downgrade_bit _ CPU_MMX 23) in B; [|reflexivity|lia|lia].
  apply (downgrade_bit _ CPU_FPU 0) in B; [|reflexivity|lia|lia].
  exact B.
Qed.

(** The MMX bit on the Pentium III sample. *)
Lemma probe_flags_from_cpuid_witness :
  exists r1, cpuid sse_host 1 = Some r1 /\ Z.testbit (r_edx r1) 23 = true.
Proof.
  apply (probe_flags_from_cpuid sse_host statics_init 23 (reach_init sse_host)); [lia|].
  reflexivity.
Defined.

(** ** The descriptor bytes of leaf 2 *)

Lemma fold_left_ext_in {A B} (f g : A -> B -> A) (l : list B) :
  (forall a k, In k l -> f a k = g a k) ->
  forall a, fold_left f l a = fold_left g l a.
Proof.
  induction l as [|k l IH]; intros H a; [reflexivity|].
  cbn [fold_left]. rewrite (H a k) by (left; reflexivity).
  apply IH. intros a0 k0 Hin. apply H. right. exact Hin.
Qed.

Lemma cpuid2info_skips_low x x' l k :
  0 <= x -> 0 <= x' -> x / 256 = x' / 256 -> 1 <= k ->
  cpuid2info (x :: l) k = cpuid2info (x' :: l) k.
Proof.
  intros Hx Hx' E Hk. unfold cpuid2info.
  destruct (Z.ltb_spec k 4) as [L|L].
  - rewrite (Z.div_small k 4), (Z.mod_small k 4) by lia. cbn [Z.to_nat nth].
    f_equal. rewrite !Z.shiftr_div_pow2 by lia.
    replace (8 * k) with (8 + 8 * (k - 1)) by lia.
    rewrite Z.pow_add_r by lia. change (2 ^ 8) with 256.
    rewrite <- !Z.div_div by (try apply Z.pow_pos_nonneg; lia).
    rewrite E. reflexivity.
  - assert (H4 : 1 <= k / 4) by (apply Z.div_le_lower_bound; lia).
    destruct (Z.to_nat (k / 4)) as [|n] eqn:En; [lia|]. reflexivity.
Qed.

(** X20: the scan of the cache descriptors of leaf 2 never reads the low
    byte of [eax] (the repeat count of the leaf): two values of [eax]
    that agree above it give the same cache sizes. *)
Theorem cache_scan_skips_AL cpuFamily eax eax' ebx ecx edx acc :
  0 <= eax < 2 ^ 32 -> 0 <= eax' < 2 ^ 32 -> eax / 256 = eax' / 256 ->
  cache_scan cpuFamily [eax; ebx; ecx; edx] acc =
  cache_scan cpuFamily [eax'; ebx; ecx; edx] acc.
Proof.
  intros H H' E. unfold cache_scan. cbn [map].
  assert (S : (sint32 eax <? 0) = (sint32 eax' <? 0)).
  { unfold sint32. rewrite !wrap32_small by lia.
    assert (T : forall y, 0 <= y < 2 ^ 32 -> (y <? 2 ^ 31) = (y / 256 <? 2 ^ 23)).
    { intros y Hy. destruct (Z.ltb_spec y (2 ^ 31)), (Z.ltb_spec (y / 256) (2 ^ 23));
        try reflexivity; Z.div_mod_to_equations; lia. }
    rewrite (T eax H), (T eax' H'), E.
    destruct (eax' / 256 <? 2 ^ 23) eqn:B.
    - destruct (Z.ltb_spec eax 0), (Z.ltb_spec eax' 0); try reflexivity; lia.
    - destruct (Z.ltb_spec (eax - 2 ^ 32) 0), (Z.ltb_spec (eax' - 2 ^ 32) 0);
        try reflexivity; lia. }
  rewrite <- S. apply fold_left_ext_in. intros a k Hin. f_equal.
  assert (Hk : 1 <= k).
  { apply in_map_iff in Hin. destruct Hin as (n & <- & Hn). apply in_seq in Hn. lia. }
  destruct (sint32 eax <? 0); [reflexivity|].
  apply cpuid2info_skips_low; lia.
Qed.

(** Leaf 2 of the Pentium III sample with another repeat count. *)
Lemma cache_scan_skips_AL_witness :
  cache_scan 6 [0x03020101; 0; 0; 0x0C040843] (0, 0) =
  cache_scan 6 [0x030201FF; 0; 0; 0x0C040843] (0, 0).
Proof.
  apply (cache_scan_skips_AL 6 0x03020101 0x030201FF 0 0 0x0C040843 (0, 0)); try lia.
  reflexivity.
Defined.
